(** * Voice-activity buffering controllers of the OSS transcriber adapters

    A shallow embedding of the buffering, energy-classification and flush
    logic of

      - [oss_demos/whisper_cpp_transcriber.py]   (module [Whisper]),
      - [oss_demos/high_performance_oss_demo.py] (modules [HighPerf] and
        [HighPerfExcept]),
      - [oss_demos/google_sr_transcriber.py]     (module [GoogleSR]),

    together with the parts of the Python standard [wave] module, of
    [audioop.rms] and of [pydub.AudioSegment] that these loops call, the
    loops as threads stopped by [terminate()] (module [Shutdown]), and
    the whisper-cpp wrapper and the demo scripts around them.

    Conventions of the embedding.

      - Byte strings are [list byte]; a Python [str] is the [string] of
        the bytes of its UTF-8 encoding.
      - Wall-clock readings ([time.time()]) and the duration fields of the
        configuration are integers counting a fixed clock unit
        (milliseconds); the loops only subtract and compare them.  Every
        clock reading is supplied by the environment with the event that
        triggers the iteration.
      - The reply of the recognition backend is supplied by the environment
        with the event as well: the backend is opaque to the controller.
      - [calls] records, in order, the payloads handed to the recognition
        backend; [produced] records the [Transcription]s passed to
        [produce_nonblocking]. *)

From Stdlib Require Import ZArith List Bool Lia String Ascii.
From Stdlib Require Import Init.Byte Strings.Byte.
Import ListNotations.
Open Scope byte_scope.
Open Scope Z_scope.
Set Warnings "-abstract-large-number".

Definition bytes : Type := list byte.

Definition byte_val (b : byte) : Z := Z.of_N (Byte.to_N b).

Definition byte_of_Z (z : Z) : byte :=
  match Byte.of_N (Z.to_N (z mod 256)) with
  | Some b => b
  | None => x00
  end.

Definition len {A : Type} (l : list A) : Z := Z.of_nat (List.length l).

(** Python slice index normalisation for [l[:k]] and [l[k:]]: a negative
    index counts from the end, and the result is clamped to [0 .. len l]. *)
Definition slice_index {A : Type} (k : Z) (l : list A) : nat :=
  Z.to_nat (if k <? 0 then Z.max 0 (len l + k) else k).

Definition py_prefix {A : Type} (k : Z) (l : list A) : list A :=
  firstn (slice_index k l) l.

Definition py_suffix {A : Type} (k : Z) (l : list A) : list A :=
  skipn (slice_index k l) l.

(** [b''.join(chunks)] *)
Definition join (chunks : list bytes) : bytes := List.concat chunks.

(** ** Python [str.strip] and truthiness of strings

    A Python [str] is kept as its UTF-8 encoding, one [ascii] per byte.
    The characters for which [str.isspace] holds, and which [strip()]
    removes, are U+0009..000D, U+001C..0020, U+0085, U+00A0, U+1680,
    U+2000..200A, U+2028, U+2029, U+202F, U+205F and U+3000; they are
    recognised here by their encodings on one, two and three bytes. *)

Definition code (c : ascii) : Z := Z.of_nat (nat_of_ascii c).

(** U+0009..000D and U+001C..0020. *)
Definition is_space (c : ascii) : bool :=
  let n := Z.of_nat (nat_of_ascii c) in
  ((9 <=? n) && (n <=? 13)) || ((28 <=? n) && (n <=? 32)).

(** U+0085 ([C2 85]) and U+00A0 ([C2 A0]). *)
Definition is_space2 (a b : ascii) : bool :=
  (code a =? 194) && ((code b =? 133) || (code b =? 160)).

(** U+1680 ([E1 9A 80]); U+2000..200A, U+2028, U+2029 and U+202F
    ([E2 80 80..8A], [E2 80 A8], [E2 80 A9], [E2 80 AF]); U+205F
    ([E2 81 9F]); U+3000 ([E3 80 80]). *)
Definition is_space3 (a b c : ascii) : bool :=
  ((code a =? 225) && (code b =? 154) && (code c =? 128))
  || ((code a =? 226) && (code b =? 128)
      && (((128 <=? code c) && (code c <=? 138))
          || (code c =? 168) || (code c =? 169) || (code c =? 175)))
  || ((code a =? 226) && (code b =? 129) && (code c =? 159))
  || ((code a =? 227) && (code b =? 128) && (code c =? 128)).

(** Removes, from the front of [l], every group of one, two or three
    elements that [p1], [p2] or [p3] accepts. *)
Fixpoint strip_front {A : Type} (p1 : A -> bool) (p2 : A -> A -> bool)
    (p3 : A -> A -> A -> bool) (l : list A) : list A :=
  match l with
  | [] => []
  | a :: r =>
      if p1 a then strip_front p1 p2 p3 r
      else
        match r with
        | [] => l
        | b :: r2 =>
            if p2 a b then strip_front p1 p2 p3 r2
            else
              match r2 with
              | [] => l
              | c :: r3 =>
                  if p3 a b c then strip_front p1 p2 p3 r3 else l
              end
        end
  end.

(** Nothing at the front of [l] is accepted by [p1], [p2] or [p3]. *)
Definition clean_front {A : Type} (p1 : A -> bool) (p2 : A -> A -> bool)
    (p3 : A -> A -> A -> bool) (l : list A) : bool :=
  match l with
  | [] => true
  | a :: r =>
      negb (p1 a)
      && match r with
         | [] => true
         | b :: r2 =>
             negb (p2 a b)
             && match r2 with
                | [] => true
                | c :: _ => negb (p3 a b c)
                end
         end
  end.

(** [s.lstrip()] *)
Definition lstrip (l : list ascii) : list ascii :=
  strip_front is_space is_space2 is_space3 l.

(** [s.rstrip()], on the reversed string: the bytes of a character come
    last first. *)
Definition rstrip_reversed (l : list ascii) : list ascii :=
  strip_front is_space (fun b a => is_space2 a b)
    (fun c b a => is_space3 a b c) l.

Definition strip (s : string) : string :=
  string_of_list_ascii
    (rev (rstrip_reversed (rev (lstrip (list_ascii_of_string s))))).

Definition truthy (s : string) : bool :=
  match s with
  | EmptyString => false
  | String _ _ => true
  end.

(** ** [vocode.streaming.models.transcriber.Transcription] *)

Record Transcription : Type := mkTranscription {
  message : string;
  confidence : Z;          (* in hundredths: 0.98 is 98 *)
  is_final : bool
}.

(** ** The [wave] writer over an [io.BytesIO] *)

Module Wave.

Definition nchannels : Z := 1.
Definition sampwidth : Z := 2.
Definition WAVE_FORMAT_PCM : Z := 1.

(** [struct.pack] of an unsigned little-endian integer on [n] bytes. *)
Fixpoint le_bytes (n : nat) (v : Z) : bytes :=
  match n with
  | O => []
  | S k => byte_of_Z v :: le_bytes k (v / 256)
  end.

Definition tag (a b c d : byte) : bytes := [a; b; c; d].

(** [Wave_write._write_header], with the data length as patched by
    [_patchheader]. *)
Definition wav_header (framerate datalength : Z) : bytes :=
  tag "R" "I" "F" "F" ++ le_bytes 4 (36 + datalength)
  ++ tag "W" "A" "V" "E" ++ tag "f" "m" "t" " "
  ++ le_bytes 4 16
  ++ le_bytes 2 WAVE_FORMAT_PCM
  ++ le_bytes 2 nchannels
  ++ le_bytes 4 framerate
  ++ le_bytes 4 (nchannels * framerate * sampwidth)
  ++ le_bytes 2 (nchannels * sampwidth)
  ++ le_bytes 2 (sampwidth * 8)
  ++ tag "d" "a" "t" "a" ++ le_bytes 4 datalength.

(** The pair ([io.BytesIO()], [wave.open(buffer, 'wb')]).  The header is
    written lazily, by the first [writeframes] or by [close]. *)
Record buffer : Type := mkBuffer {
  header_written : bool;
  frames : bytes
}.

Definition fresh : buffer := mkBuffer false [].

Definition writeframes (b : buffer) (data : bytes) : buffer :=
  mkBuffer true (frames b ++ data).

Definition close (b : buffer) : buffer :=
  mkBuffer true (frames b).

(** [audio_buffer.tell()] *)
Definition tell (b : buffer) : Z :=
  if header_written b then 44 + len (frames b) else 0.

(** [audio_buffer.seek(0); audio_buffer.read()] *)
Definition read (framerate : Z) (b : buffer) : bytes :=
  if header_written b then wav_header framerate (len (frames b)) ++ frames b
  else [].

End Wave.

(** ** [pydub.AudioSegment] and [audioop.rms] for 16-bit mono audio *)

Module Audio.

(** One little-endian signed 16-bit sample. *)
Definition sample16 (lo hi : byte) : Z :=
  let u := byte_val lo + 256 * byte_val hi in
  if u <? 32768 then u else u - 65536.

Fixpoint samples (data : bytes) : list Z :=
  match data with
  | lo :: hi :: rest => sample16 lo hi :: samples rest
  | _ => []
  end.

Definition sum_squares (l : list Z) : Z :=
  fold_left (fun acc v => acc + v * v) l 0.

(** [audioop.rms(data, 2)]: the square root of the mean of the squares,
    truncated to an integer; 0 on an empty fragment. *)
Definition audioop_rms (data : bytes) : Z :=
  let n := len data / 2 in
  if n =? 0 then 0 else Z.sqrt (sum_squares (samples data) / n).

(** [AudioSegment(data, frame_rate=..., sample_width=2, channels=1)]: the
    constructor raises [ValueError] ([None] here) when the length is not a
    multiple of [sample_width * channels]. *)
Definition AudioSegment (data : bytes) : option bytes :=
  if len data mod (2 * 1) =? 0 then Some data else None.

(** [audio_segment.rms] *)
Definition rms (segment : bytes) : Z := audioop_rms segment.

End Audio.

(** What one iteration of a processing loop did with its input. *)
Inductive outcome : Type :=
  | Rejected      (* an exception was caught by [except Exception] *)
  | Accumulated   (* the chunk was buffered and classified, no flush *)
  | Flushed       (* the buffer was handed over and reset *)
  | Waited.       (* [queue.Empty], nothing to do *)

Definition is_flush (o : outcome) : bool :=
  match o with
  | Flushed => true
  | _ => false
  end.

(** ** [whisper_cpp_transcriber.py]: class [WhisperCPPTranscriber] *)

Module Whisper.

(** The fields of [VocodeWhisperCPPTranscriberConfig] the loops read, and
    the two values [__init__] derives from them once:
    [chunk_size = int(sampling_rate * chunk_duration * 2)] and
    [max_silence_chunks = int(0.5 / (chunk_size / sampling_rate / 2))]. *)
Record Config : Type := mkConfig {
  sampling_rate : Z;
  chunk_duration : Z;
  chunk_size : Z;
  silence_threshold : Z;
  min_chunk_duration : Z;
  max_silence_chunks : Z
}.

(** The defaults: 16 kHz, 2.0 s chunks, threshold 500, 0.5 s minimum. *)
Definition default_config : Config := mkConfig 16000 2000 64000 500 500 0.

(** One iteration of [_run_loop] (lines 83-90): the new
    [accumulated_audio] and what was put on [audio_queue]. *)
Definition run_loop_iter (cfg : Config) (accumulated_audio : bytes)
    (chunk : bytes) : bytes * list bytes :=
  let accumulated_audio := accumulated_audio ++ chunk in
  if chunk_size cfg <=? len accumulated_audio then
    (py_suffix (chunk_size cfg) accumulated_audio,
     [py_prefix (chunk_size cfg) accumulated_audio])
  else (accumulated_audio, []).

(** The variables of [_process_audio_loop], with the two observation
    logs. *)
Record state : Type := mkState {
  audio_buffer : Wave.buffer;
  buffer_start_time : Z;
  has_speech : bool;
  silence_counter : Z;
  calls : list bytes;
  produced : list Transcription
}.

Definition init (t0 : Z) : state := mkState Wave.fresh t0 false 0 [] [].

(** [_transcribe_buffer] (lines 175-207).  [reply] is what
    [whisper.transcribe_audio_data] answers: [None] when it raises, which
    the function catches and prints. *)
Definition transcribe_buffer (cfg : Config) (st : state)
    (reply : option string) : state :=
  let audio_data := Wave.read (sampling_rate cfg) (Wave.close (audio_buffer st)) in
  if 44 <? len audio_data then
    let called :=
      mkState (audio_buffer st) (buffer_start_time st) (has_speech st)
        (silence_counter st) (calls st ++ [skipn 44 audio_data]) (produced st) in
    match reply with
    | None => called
    | Some text =>
        if truthy text && truthy (strip text) then
          mkState (audio_buffer st) (buffer_start_time st) (has_speech st)
            (silence_counter st) (calls called)
            (produced st ++ [mkTranscription (strip text) 98 true])
        else called
    end
  else st.

(** Lines 125-129: the energy classification and the update of the
    silence state. *)
Definition classify (cfg : Config) (rms : Z) (speech : bool) (counter : Z)
    : bool * Z :=
  if silence_threshold cfg <? rms then (true, 0) else (speech, counter + 1).

(** Lines 135-139. *)
Definition should_process (cfg : Config) (speech : bool) (counter : Z)
    (buffer_duration : Z) : bool :=
  (speech && (max_silence_chunks cfg <=? counter)
          && (min_chunk_duration cfg <=? buffer_duration))
  || (chunk_duration cfg * 2 <=? buffer_duration).

(** The [try] body for a dequeued chunk (lines 109-153).  [now] is the
    clock read on line 132, [later] the one read on line 151. *)
Definition on_chunk (cfg : Config) (st : state) (audio_data : bytes)
    (now later : Z) (reply : option string) : outcome * state :=
  let buf := Wave.writeframes (audio_buffer st) audio_data in
  match Audio.AudioSegment audio_data with
  | None =>
      (Rejected,
       mkState buf (buffer_start_time st) (has_speech st) (silence_counter st)
         (calls st) (produced st))
  | Some audio_segment =>
      let rms := Audio.rms audio_segment in
      let '(speech, counter) :=
        classify cfg rms (has_speech st) (silence_counter st) in
      let buffer_duration := now - buffer_start_time st in
      let written :=
        mkState buf (buffer_start_time st) speech counter (calls st) (produced st) in
      if should_process cfg speech counter buffer_duration && (0 <? Wave.tell buf)
      then
        let sent := transcribe_buffer cfg written reply in
        (Flushed, mkState Wave.fresh later false 0 (calls sent) (produced sent))
      else (Accumulated, written)
  end.

(** The [except queue.Empty] handler (lines 155-167). *)
Definition on_empty (cfg : Config) (st : state) (now later : Z)
    (reply : option string) : outcome * state :=
  if has_speech st && (min_chunk_duration cfg <=? now - buffer_start_time st)
  then
    let sent := transcribe_buffer cfg st reply in
    (Flushed,
     mkState Wave.fresh later false (silence_counter st) (calls sent) (produced sent))
  else (Waited, st).

(** What [audio_queue.get(timeout=0.1)] gives an iteration, with the clock
    readings and the backend's reply for that iteration. *)
Inductive event : Type :=
  | Chunk (audio_data : bytes) (now later : Z) (reply : option string)
  | Empty (now later : Z) (reply : option string).

Definition process_audio_iter (cfg : Config) (st : state) (ev : event)
    : outcome * state :=
  match ev with
  | Chunk audio_data now later reply => on_chunk cfg st audio_data now later reply
  | Empty now later reply => on_empty cfg st now later reply
  end.

(** The loop over a finite prefix of the events. *)
Fixpoint process_audio_loop (cfg : Config) (st : state) (evs : list event)
    : list outcome * state :=
  match evs with
  | [] => ([], st)
  | ev :: rest =>
      let '(o, st1) := process_audio_iter cfg st ev in
      let '(os, st2) := process_audio_loop cfg st1 rest in
      (o :: os, st2)
  end.

(** Producer and consumer around [audio_queue]: [Submit] is an iteration
    of [_run_loop], [Poll] an iteration of [_process_audio_loop], which
    takes the head of the queue or times out on an empty one. *)
Record system : Type := mkSystem {
  accumulated_audio : bytes;
  audio_queue : list bytes;
  consumer : state
}.

Inductive action : Type :=
  | Submit (chunk : bytes)
  | Poll (now later : Z) (reply : option string).

Definition act (cfg : Config) (s : system) (a : action) : system :=
  match a with
  | Submit chunk =>
      let '(acc, put) := run_loop_iter cfg (accumulated_audio s) chunk in
      mkSystem acc (audio_queue s ++ put) (consumer s)
  | Poll now later reply =>
      match audio_queue s with
      | audio_data :: rest =>
          mkSystem (accumulated_audio s) rest
            (snd (on_chunk cfg (consumer s) audio_data now later reply))
      | [] =>
          mkSystem (accumulated_audio s) []
            (snd (on_empty cfg (consumer s) now later reply))
      end
  end.

Definition start (t0 : Z) : system := mkSystem [] [] (init t0).

Definition submitted (a : action) : bytes :=
  match a with
  | Submit chunk => chunk
  | Poll _ _ _ => []
  end.

End Whisper.

(** What [recognizer.recognize_google] does with a buffer. *)
Inductive google_reply : Type :=
  | Recognized (text : string)
  | UnknownValueError
  | RequestError.

(** [if text: self.produce_nonblocking(Transcription(message=text, ...))] *)
Definition produce_if_text (confidence : Z) (r : google_reply)
    (produced : list Transcription) : list Transcription :=
  match r with
  | Recognized text =>
      if truthy text then produced ++ [mkTranscription text confidence true]
      else produced
  | UnknownValueError => produced
  | RequestError => produced
  end.

(** [AudioSegment.from_wav(buffer).raw_data]: the data chunk behind the
    44-byte header. *)
Definition raw_data (framerate : Z) (b : Wave.buffer) : bytes :=
  skipn 44 (Wave.read framerate (Wave.close b)).

(** ** [high_performance_oss_demo.py]: class [OptimizedGoogleSRTranscriber] *)

Module HighPerf.

(** [chunk_size = int(sampling_rate * chunk_duration)] and
    [max_silence_chunks = int(1.0 / chunk_duration)] are derived once by
    [__init__]. *)
Record Config : Type := mkConfig {
  sampling_rate : Z;
  chunk_size : Z;
  energy_threshold : Z;
  max_silence_chunks : Z
}.

(** The defaults: 16 kHz, 0.5 s chunks, threshold 300. *)
Definition default_config : Config := mkConfig 16000 8000 300 2.

(** One iteration of [_run_loop] (lines 88-97): the new [current_buffer]
    and what was put on [audio_queue]. *)
Definition run_loop_iter (cfg : Config) (current_buffer : list bytes)
    (chunk : bytes) : list bytes * list bytes :=
  let current_buffer := current_buffer ++ [chunk] in
  if chunk_size cfg * 2 <=? len current_buffer * len chunk then
    ([], [join current_buffer])
  else (current_buffer, []).

Record state : Type := mkState {
  accumulated_audio : Wave.buffer;
  speech_detected : bool;
  silence_counter : Z;
  calls : list bytes;
  produced : list Transcription
}.

Definition init : state := mkState Wave.fresh false 0 [] [].

(** Lines 131-135. *)
Definition classify (cfg : Config) (rms : Z) (speech : bool) (counter : Z)
    : bool * Z :=
  if energy_threshold cfg <? rms then (true, 0) else (speech, counter + 1).

(** The [try] body for a dequeued chunk (lines 115-180), for a flush
    block in which nothing is raised but the two exceptions it catches;
    [HighPerfExcept.on_chunk] below has the other exceptions as well. *)
Definition on_chunk (cfg : Config) (st : state) (audio_data : bytes)
    (reply : google_reply) : outcome * state :=
  let buf := Wave.writeframes (accumulated_audio st) audio_data in
  match Audio.AudioSegment audio_data with
  | None =>
      (Rejected,
       mkState buf (speech_detected st) (silence_counter st) (calls st) (produced st))
  | Some audio_segment =>
      let rms := Audio.rms audio_segment in
      let '(speech, counter) :=
        classify cfg rms (speech_detected st) (silence_counter st) in
      if speech && (max_silence_chunks cfg <=? counter) then
        (Flushed,
         mkState Wave.fresh false 0
           (calls st ++ [raw_data (sampling_rate cfg) buf])
           (produce_if_text 95 reply (produced st)))
      else (Accumulated, mkState buf speech counter (calls st) (produced st))
  end.

(** [except queue.Empty: continue] (lines 182-183). *)
Definition on_empty (st : state) : outcome * state := (Waited, st).

Inductive event : Type :=
  | Chunk (audio_data : bytes) (reply : google_reply)
  | Empty.

Definition process_audio_iter (cfg : Config) (st : state) (ev : event)
    : outcome * state :=
  match ev with
  | Chunk audio_data reply => on_chunk cfg st audio_data reply
  | Empty => on_empty st
  end.

Fixpoint process_audio_loop (cfg : Config) (st : state) (evs : list event)
    : list outcome * state :=
  match evs with
  | [] => ([], st)
  | ev :: rest =>
      let '(o, st1) := process_audio_iter cfg st ev in
      let '(os, st2) := process_audio_loop cfg st1 rest in
      (o :: os, st2)
  end.

Record system : Type := mkSystem {
  current_buffer : list bytes;
  audio_queue : list bytes;
  consumer : state
}.

Inductive action : Type :=
  | Submit (chunk : bytes)
  | Poll (reply : google_reply).

Definition act (cfg : Config) (s : system) (a : action) : system :=
  match a with
  | Submit chunk =>
      let '(cur, put) := run_loop_iter cfg (current_buffer s) chunk in
      mkSystem cur (audio_queue s ++ put) (consumer s)
  | Poll reply =>
      match audio_queue s with
      | audio_data :: rest =>
          mkSystem (current_buffer s) rest
            (snd (on_chunk cfg (consumer s) audio_data reply))
      | [] => mkSystem (current_buffer s) [] (snd (on_empty (consumer s)))
      end
  end.

Definition start : system := mkSystem [] [] init.

Definition submitted (a : action) : bytes :=
  match a with
  | Submit chunk => chunk
  | Poll _ => []
  end.

End HighPerf.

(** ** [OptimizedGoogleSRTranscriber._process_audio_loop] with every exception

    The flush block (lines 137-180) catches [sr.UnknownValueError] and
    [sr.RequestError] only.  Whatever else is raised between
    [wav_writer.close()] and the return of [recognize_google] reaches the
    handler of line 184: the reset of lines 173-180 is skipped, so the
    writer stays closed and [speech_detected] and the counter keep their
    values.  [writeframes] raises on a closed writer, so from then on every
    chunk ends in that handler before anything is written.
    [HighPerf.on_chunk] is this loop for flushes in which nothing else is
    raised. *)

Module HighPerfExcept.

(** How the flush block ends: [recognize_google] answers, with a text or
    with one of the two exceptions that are caught, or something else is
    raised, after [recognize_google] was called or before. *)
Inductive flush_end : Type :=
  | Answers (reply : google_reply)
  | Raises (called : bool).

Record state : Type := mkState {
  inner : HighPerf.state;
  writer_closed : bool
}.

Definition init : state := mkState HighPerf.init false.

(** The [try] body for a dequeued chunk (lines 115-180) and the handler
    of line 184. *)
Definition on_chunk (cfg : HighPerf.Config) (st : state) (audio_data : bytes)
    (fe : flush_end) : outcome * state :=
  if writer_closed st then (Rejected, st)
  else
    let s := inner st in
    let buf := Wave.writeframes (HighPerf.accumulated_audio s) audio_data in
    match Audio.AudioSegment audio_data with
    | None =>
        (Rejected,
         mkState
           (HighPerf.mkState buf (HighPerf.speech_detected s)
              (HighPerf.silence_counter s) (HighPerf.calls s) (HighPerf.produced s))
           false)
    | Some audio_segment =>
        let rms := Audio.rms audio_segment in
        let '(speech, counter) :=
          HighPerf.classify cfg rms (HighPerf.speech_detected s)
            (HighPerf.silence_counter s) in
        if speech && (HighPerf.max_silence_chunks cfg <=? counter) then
          match fe with
          | Answers reply =>
              (Flushed,
               mkState
                 (HighPerf.mkState Wave.fresh false 0
                    (HighPerf.calls s
                     ++ [raw_data (HighPerf.sampling_rate cfg) buf])
                    (produce_if_text 95 reply (HighPerf.produced s)))
                 false)
          | Raises called =>
              (Rejected,
               mkState
                 (HighPerf.mkState (Wave.close buf) speech counter
                    (if called
                     then HighPerf.calls s
                          ++ [raw_data (HighPerf.sampling_rate cfg) buf]
                     else HighPerf.calls s)
                    (HighPerf.produced s))
                 true)
          end
        else
          (Accumulated,
           mkState
             (HighPerf.mkState buf speech counter (HighPerf.calls s)
                (HighPerf.produced s))
             false)
    end.

(** [except queue.Empty: continue] (lines 182-183). *)
Definition on_empty (st : state) : outcome * state := (Waited, st).

Inductive event : Type :=
  | Chunk (audio_data : bytes) (fe : flush_end)
  | Empty.

Definition process_audio_iter (cfg : HighPerf.Config) (st : state) (ev : event)
    : outcome * state :=
  match ev with
  | Chunk audio_data fe => on_chunk cfg st audio_data fe
  | Empty => on_empty st
  end.

Fixpoint process_audio_loop (cfg : HighPerf.Config) (st : state)
    (evs : list event) : list outcome * state :=
  match evs with
  | [] => ([], st)
  | ev :: rest =>
      let '(o, st1) := process_audio_iter cfg st ev in
      let '(os, st2) := process_audio_loop cfg st1 rest in
      (o :: os, st2)
  end.

(** Nothing unexpected is raised on this event. *)
Definition answered (ev : event) : Prop :=
  match ev with
  | Chunk _ (Raises _) => False
  | _ => True
  end.

(** The event with an exception that is not expected taken for one that
    is: what [HighPerf.process_audio_iter] is given. *)
Definition expected (ev : event) : HighPerf.event :=
  match ev with
  | Chunk audio_data (Answers reply) => HighPerf.Chunk audio_data reply
  | Chunk audio_data (Raises _) => HighPerf.Chunk audio_data RequestError
  | Empty => HighPerf.Empty
  end.

End HighPerfExcept.

(** ** [google_sr_transcriber.py]: class [GoogleSRTranscriber] *)

Module GoogleSR.

Record Config : Type := mkConfig {
  sampling_rate : Z
}.

(** [self.buffer_size = int(transcriber_config.sampling_rate * 2)] *)
Definition buffer_size (cfg : Config) : Z := sampling_rate cfg * 2.

Record state : Type := mkState {
  audio_buffer : Wave.buffer;
  calls : list bytes;
  produced : list Transcription
}.

Definition init : state := mkState Wave.fresh [] [].

(** [_process_audio] (lines 63-110); the [finally] clause resets the
    buffer. *)
Definition process_audio (cfg : Config) (st : state) (reply : google_reply)
    : state :=
  mkState Wave.fresh
    (calls st ++ [raw_data (sampling_rate cfg) (audio_buffer st)])
    (produce_if_text 90 reply (produced st)).

(** One iteration of [_run_loop] (lines 50-58). *)
Definition run_loop_iter (cfg : Config) (st : state) (chunk : bytes)
    (reply : google_reply) : outcome * state :=
  let buf := Wave.writeframes (audio_buffer st) chunk in
  let written := mkState buf (calls st) (produced st) in
  if buffer_size cfg <=? Wave.tell buf then
    (Flushed, process_audio cfg written reply)
  else (Accumulated, written).

End GoogleSR.

(** ** The loops as threads with a stop flag

    Each loop has the shape
    [while not self._ended: try: x = q.get(...); body except ...].
    A thread is either inside [get] or has left the loop; the guard is
    evaluated when the loop is entered and after every iteration.  While
    the thread waits, an item can be delivered, a poll interval can elapse
    with the queue still empty, or [terminate()] can set the flag.  The
    timed steps at the end of the module also place a [terminate()] that
    is called while the body runs. *)

Module Shutdown.

Inductive position : Type :=
  | InGet
  | Exited.

Record thread (S : Type) : Type := mkThread {
  ended : bool;
  position_of : position;
  locals : S
}.

Arguments mkThread {S}.
Arguments ended {S}.
Arguments position_of {S}.
Arguments locals {S}.

Inductive input (I E : Type) : Type :=
  | Item (i : I)
  | Elapsed (e : E)
  | Terminate.

Arguments Item {I E}.
Arguments Elapsed {I E}.
Arguments Terminate {I E}.

(** A loop: the [timeout] argument of its [get] ([None] when the call has
    none), its body and its [except queue.Empty] handler.  [terminate()]
    does more than set the flag: it closes objects the body works with, so
    body and handler are told whether [terminate()] has been called.
    [waits_backend terminated s s'] tells whether the iteration that takes
    the locals from [s] to [s'] waits for the recognition backend. *)
Record loop (S I E : Type) : Type := mkLoop {
  timeout : option Z;
  on_item : bool -> S -> I -> S;
  on_timeout : bool -> S -> E -> S;
  waits_backend : bool -> S -> S -> bool
}.

Arguments mkLoop {S I E}.
Arguments timeout {S I E}.
Arguments on_item {S I E}.
Arguments on_timeout {S I E}.
Arguments waits_backend {S I E}.

(** [while not self._ended] *)
Definition guard (flag : bool) : position :=
  if flag then Exited else InGet.

Definition spawn {S : Type} (flag : bool) (s : S) : thread S :=
  mkThread flag (guard flag) s.

Definition step {S I E : Type} (L : loop S I E) (th : thread S)
    (x : input I E) : thread S :=
  match position_of th with
  | Exited => th
  | InGet =>
      match x with
      | Terminate => mkThread true InGet (locals th)
      | Item i =>
          mkThread (ended th) (guard (ended th))
            (on_item L (ended th) (locals th) i)
      | Elapsed e =>
          match timeout L with
          | Some _ =>
              mkThread (ended th) (guard (ended th))
                (on_timeout L (ended th) (locals th) e)
          | None => th
          end
      end
  end.

Definition run {S I E : Type} (L : loop S I E) (th : thread S)
    (xs : list (input I E)) : thread S :=
  fold_left (step L) xs th.

(** Clock readings and backend reply of an iteration. *)
Definition readings : Type := (Z * Z * option string)%type.

(** [WhisperCPPTranscriber._process_audio_loop]:
    [self.audio_queue.get(timeout=0.1)].  [terminate()] (lines 209-213)
    calls [self.whisper.close()], which shuts the wrapper's executor down:
    [run_in_executor] then raises in [transcribe_audio_data], and
    [_transcribe_buffer] catches it, so a flush begun after [terminate()]
    neither waits for whisper-cpp nor obtains a text. *)
Definition whisper_process_audio_loop (cfg : Whisper.Config)
    : loop Whisper.state (bytes * readings) readings :=
  mkLoop (Some 100)
    (fun terminated st '(audio_data, (now, later, reply)) =>
       snd (Whisper.on_chunk cfg st audio_data now later
              (if terminated then None else reply)))
    (fun terminated st '(now, later, reply) =>
       snd (Whisper.on_empty cfg st now later
              (if terminated then None else reply)))
    (fun terminated st st' =>
       negb terminated
       && (List.length (Whisper.calls st) <? List.length (Whisper.calls st'))%nat).

(** [WhisperCPPTranscriber._run_loop]:
    [self.input_janus_queue.sync_q.get()]. *)
Definition whisper_run_loop (cfg : Whisper.Config)
    : loop (bytes * list bytes) bytes unit :=
  mkLoop None
    (fun _ '(acc, queue) chunk =>
       let '(acc1, put) := Whisper.run_loop_iter cfg acc chunk in
       (acc1, queue ++ put))
    (fun _ s _ => s)
    (fun _ _ _ => false).

(** [OptimizedGoogleSRTranscriber._process_audio_loop]:
    [self.audio_queue.get(timeout=0.1)], for flushes in which nothing
    unexpected is raised.  [terminate()] (lines 190-193) shuts down an
    executor the loop does not use: [recognize_google] is called in the
    loop's own thread. *)
Definition highperf_process_audio_loop (cfg : HighPerf.Config)
    : loop HighPerf.state (bytes * google_reply) unit :=
  mkLoop (Some 100)
    (fun _ st '(audio_data, reply) =>
       snd (HighPerf.on_chunk cfg st audio_data reply))
    (fun _ st _ => snd (HighPerf.on_empty st))
    (fun _ st st' =>
       (List.length (HighPerf.calls st) <? List.length (HighPerf.calls st'))%nat).

(** The same loop with every exception. *)
Definition highperf_except_process_audio_loop (cfg : HighPerf.Config)
    : loop HighPerfExcept.state (bytes * HighPerfExcept.flush_end) unit :=
  mkLoop (Some 100)
    (fun _ st '(audio_data, fe) =>
       snd (HighPerfExcept.on_chunk cfg st audio_data fe))
    (fun _ st _ => snd (HighPerfExcept.on_empty st))
    (fun _ st st' =>
       (List.length (HighPerf.calls (HighPerfExcept.inner st))
        <? List.length (HighPerf.calls (HighPerfExcept.inner st')))%nat).

(** [OptimizedGoogleSRTranscriber._run_loop]:
    [self.input_janus_queue.sync_q.get()]. *)
Definition highperf_run_loop (cfg : HighPerf.Config)
    : loop (list bytes * list bytes) bytes unit :=
  mkLoop None
    (fun _ '(cur, queue) chunk =>
       let '(cur1, put) := HighPerf.run_loop_iter cfg cur chunk in
       (cur1, queue ++ put))
    (fun _ s _ => s)
    (fun _ _ _ => false).

(** [GoogleSRTranscriber._run_loop]:
    [self.input_janus_queue.sync_q.get()].  [terminate()] (lines 112-116)
    closes [self.wav_writer]; [writeframes] raises on the closed writer
    and the handler of line 60 catches it, so a chunk dequeued after
    [terminate()] is dropped before anything is written. *)
Definition google_run_loop (cfg : GoogleSR.Config)
    : loop GoogleSR.state (bytes * google_reply) unit :=
  mkLoop None
    (fun terminated st '(chunk, reply) =>
       if terminated then st
       else snd (GoogleSR.run_loop_iter cfg st chunk reply))
    (fun _ s _ => s)
    (fun _ st st' =>
       (List.length (GoogleSR.calls st) <? List.length (GoogleSR.calls st'))%nat).

(** The wait of the loop always returns within its poll interval. *)
Definition bounded_wait {S I E : Type} (L : loop S I E) : Prop :=
  exists t : Z, timeout L = Some t.

(** Once the flag is set, the loop is left as soon as the current wait is
    over, whether an item came or the poll interval elapsed. *)
Definition bounded_shutdown {S I E : Type} (L : loop S I E) : Prop :=
  forall (th : thread S) (x : input I E),
    ended th = true -> x <> Terminate -> position_of (step L th x) = Exited.

(** *** Time

    Times are in milliseconds.  A thread spends time waiting in [get] and
    waiting for the recognition backend, which the body calls
    synchronously ([asyncio.run(self._transcribe_buffer(...))],
    [self.recognizer.recognize_google(...)]); the rest of the body is not
    counted.  An input comes with the time [at_time] at which the item is
    put on the queue or [terminate()] is called, and with the time
    [backend_time] the backend takes if the iteration waits for it. *)
Record timed_input (I E : Type) : Type := mkTimedInput {
  what : input I E;
  at_time : Z;
  backend_time : Z
}.

Arguments mkTimedInput {I E}.
Arguments what {I E}.
Arguments at_time {I E}.
Arguments backend_time {I E}.

(** A thread and the time [since] at which it called [get] for the wait
    it is in or, once it has left the loop, at which it left. *)
Record timed_thread (S : Type) : Type := mkTimedThread {
  since : Z;
  thread_of : thread S
}.

Arguments mkTimedThread {S}.
Arguments since {S}.
Arguments thread_of {S}.

(** When [get] returns or raises [queue.Empty]: an item that is already
    queued is taken at once. *)
Definition wait_end {S I E : Type} (L : loop S I E) (tth : timed_thread S)
    (x : timed_input I E) : Z :=
  match what x with
  | Item _ => Z.max (since tth) (at_time x)
  | Elapsed _ =>
      match timeout L with
      | Some t => since tth + t
      | None => since tth
      end
  | Terminate => since tth
  end.

(** The time the iteration from [th] to [th'] waits for the backend. *)
Definition busy {S I E : Type} (L : loop S I E) (th th' : thread S)
    (backend : Z) : Z :=
  if waits_backend L (ended th) (locals th) (locals th') then backend else 0.

(** A [terminate()] called before the wait began was called while the
    body of the previous iteration was running (or before the loop was
    entered): the guard evaluated at [since] has seen the flag. *)
Definition timed_step {S I E : Type} (L : loop S I E) (tth : timed_thread S)
    (x : timed_input I E) : timed_thread S :=
  let th := thread_of tth in
  match position_of th with
  | Exited => tth
  | InGet =>
      match what x with
      | Terminate =>
          if at_time x <? since tth
          then mkTimedThread (since tth) (mkThread true Exited (locals th))
          else mkTimedThread (since tth) (step L th Terminate)
      | Item _ =>
          let th' := step L th (what x) in
          mkTimedThread (wait_end L tth x + busy L th th' (backend_time x)) th'
      | Elapsed _ =>
          match timeout L with
          | Some _ =>
              let th' := step L th (what x) in
              mkTimedThread (wait_end L tth x + busy L th th' (backend_time x)) th'
          | None => tth
          end
      end
  end.

Definition timed_run {S I E : Type} (L : loop S I E) (tth : timed_thread S)
    (xs : list (timed_input I E)) : timed_thread S :=
  fold_left (timed_step L) xs tth.

Definition terminate_at {I E : Type} (T : Z) : timed_input I E :=
  mkTimedInput Terminate T 0.

(** The thread is in [get] at time [T]: the wait has begun and, if [get]
    has a timeout, has not expired. *)
Definition in_wait {S I E : Type} (L : loop S I E) (tth : timed_thread S)
    (T : Z) : Prop :=
  position_of (thread_of tth) = InGet /\ since tth <= T
  /\ (forall t, timeout L = Some t -> T < since tth + t).

(** [x] can end the wait of [tth]: it is an item that comes before the
    timeout of [get], if there is one, expires, or it is that timeout. *)
Definition ends_wait {S I E : Type} (L : loop S I E) (tth : timed_thread S)
    (x : timed_input I E) : Prop :=
  what x <> Terminate /\ 0 <= backend_time x
  /\ (forall t i, timeout L = Some t -> what x = Item i ->
        at_time x < since tth + t).

End Shutdown.

(** ** Reference descriptions used to state the properties *)

(** What a flush hands to the backend: the buffered frames as one unit,
    nothing when there are none. *)
Definition payloads (frames : bytes) : list bytes :=
  match frames with
  | [] => []
  | _ :: _ => [frames]
  end.

(** The utterances as the specification describes them: chunks are
    concatenated in arrival order, and every flush closes the current
    utterance.  [cut pending trace] gives the closed utterances and the
    bytes still pending after [trace], which pairs every iteration's
    outcome with the chunk it dequeued (empty on a timeout). *)
Fixpoint cut (pending : bytes) (trace : list (outcome * bytes))
    : list bytes * bytes :=
  match trace with
  | [] => ([], pending)
  | (o, chunk) :: rest =>
      if is_flush o then
        let '(closed, last) := cut [] rest in
        ((pending ++ chunk) :: closed, last)
      else cut (pending ++ chunk) rest
  end.

Definition nonempty (b : bytes) : bool :=
  match b with
  | [] => false
  | _ :: _ => true
  end.

(** A chunk of [count] samples, all with the bytes [lo], [hi]. *)
Definition tone (count : nat) (lo hi : byte) : bytes :=
  List.concat (repeat [lo; hi] count).

(** An event that carries no speech: a timeout, or a well-formed chunk
    whose RMS is below the threshold. *)
Definition whisper_quiet (cfg : Whisper.Config) (ev : Whisper.event) : Prop :=
  match ev with
  | Whisper.Chunk audio_data _ _ _ =>
      len audio_data mod 2 = 0 /\ Audio.rms audio_data < Whisper.silence_threshold cfg
  | Whisper.Empty _ _ _ => True
  end.

Definition highperf_quiet (cfg : HighPerf.Config) (ev : HighPerf.event) : Prop :=
  match ev with
  | HighPerf.Chunk audio_data _ =>
      len audio_data mod 2 = 0 /\ Audio.rms audio_data < HighPerf.energy_threshold cfg
  | HighPerf.Empty => True
  end.

(** The duration, in milliseconds, of 16-bit mono PCM audio. *)
Definition audio_duration (sampling_rate : Z) (frames : bytes) : Z :=
  len frames * 1000 / (2 * sampling_rate).

(** The event is a chunk processed when the time since the buffer was
    opened has reached the cap [chunk_duration * 2]. *)
Definition whisper_at_cap (cfg : Whisper.Config) (st : Whisper.state)
    (ev : Whisper.event) : bool :=
  match ev with
  | Whisper.Chunk _ now _ _ =>
      Whisper.chunk_duration cfg * 2 <=? now - Whisper.buffer_start_time st
  | Whisper.Empty _ _ _ => false
  end.

(** The chunk an iteration dequeued, empty on a timeout. *)
Definition whisper_dequeued (ev : Whisper.event) : bytes :=
  match ev with
  | Whisper.Chunk audio_data _ _ _ => audio_data
  | Whisper.Empty _ _ _ => []
  end.

Definition highperf_dequeued (ev : HighPerf.event) : bytes :=
  match ev with
  | HighPerf.Chunk audio_data _ => audio_data
  | HighPerf.Empty => []
  end.

(** All the bytes inside a system, oldest first: handed to the backend,
    buffered by the consumer, queued, and still with the producer. *)
Definition whisper_stream (s : Whisper.system) : bytes :=
  join (Whisper.calls (Whisper.consumer s))
  ++ Wave.frames (Whisper.audio_buffer (Whisper.consumer s))
  ++ join (Whisper.audio_queue s)
  ++ Whisper.accumulated_audio s.


(** Two consumer states that differ at most in [silence_counter], and
    only while no speech has been seen. *)
Definition agree_but_idle_counter (a b : Whisper.state) : Prop :=
  Whisper.audio_buffer a = Whisper.audio_buffer b /\
  Whisper.buffer_start_time a = Whisper.buffer_start_time b /\
  Whisper.has_speech a = Whisper.has_speech b /\
  Whisper.calls a = Whisper.calls b /\
  Whisper.produced a = Whisper.produced b /\
  (Whisper.has_speech a = true ->
   Whisper.silence_counter a = Whisper.silence_counter b).

(** A [Transcription] as the public output must have it. *)
Definition final_nonempty (t : Transcription) : Prop :=
  is_final t = true /\ message t <> EmptyString.

(** ** The loops over their whole input *)

(** [GoogleSRTranscriber._run_loop] over a finite prefix of its input:
    every chunk comes with what [recognize_google] would answer if the
    iteration flushes. *)
Fixpoint google_run_loop_trace (cfg : GoogleSR.Config) (st : GoogleSR.state)
    (inputs : list (bytes * google_reply)) : list outcome * GoogleSR.state :=
  match inputs with
  | [] => ([], st)
  | (chunk, reply) :: rest =>
      let '(o, st1) := GoogleSR.run_loop_iter cfg st chunk reply in
      let '(os, st2) := google_run_loop_trace cfg st1 rest in
      (o :: os, st2)
  end.

(** The texts that reach the output: one for every flush whose reply is a
    nonempty recognised text, in order. *)
Fixpoint recognized_texts (trace : list (outcome * google_reply)) : list string :=
  match trace with
  | [] => []
  | (Flushed, Recognized text) :: rest =>
      if truthy text then text :: recognized_texts rest
      else recognized_texts rest
  | _ :: rest => recognized_texts rest
  end.

Definition highperf_reply (ev : HighPerf.event) : google_reply :=
  match ev with
  | HighPerf.Chunk _ reply => reply
  | HighPerf.Empty => UnknownValueError
  end.

(** A well-formed chunk the adapters classify as speech, and one they
    classify as silence. *)
Definition highperf_loud_chunk (cfg : HighPerf.Config) (ev : HighPerf.event)
    : Prop :=
  match ev with
  | HighPerf.Chunk audio_data _ =>
      len audio_data mod 2 = 0 /\ HighPerf.energy_threshold cfg < Audio.rms audio_data
  | HighPerf.Empty => False
  end.

Definition highperf_silent_chunk (cfg : HighPerf.Config) (ev : HighPerf.event)
    : Prop :=
  match ev with
  | HighPerf.Chunk audio_data _ =>
      len audio_data mod 2 = 0 /\ Audio.rms audio_data <= HighPerf.energy_threshold cfg
  | HighPerf.Empty => False
  end.

Definition whisper_loud_chunk (cfg : Whisper.Config) (ev : Whisper.event)
    : Prop :=
  match ev with
  | Whisper.Chunk audio_data _ _ _ =>
      len audio_data mod 2 = 0 /\ Whisper.silence_threshold cfg < Audio.rms audio_data
  | Whisper.Empty _ _ _ => False
  end.

Definition whisper_silent_chunk (cfg : Whisper.Config) (ev : Whisper.event)
    : Prop :=
  match ev with
  | Whisper.Chunk audio_data _ _ _ =>
      len audio_data mod 2 = 0 /\ Audio.rms audio_data <= Whisper.silence_threshold cfg
  | Whisper.Empty _ _ _ => False
  end.

(** The two clock readings of an iteration. *)
Definition whisper_now (ev : Whisper.event) : Z :=
  match ev with
  | Whisper.Chunk _ now _ _ => now
  | Whisper.Empty now _ _ => now
  end.

Definition whisper_later (ev : Whisper.event) : Z :=
  match ev with
  | Whisper.Chunk _ _ later _ => later
  | Whisper.Empty _ later _ => later
  end.

(** ** More of Python's [str] *)

(** [s.split('\n')] *)
Fixpoint split_lines (s : string) : list string :=
  match s with
  | EmptyString => [EmptyString]
  | String c rest =>
      if Ascii.eqb c "010"%char then EmptyString :: split_lines rest
      else
        match split_lines rest with
        | line :: lines => String c line :: lines
        | [] => [String c EmptyString]
        end
  end.

(** [needle in s] *)
Fixpoint contains (needle s : string) : bool :=
  String.prefix needle s
  || match s with
     | EmptyString => false
     | String _ rest => contains needle rest
     end.

(** [s.lower()] as the tests for ["goodbye"] and ["bye"] see it: the
    ASCII letters are mapped.  Python also maps letters outside ASCII;
    their lower-case forms contain no ASCII letter but [i] (for U+0130)
    and [k] (for U+212A), so these tests cannot tell the difference. *)
Definition lower_ascii (c : ascii) : ascii :=
  let n := nat_of_ascii c in
  if ((65 <=? n) && (n <=? 90))%nat then ascii_of_nat (n + 32) else c.

Fixpoint lower (s : string) : string :=
  match s with
  | EmptyString => EmptyString
  | String c rest => String (lower_ascii c) (lower rest)
  end.

(** ** [whisper_cpp_wrapper.py]: class [WhisperCPPWrapper] *)

Module WhisperCPPWrapper.

Definition possible_paths : list string :=
  ["/Users/yuki/vocode-core/models/ggml-base.bin"%string;
   "models/ggml-base.bin"%string;
   "../models/ggml-base.bin"%string].

Inductive init_result : Type :=
  | Initialized (model_path whisper_cpp_path : string)
  | FileNotFoundError.

(** [__init__] (lines 21-58).  [path_exists p] is [Path(p).exists()];
    [model_path] is [None] when the argument is [None]. *)
Definition init (path_exists : string -> bool) (model_path : option string)
    (whisper_cpp_path : string) : init_result :=
  let chosen :=
    match model_path with
    | Some given =>
        if truthy given then Some given else find path_exists possible_paths
    | None => find path_exists possible_paths
    end in
  match chosen with
  | None => FileNotFoundError
  | Some model =>
      if path_exists whisper_cpp_path then Initialized model whisper_cpp_path
      else FileNotFoundError
  end.

(** [subprocess.run(cmd, capture_output=True, text=True, check=True)]: it
    completes with the standard output, or raises a [CalledProcessError]
    [e], of which [transcribe_file] prints [e.stderr] and keeps [str(e)]. *)
Inductive process_result : Type :=
  | Completed (stdout : string)
  | CalledProcessError (str_e stderr : string).

Section Transcribe.

(** [json.loads]: [J] is a decoded object, [None] stands for
    [JSONDecodeError]; [text_member j] is [j.get("text", "")] when that is
    a string, and [None] when it is a value [_transcribe_buffer] cannot
    [strip()]. *)
Variable J : Type.
Variable json_loads : string -> option J.
Variable text_member : J -> option string.

(** What [transcribe_file] returns. *)
Inductive file_result : Type :=
  | JsonResult (j : J)
  | TextResult (text language : string)
  | ErrorResult (error : string).

(** [line.strip().startswith('{')] *)
Definition json_candidate (line : string) : bool :=
  String.prefix "{"%string (strip line).

(** The [for line in output_lines] loop (lines 88-94). *)
Fixpoint first_json (output_lines : list string) : option J :=
  match output_lines with
  | [] => None
  | line :: rest =>
      if json_candidate line then
        match json_loads line with
        | Some j => Some j
        | None => first_json rest
        end
      else first_json rest
  end.

(** [transcribe_file] (lines 60-104), given how whisper-cpp ended. *)
Definition transcribe_file (language : string) (run : process_result)
    : file_result :=
  match run with
  | Completed stdout =>
      match first_json (split_lines (strip stdout)) with
      | Some j => JsonResult j
      | None => TextResult (strip stdout) language
      end
  | CalledProcessError str_e _ => ErrorResult str_e
  end.

(** [transcribe_audio_data] (lines 106-129): [result.get("text", "")]. *)
Definition transcribe_audio_data (language : string) (run : process_result)
    : option string :=
  match transcribe_file language run with
  | JsonResult j => text_member j
  | TextResult text _ => Some text
  | ErrorResult _ => Some EmptyString
  end.

End Transcribe.

End WhisperCPPWrapper.

(** ** [japanese_voice_demo.py] *)

Module JapaneseVoiceDemo.

Definition model_paths : list string :=
  ["/Users/yuki/vocode-core/models/ggml-base.bin"%string;
   "models/ggml-base.bin"%string].

(** [check_whisper_model] (lines 33-50) *)
Definition check_whisper_model (path_exists : string -> bool) : option string :=
  find path_exists model_paths.

Definition whisper_path : string := "/opt/homebrew/bin/whisper-cpp"%string.

(** [test_system] (lines 143-170); [devices_ok] tells whether
    [sounddevice.query_devices()] returns. *)
Definition test_system (path_exists : string -> bool) (devices_ok : bool)
    : bool :=
  if path_exists whisper_path then
    match check_whisper_model path_exists with
    | Some model => if truthy model then devices_ok else false
    | None => false
    end
  else false.

End JapaneseVoiceDemo.

(** ** [oss_turn_based_demo.py] *)

Module TurnBased.

(** What [recognizer.listen] and then [recognize_google] do. *)
Inductive listen_result : Type :=
  | Heard (reply : google_reply)
  | WaitTimeoutError.

(** [record_audio] (lines 24-47) *)
Definition record_audio (l : listen_result) : option string :=
  match l with
  | Heard (Recognized text) => Some text
  | Heard UnknownValueError => None
  | Heard RequestError => None
  | WaitTimeoutError => None
  end.

Inductive turn_result : Type :=
  | Retry
  | Goodbye (spoken : string)
  | Reply (spoken : string).

(** One pass of the [while True] loop of [main] (lines 108-131); [agent]
    is [agent.respond] when an API key is set, [None] in echo mode. *)
Definition turn (agent : option (string -> string)) (l : listen_result)
    : turn_result :=
  match record_audio l with
  | Some user_text =>
      if truthy user_text then
        if contains "goodbye"%string (lower user_text)
           || contains "bye"%string (lower user_text)
        then Goodbye "Goodbye! It was nice talking with you."%string
        else
          Reply (match agent with
                 | Some respond => respond user_text
                 | None => String.append "You said: "%string user_text
                 end)
      else Retry
  | None => Retry
  end.

End TurnBased.

(** * Properties *)

(** ** Lists, slices and the WAV buffer *)

Lemma len_nonneg {A : Type} (l : list A) : 0 <= len l.
Proof. unfold len. lia. Qed.

Lemma len_app {A : Type} (l1 l2 : list A) : len (l1 ++ l2) = len l1 + len l2.
Proof. unfold len. rewrite length_app. lia. Qed.

Lemma len_nil_iff {A : Type} (l : list A) : len l = 0 <-> l = [].
Proof.
  unfold len. destruct l as [|x l]; simpl; split; intro H;
    try reflexivity; try discriminate; lia.
Qed.

Lemma py_prefix_suffix {A : Type} (k : Z) (l : list A) :
  py_prefix k l ++ py_suffix k l = l.
Proof. unfold py_prefix, py_suffix. apply firstn_skipn. Qed.

Lemma py_prefix_len {A : Type} (k : Z) (l : list A) :
  0 <= k -> k <= len l -> len (py_prefix k l) = k.
Proof.
  intros H0 Hk. unfold py_prefix, slice_index, len in *.
  destruct (Z.ltb_spec k 0) as [Hneg|_]; [lia|].
  rewrite length_firstn. lia.
Qed.

Lemma join_app (l1 l2 : list bytes) : join (l1 ++ l2) = join l1 ++ join l2.
Proof. unfold join. apply concat_app. Qed.

Lemma wav_header_length (framerate datalength : Z) :
  List.length (Wave.wav_header framerate datalength) = 44%nat.
Proof. reflexivity. Qed.

Lemma read_close (framerate : Z) (b : Wave.buffer) :
  Wave.read framerate (Wave.close b)
  = Wave.wav_header framerate (len (Wave.frames b)) ++ Wave.frames b.
Proof. reflexivity. Qed.

Lemma len_read_close (framerate : Z) (b : Wave.buffer) :
  len (Wave.read framerate (Wave.close b)) = 44 + len (Wave.frames b).
Proof.
  rewrite read_close, len_app. unfold len at 1.
  rewrite wav_header_length. lia.
Qed.

Lemma raw_data_frames (framerate : Z) (b : Wave.buffer) :
  raw_data framerate b = Wave.frames b.
Proof.
  unfold raw_data. rewrite read_close.
  rewrite skipn_app, wav_header_length. simpl Nat.sub.
  rewrite skipn_all2 by (rewrite wav_header_length; lia).
  reflexivity.
Qed.

Lemma tell_writeframes (b : Wave.buffer) (data : bytes) :
  Wave.tell (Wave.writeframes b data) = 44 + len (Wave.frames b) + len data.
Proof.
  unfold Wave.tell, Wave.writeframes. cbn [Wave.header_written Wave.frames].
  rewrite len_app. lia.
Qed.

Lemma tell_writeframes_pos (b : Wave.buffer) (data : bytes) :
  (0 <? Wave.tell (Wave.writeframes b data)) = true.
Proof.
  rewrite tell_writeframes. apply Z.ltb_lt.
  pose proof (len_nonneg (Wave.frames b)). pose proof (len_nonneg data). lia.
Qed.

Lemma tell_fresh : Wave.tell Wave.fresh = 0.
Proof. reflexivity. Qed.

(** ** [AudioSegment] and the energy measure *)

Lemma AudioSegment_even (data : bytes) :
  len data mod 2 = 0 -> Audio.AudioSegment data = Some data.
Proof.
  intro H. unfold Audio.AudioSegment. change (2 * 1) with 2.
  rewrite H. reflexivity.
Qed.

Lemma AudioSegment_odd (data : bytes) :
  len data mod 2 <> 0 -> Audio.AudioSegment data = None.
Proof.
  intro H. unfold Audio.AudioSegment. change (2 * 1) with 2.
  destruct (Z.eqb_spec (len data mod 2) 0); [contradiction|reflexivity].
Qed.

Lemma AudioSegment_some (data seg : bytes) :
  Audio.AudioSegment data = Some seg -> seg = data /\ len data mod 2 = 0.
Proof.
  unfold Audio.AudioSegment. change (2 * 1) with 2.
  destruct (Z.eqb_spec (len data mod 2) 0); intro H; [|discriminate].
  injection H as <-. auto.
Qed.




(** ** The whisper.cpp consumer, step by step *)

Lemma payloads_filter (frames : bytes) :
  payloads frames = filter nonempty [frames].
Proof. destruct frames; reflexivity. Qed.

Lemma whisper_transcribe_locals (cfg : Whisper.Config) (st : Whisper.state)
    (reply : option string) :
  let st' := Whisper.transcribe_buffer cfg st reply in
  Whisper.audio_buffer st' = Whisper.audio_buffer st /\
  Whisper.buffer_start_time st' = Whisper.buffer_start_time st /\
  Whisper.has_speech st' = Whisper.has_speech st /\
  Whisper.silence_counter st' = Whisper.silence_counter st.
Proof.
  unfold Whisper.transcribe_buffer.
  destruct (44 <? _); [|auto].
  destruct reply as [text|]; [|simpl; auto].
  destruct (truthy text && truthy (strip text)); simpl; auto.
Qed.

Lemma whisper_transcribe_calls (cfg : Whisper.Config) (st : Whisper.state)
    (reply : option string) :
  Whisper.calls (Whisper.transcribe_buffer cfg st reply)
  = Whisper.calls st ++ payloads (Wave.frames (Whisper.audio_buffer st)).
Proof.
  unfold Whisper.transcribe_buffer.
  rewrite len_read_close.
  pose proof (raw_data_frames (Whisper.sampling_rate cfg) (Whisper.audio_buffer st)) as Hraw.
  unfold raw_data in Hraw.
  destruct (Z.ltb_spec 44 (44 + len (Wave.frames (Whisper.audio_buffer st)))) as [Hpos|Hzero].
  - assert (Hp : payloads (Wave.frames (Whisper.audio_buffer st))
                 = [Wave.frames (Whisper.audio_buffer st)]).
    { destruct (Wave.frames (Whisper.audio_buffer st)); [unfold len in Hpos; simpl in Hpos; lia|reflexivity]. }
    rewrite Hp.
    destruct reply as [text|]; [|cbn [Whisper.calls]; rewrite Hraw; reflexivity].
    destruct (truthy text && truthy (strip text)); cbn [Whisper.calls];
      rewrite Hraw; reflexivity.
  - assert (Hnil : Wave.frames (Whisper.audio_buffer st) = []).
    { apply len_nil_iff. pose proof (len_nonneg (Wave.frames (Whisper.audio_buffer st))). lia. }
    rewrite Hnil. cbn [payloads]. rewrite app_nil_r. reflexivity.
Qed.

Lemma whisper_transcribe_produced (cfg : Whisper.Config) (st : Whisper.state)
    (reply : option string) :
  Whisper.produced (Whisper.transcribe_buffer cfg st reply) = Whisper.produced st
  \/ exists text,
       truthy (strip text) = true /\
       Wave.frames (Whisper.audio_buffer st) <> [] /\
       Whisper.produced (Whisper.transcribe_buffer cfg st reply)
       = Whisper.produced st ++ [mkTranscription (strip text) 98 true].
Proof.
  unfold Whisper.transcribe_buffer. rewrite len_read_close.
  destruct (Z.ltb_spec 44 (44 + len (Wave.frames (Whisper.audio_buffer st)))) as [Hpos|_];
    [|left; reflexivity].
  destruct reply as [text|]; [|left; reflexivity].
  destruct (truthy text) eqn:Ht; simpl; [|left; reflexivity].
  destruct (truthy (strip text)) eqn:Hs; simpl; [|left; reflexivity].
  right. exists text. repeat split; auto.
  intro Hnil. rewrite Hnil in Hpos. unfold len in Hpos. simpl in Hpos. lia.
Qed.

(** A well-formed chunk: the body runs to the flush decision. *)
Lemma whisper_on_chunk_even (cfg : Whisper.Config) (st : Whisper.state)
    (audio_data : bytes) (now later : Z) (reply : option string) :
  len audio_data mod 2 = 0 ->
  let buf := Wave.writeframes (Whisper.audio_buffer st) audio_data in
  let sc := Whisper.classify cfg (Audio.rms audio_data)
              (Whisper.has_speech st) (Whisper.silence_counter st) in
  let written :=
    Whisper.mkState buf (Whisper.buffer_start_time st) (fst sc) (snd sc)
      (Whisper.calls st) (Whisper.produced st) in
  Whisper.on_chunk cfg st audio_data now later reply
  = if Whisper.should_process cfg (fst sc) (snd sc)
         (now - Whisper.buffer_start_time st)
    then (Flushed,
          Whisper.mkState Wave.fresh later false 0
            (Whisper.calls (Whisper.transcribe_buffer cfg written reply))
            (Whisper.produced (Whisper.transcribe_buffer cfg written reply)))
    else (Accumulated, written).
Proof.
  intros Heven buf sc written. unfold Whisper.on_chunk.
  rewrite (AudioSegment_even _ Heven), tell_writeframes_pos.
  subst written sc buf.
  destruct (Whisper.classify cfg (Audio.rms audio_data) (Whisper.has_speech st)
              (Whisper.silence_counter st)) as [speech counter].
  rewrite andb_true_r. reflexivity.
Qed.

(** A chunk of odd length: [AudioSegment] raises after the frames were
    written. *)
Lemma whisper_on_chunk_odd (cfg : Whisper.Config) (st : Whisper.state)
    (audio_data : bytes) (now later : Z) (reply : option string) :
  len audio_data mod 2 <> 0 ->
  Whisper.on_chunk cfg st audio_data now later reply
  = (Rejected,
     Whisper.mkState (Wave.writeframes (Whisper.audio_buffer st) audio_data)
       (Whisper.buffer_start_time st) (Whisper.has_speech st)
       (Whisper.silence_counter st) (Whisper.calls st) (Whisper.produced st)).
Proof.
  intro Hodd. unfold Whisper.on_chunk.
  rewrite (AudioSegment_odd _ Hodd). reflexivity.
Qed.

(** ** Resets performed by the two flush paths of the whisper.cpp consumer *)

Lemma whisper_chunk_flush_resets (cfg : Whisper.Config) (st : Whisper.state)
    (audio_data : bytes) (now later : Z) (reply : option string) :
  fst (Whisper.on_chunk cfg st audio_data now later reply) = Flushed ->
  let st' := snd (Whisper.on_chunk cfg st audio_data now later reply) in
  Whisper.audio_buffer st' = Wave.fresh /\
  Whisper.buffer_start_time st' = later /\
  Whisper.has_speech st' = false /\
  Whisper.silence_counter st' = 0.
Proof.
  unfold Whisper.on_chunk.
  destruct (Audio.AudioSegment audio_data) as [seg|]; [|discriminate].
  destruct (Whisper.classify _ _ _ _) as [speech counter].
  destruct (_ && _); [|discriminate].
  intros _. simpl. auto.
Qed.

Lemma whisper_idle_flush_resets (cfg : Whisper.Config) (st : Whisper.state)
    (now later : Z) (reply : option string) :
  fst (Whisper.on_empty cfg st now later reply) = Flushed ->
  let st' := snd (Whisper.on_empty cfg st now later reply) in
  Whisper.audio_buffer st' = Wave.fresh /\
  Whisper.buffer_start_time st' = later /\
  Whisper.has_speech st' = false /\
  Whisper.silence_counter st' = Whisper.silence_counter st.
Proof.
  unfold Whisper.on_empty.
  destruct (_ && _); [|discriminate].
  intros _. simpl. auto.
Qed.

(** C1.  After a flush the buffer is empty and the silence state is at its
    initial values: this holds for the flush taken on a chunk, but the
    idle-timeout flush leaves [silence_counter] as it was.  With
    [max_silence_chunks = 2], a loud chunk, a quiet chunk and then an empty
    queue after 0.5 s end in a flush with the buffer empty, [has_speech]
    false and [silence_counter] still 1. *)
Theorem whisper_idle_flush_keeps_silence_counter :
  let cfg := Whisper.mkConfig 16000 200 6400 500 500 2 in
  let evs :=
    [Whisper.Chunk (tone 3200 xe8 x03) 100 100 None;
     Whisper.Chunk (tone 3200 x00 x00) 300 300 None;
     Whisper.Empty 500 500 (Some "hello"%string)] in
  fst (Whisper.process_audio_loop cfg (Whisper.init 0) evs)
  = [Accumulated; Accumulated; Flushed] /\
  Wave.tell (Whisper.audio_buffer (snd (Whisper.process_audio_loop cfg (Whisper.init 0) evs))) = 0 /\
  Whisper.has_speech (snd (Whisper.process_audio_loop cfg (Whisper.init 0) evs)) = false /\
  Whisper.silence_counter (snd (Whisper.process_audio_loop cfg (Whisper.init 0) evs)) = 1.
Proof. vm_compute. repeat split; reflexivity. Qed.

Lemma whisper_transcribe_ignores_counter (cfg : Whisper.Config)
    (buf : Wave.buffer) (start : Z) (speech : bool) (c c' : Z)
    (calls : list bytes) (produced : list Transcription) (reply : option string) :
  Whisper.calls (Whisper.transcribe_buffer cfg
                   (Whisper.mkState buf start speech c calls produced) reply)
  = Whisper.calls (Whisper.transcribe_buffer cfg
                     (Whisper.mkState buf start speech c' calls produced) reply)
  /\ Whisper.produced (Whisper.transcribe_buffer cfg
                         (Whisper.mkState buf start speech c calls produced) reply)
     = Whisper.produced (Whisper.transcribe_buffer cfg
                           (Whisper.mkState buf start speech c' calls produced) reply).
Proof.
  unfold Whisper.transcribe_buffer.
  cbn [Whisper.audio_buffer Whisper.buffer_start_time Whisper.has_speech
       Whisper.calls Whisper.produced Whisper.silence_counter].
  destruct (44 <? _); [|split; reflexivity].
  destruct reply as [text|]; [|split; reflexivity].
  destruct (truthy text && truthy (strip text)); split; reflexivity.
Qed.

Lemma agree_but_idle_counter_refl (a : Whisper.state) :
  agree_but_idle_counter a a.
Proof. unfold agree_but_idle_counter. auto 10. Qed.

(** The counter left over by the idle-timeout flush is not observable
    afterwards: while no speech has been seen the flush decision does not
    read it, and the first loud chunk sets it to 0.  Two states that differ
    only in such a counter take the same outcome on every event and stay
    so related. *)
Lemma whisper_idle_counter_unobservable (cfg : Whisper.Config)
    (a b : Whisper.state) (ev : Whisper.event) :
  agree_but_idle_counter a b ->
  fst (Whisper.process_audio_iter cfg a ev) = fst (Whisper.process_audio_iter cfg b ev)
  /\ agree_but_idle_counter (snd (Whisper.process_audio_iter cfg a ev))
       (snd (Whisper.process_audio_iter cfg b ev)).
Proof.
  intros (Hbuf & Hstart & Hsp & Hcalls & Hprod & Hcnt).
  destruct a as [abuf astart asp acnt acalls aprod].
  destruct b as [bbuf bstart bsp bcnt bcalls bprod].
  cbn [Whisper.audio_buffer Whisper.buffer_start_time Whisper.has_speech
       Whisper.calls Whisper.produced Whisper.silence_counter] in *.
  subst bbuf bstart bsp bcalls bprod.
  destruct ev as [audio_data now later reply|now later reply];
    cbn [Whisper.process_audio_iter].
  - unfold Whisper.on_chunk.
    cbn [Whisper.audio_buffer Whisper.buffer_start_time Whisper.has_speech
         Whisper.calls Whisper.produced Whisper.silence_counter].
    destruct (Audio.AudioSegment audio_data) as [seg|].
    2:{ split; [reflexivity|]. unfold agree_but_idle_counter.
        cbn [snd Whisper.audio_buffer Whisper.buffer_start_time Whisper.has_speech
             Whisper.calls Whisper.produced Whisper.silence_counter]. auto 10. }
    unfold Whisper.classify.
    destruct (Whisper.silence_threshold cfg <? Audio.rms seg);
      [split; [reflexivity|apply agree_but_idle_counter_refl]|].
    destruct asp;
      [rewrite (Hcnt eq_refl); split; [reflexivity|apply agree_but_idle_counter_refl]|].
    unfold Whisper.should_process. cbn [andb orb].
    destruct (_ && _); cbn [fst snd]; (split; [reflexivity|]).
    + destruct (whisper_transcribe_ignores_counter cfg
                  (Wave.writeframes abuf audio_data) astart false
                  (acnt + 1) (bcnt + 1) acalls aprod reply) as [Ec Ep].
      rewrite Ec, Ep. apply agree_but_idle_counter_refl.
    + unfold agree_but_idle_counter.
      cbn [Whisper.audio_buffer Whisper.buffer_start_time Whisper.has_speech
           Whisper.calls Whisper.produced Whisper.silence_counter].
      repeat split; auto. discriminate.
  - unfold Whisper.on_empty.
    cbn [Whisper.audio_buffer Whisper.buffer_start_time Whisper.has_speech
         Whisper.calls Whisper.produced Whisper.silence_counter].
    destruct (_ && _); cbn [fst snd]; (split; [reflexivity|]).
    + destruct (whisper_transcribe_ignores_counter cfg abuf astart asp
                  acnt bcnt acalls aprod reply) as [Ec Ep].
      rewrite Ec, Ep. unfold agree_but_idle_counter.
      cbn [Whisper.audio_buffer Whisper.buffer_start_time Whisper.has_speech
           Whisper.calls Whisper.produced Whisper.silence_counter].
      repeat split; auto. discriminate.
    + unfold agree_but_idle_counter.
      cbn [Whisper.audio_buffer Whisper.buffer_start_time Whisper.has_speech
           Whisper.calls Whisper.produced Whisper.silence_counter].
      repeat split; auto.
Qed.

(** ** The idle-timeout flush *)

(** C7, as stated, fails on the high-performance adapter: once a loud
    chunk has been seen, an empty queue still leads to no flush, however
    long the buffer has been open; the handler is [continue]. *)
Lemma highperf_empty_queue_never_flushes :
  let cfg := HighPerf.default_config in
  let st := snd (HighPerf.on_chunk cfg HighPerf.init (tone 8000 xe8 x03) UnknownValueError) in
  HighPerf.speech_detected st = true /\
  Wave.frames (HighPerf.accumulated_audio st) <> [] /\
  HighPerf.process_audio_iter cfg st HighPerf.Empty = (Waited, st) /\
  is_flush (fst (HighPerf.process_audio_iter cfg st HighPerf.Empty)) = false.
Proof.
  vm_compute. repeat split; try reflexivity. discriminate.
Qed.

(** C7, amended.  In the whisper.cpp adapter, when the queue is found empty
    while [has_speech] is true and the time since [buffer_start_time] is at
    least [min_chunk_duration], a flush occurs: the buffer goes through
    [_transcribe_buffer] exactly as on a chunk flush (its frames are handed
    over as one unit when there are any), and the buffer, the start time
    and [has_speech] are reset.  The high-performance adapter has no
    idle-timeout flush: on an empty queue it leaves its state unchanged. *)
Theorem whisper_idle_timeout_flush (cfg : Whisper.Config) (st : Whisper.state)
    (now later : Z) (reply : option string) (hst : HighPerf.state) :
  Whisper.has_speech st = true ->
  Whisper.min_chunk_duration cfg <= now - Whisper.buffer_start_time st ->
  (exists st',
     Whisper.on_empty cfg st now later reply = (Flushed, st') /\
     Whisper.calls st' = Whisper.calls (Whisper.transcribe_buffer cfg st reply) /\
     Whisper.produced st' = Whisper.produced (Whisper.transcribe_buffer cfg st reply) /\
     Whisper.calls st'
     = Whisper.calls st ++ payloads (Wave.frames (Whisper.audio_buffer st)) /\
     Whisper.audio_buffer st' = Wave.fresh /\
     Whisper.buffer_start_time st' = later /\
     Whisper.has_speech st' = false) /\
  HighPerf.on_empty hst = (Waited, hst).
Proof.
  intros Hspeech Hmin. split; [|reflexivity].
  unfold Whisper.on_empty. rewrite Hspeech.
  apply Z.leb_le in Hmin. rewrite Hmin. cbn [andb].
  eexists. split; [reflexivity|].
  cbn [Whisper.calls Whisper.produced Whisper.audio_buffer
       Whisper.buffer_start_time Whisper.has_speech].
  rewrite whisper_transcribe_calls. repeat split; reflexivity.
Qed.

Lemma whisper_idle_timeout_flush_witness :
  let cfg := Whisper.mkConfig 16000 200 6400 500 500 2 in
  let st := snd (Whisper.on_chunk cfg (Whisper.init 0) (tone 3200 xe8 x03) 100 100 None) in
  (exists st',
     Whisper.on_empty cfg st 600 600 None = (Flushed, st') /\
     Whisper.calls st' = Whisper.calls (Whisper.transcribe_buffer cfg st None) /\
     Whisper.produced st' = Whisper.produced (Whisper.transcribe_buffer cfg st None) /\
     Whisper.calls st'
     = Whisper.calls st ++ payloads (Wave.frames (Whisper.audio_buffer st)) /\
     Whisper.audio_buffer st' = Wave.fresh /\
     Whisper.buffer_start_time st' = 600 /\
     Whisper.has_speech st' = false) /\
  HighPerf.on_empty HighPerf.init = (Waited, HighPerf.init).
Proof.
  intros cfg st.
  apply (whisper_idle_timeout_flush cfg st 600 600 None HighPerf.init).
  - vm_compute. reflexivity.
  - vm_compute. discriminate.
Defined.

(** ** The flush decision *)

Lemma whisper_should_process_iff (cfg : Whisper.Config) (speech : bool)
    (counter d : Z) :
  Whisper.should_process cfg speech counter d = true <->
  (speech = true /\ Whisper.max_silence_chunks cfg <= counter
   /\ Whisper.min_chunk_duration cfg <= d)
  \/ Whisper.chunk_duration cfg * 2 <= d.
Proof.
  unfold Whisper.should_process.
  rewrite orb_true_iff, !andb_true_iff, !Z.leb_le. tauto.
Qed.

Lemma whisper_chunk_flush_iff (cfg : Whisper.Config) (st : Whisper.state)
    (audio_data : bytes) (now later : Z) (reply : option string) :
  fst (Whisper.on_chunk cfg st audio_data now later reply) = Flushed <->
  len audio_data mod 2 = 0 /\
  Whisper.should_process cfg
    (fst (Whisper.classify cfg (Audio.rms audio_data)
            (Whisper.has_speech st) (Whisper.silence_counter st)))
    (snd (Whisper.classify cfg (Audio.rms audio_data)
            (Whisper.has_speech st) (Whisper.silence_counter st)))
    (now - Whisper.buffer_start_time st) = true.
Proof.
  destruct (Z.eq_dec (len audio_data mod 2) 0) as [Heven|Hodd].
  - rewrite (whisper_on_chunk_even cfg st audio_data now later reply Heven).
    cbv zeta. destruct (Whisper.should_process _ _ _ _); simpl; split.
    + auto.
    + reflexivity.
    + discriminate.
    + intros [_ H]. discriminate.
  - rewrite (whisper_on_chunk_odd cfg st audio_data now later reply Hodd).
    simpl. split; [discriminate|]. intros [H _]. contradiction.
Qed.

Lemma whisper_idle_flush_iff (cfg : Whisper.Config) (st : Whisper.state)
    (now later : Z) (reply : option string) :
  fst (Whisper.on_empty cfg st now later reply) = Flushed <->
  Whisper.has_speech st = true /\
  Whisper.min_chunk_duration cfg <= now - Whisper.buffer_start_time st.
Proof.
  unfold Whisper.on_empty. rewrite <- Z.leb_le, <- andb_true_iff.
  destruct (_ && _); simpl; split; auto; discriminate.
Qed.

Lemma highperf_on_chunk_even (cfg : HighPerf.Config) (st : HighPerf.state)
    (audio_data : bytes) (reply : google_reply) :
  len audio_data mod 2 = 0 ->
  let buf := Wave.writeframes (HighPerf.accumulated_audio st) audio_data in
  let sc := HighPerf.classify cfg (Audio.rms audio_data)
              (HighPerf.speech_detected st) (HighPerf.silence_counter st) in
  HighPerf.on_chunk cfg st audio_data reply
  = if fst sc && (HighPerf.max_silence_chunks cfg <=? snd sc)
    then (Flushed,
          HighPerf.mkState Wave.fresh false 0
            (HighPerf.calls st ++ [raw_data (HighPerf.sampling_rate cfg) buf])
            (produce_if_text 95 reply (HighPerf.produced st)))
    else (Accumulated,
          HighPerf.mkState buf (fst sc) (snd sc) (HighPerf.calls st)
            (HighPerf.produced st)).
Proof.
  intros Heven buf sc. unfold HighPerf.on_chunk.
  rewrite (AudioSegment_even _ Heven). subst sc buf.
  destruct (HighPerf.classify cfg (Audio.rms audio_data)
              (HighPerf.speech_detected st) (HighPerf.silence_counter st))
    as [speech counter].
  reflexivity.
Qed.

Lemma highperf_on_chunk_odd (cfg : HighPerf.Config) (st : HighPerf.state)
    (audio_data : bytes) (reply : google_reply) :
  len audio_data mod 2 <> 0 ->
  HighPerf.on_chunk cfg st audio_data reply
  = (Rejected,
     HighPerf.mkState (Wave.writeframes (HighPerf.accumulated_audio st) audio_data)
       (HighPerf.speech_detected st) (HighPerf.silence_counter st)
       (HighPerf.calls st) (HighPerf.produced st)).
Proof.
  intro Hodd. unfold HighPerf.on_chunk.
  rewrite (AudioSegment_odd _ Hodd). reflexivity.
Qed.




(** ** Energy classification *)

Lemma whisper_classify_le (cfg : Whisper.Config) (rms : Z) (speech : bool)
    (counter : Z) :
  Whisper.classify cfg rms speech counter
  = if rms <=? Whisper.silence_threshold cfg then (speech, counter + 1)
    else (true, 0).
Proof.
  unfold Whisper.classify.
  destruct (Z.ltb_spec (Whisper.silence_threshold cfg) rms);
    destruct (Z.leb_spec rms (Whisper.silence_threshold cfg));
    try reflexivity; lia.
Qed.

Lemma highperf_classify_le (cfg : HighPerf.Config) (rms : Z) (speech : bool)
    (counter : Z) :
  HighPerf.classify cfg rms speech counter
  = if rms <=? HighPerf.energy_threshold cfg then (speech, counter + 1)
    else (true, 0).
Proof.
  unfold HighPerf.classify.
  destruct (Z.ltb_spec (HighPerf.energy_threshold cfg) rms);
    destruct (Z.leb_spec rms (HighPerf.energy_threshold cfg));
    try reflexivity; lia.
Qed.




(** ** Chunks of odd length *)




(** ** Sequences without speech and the duration cap *)

Lemma whisper_quiet_step (cfg : Whisper.Config) (st : Whisper.state)
    (ev : Whisper.event) :
  Whisper.has_speech st = false -> whisper_quiet cfg ev ->
  is_flush (fst (Whisper.process_audio_iter cfg st ev)) = whisper_at_cap cfg st ev
  /\ Whisper.has_speech (snd (Whisper.process_audio_iter cfg st ev)) = false.
Proof.
  intros Hs Hq. destruct ev as [audio_data now later reply|now later reply].
  - destruct Hq as [Heven Hrms].
    cbn [Whisper.process_audio_iter whisper_at_cap].
    rewrite (whisper_on_chunk_even cfg st audio_data now later reply Heven).
    cbv zeta. rewrite whisper_classify_le.
    assert (Hle : (Audio.rms audio_data <=? Whisper.silence_threshold cfg) = true)
      by (apply Z.leb_le; lia).
    rewrite Hle, Hs. cbn [fst snd]. unfold Whisper.should_process.
    cbn [andb orb].
    destruct (Whisper.chunk_duration cfg * 2 <=? now - Whisper.buffer_start_time st);
      simpl; auto.
  - cbn [Whisper.process_audio_iter whisper_at_cap]. unfold Whisper.on_empty.
    rewrite Hs. simpl. auto.
Qed.

Lemma whisper_quiet_run (cfg : Whisper.Config) (evs : list Whisper.event)
    (st : Whisper.state) :
  Whisper.has_speech st = false -> Forall (whisper_quiet cfg) evs ->
  Whisper.has_speech (snd (Whisper.process_audio_loop cfg st evs)) = false.
Proof.
  revert st. induction evs as [|ev evs IH]; intros st Hs Hq; [exact Hs|].
  inversion Hq as [|? ? Hev Hrest]; subst.
  cbn [Whisper.process_audio_loop].
  destruct (whisper_quiet_step cfg st ev Hs Hev) as [_ Hs1].
  destruct (Whisper.process_audio_iter cfg st ev) as [o st1]. simpl in Hs1.
  specialize (IH st1 Hs1 Hrest).
  destruct (Whisper.process_audio_loop cfg st1 evs) as [os st2]. exact IH.
Qed.

Lemma whisper_cap_always_flushes (cfg : Whisper.Config) (st : Whisper.state)
    (audio_data : bytes) (now later : Z) (reply : option string) :
  len audio_data mod 2 = 0 ->
  Whisper.chunk_duration cfg * 2 <= now - Whisper.buffer_start_time st ->
  fst (Whisper.on_chunk cfg st audio_data now later reply) = Flushed.
Proof.
  intros Heven Hcap. apply whisper_chunk_flush_iff. split; [exact Heven|].
  apply whisper_should_process_iff. right. exact Hcap.
Qed.

Lemma highperf_quiet_step (cfg : HighPerf.Config) (st : HighPerf.state)
    (ev : HighPerf.event) :
  HighPerf.speech_detected st = false -> highperf_quiet cfg ev ->
  is_flush (fst (HighPerf.process_audio_iter cfg st ev)) = false
  /\ HighPerf.speech_detected (snd (HighPerf.process_audio_iter cfg st ev)) = false.
Proof.
  intros Hs Hq. destruct ev as [audio_data reply|].
  - destruct Hq as [Heven Hrms]. cbn [HighPerf.process_audio_iter].
    rewrite (highperf_on_chunk_even cfg st audio_data reply Heven).
    cbv zeta. rewrite highperf_classify_le.
    assert (Hle : (Audio.rms audio_data <=? HighPerf.energy_threshold cfg) = true)
      by (apply Z.leb_le; lia).
    rewrite Hle, Hs. simpl. auto.
  - simpl. auto.
Qed.

Lemma highperf_quiet_run (cfg : HighPerf.Config) (evs : list HighPerf.event)
    (st : HighPerf.state) :
  HighPerf.speech_detected st = false -> Forall (highperf_quiet cfg) evs ->
  Forall (fun o => is_flush o = false)
    (fst (HighPerf.process_audio_loop cfg st evs)).
Proof.
  revert st. induction evs as [|ev evs IH]; intros st Hs Hq; [constructor|].
  inversion Hq as [|? ? Hev Hrest]; subst.
  cbn [HighPerf.process_audio_loop].
  destruct (highperf_quiet_step cfg st ev Hs Hev) as [Hf Hs1].
  destruct (HighPerf.process_audio_iter cfg st ev) as [o st1].
  simpl in Hf, Hs1. specialize (IH st1 Hs1 Hrest).
  destruct (HighPerf.process_audio_loop cfg st1 evs) as [os st2].
  simpl in *. constructor; assumption.
Qed.

(** ** Order of the bytes through producer, queue and consumer *)

Lemma join_single (b : bytes) : join [b] = b.
Proof. unfold join. cbn [List.concat]. apply app_nil_r. Qed.

Lemma join_payloads (frames : bytes) : join (payloads frames) = frames.
Proof. destruct frames; [reflexivity|]. cbn [payloads]. apply join_single. Qed.

Lemma join_cons (b : bytes) (l : list bytes) : join (b :: l) = b ++ join l.
Proof. reflexivity. Qed.

(** What an iteration of the whisper.cpp consumer does to the buffer and
    to the calls, by outcome. *)
Lemma whisper_iter_buffer (cfg : Whisper.Config) (st : Whisper.state)
    (ev : Whisper.event) :
  let o := fst (Whisper.process_audio_iter cfg st ev) in
  let st' := snd (Whisper.process_audio_iter cfg st ev) in
  let grown := Wave.frames (Whisper.audio_buffer st) ++ whisper_dequeued ev in
  if is_flush o
  then Whisper.calls st' = Whisper.calls st ++ payloads grown
       /\ Wave.frames (Whisper.audio_buffer st') = []
  else Whisper.calls st' = Whisper.calls st
       /\ Wave.frames (Whisper.audio_buffer st') = grown.
Proof.
  destruct ev as [audio_data now later reply|now later reply];
    cbn [Whisper.process_audio_iter whisper_dequeued].
  - destruct (Z.eq_dec (len audio_data mod 2) 0) as [Heven|Hodd].
    + rewrite (whisper_on_chunk_even cfg st audio_data now later reply Heven).
      cbv zeta. destruct (Whisper.should_process _ _ _ _); cbn.
      * rewrite whisper_transcribe_calls. cbn. auto.
      * auto.
    + rewrite (whisper_on_chunk_odd cfg st audio_data now later reply Hodd).
      cbn. auto.
  - unfold Whisper.on_empty. rewrite app_nil_r.
    destruct (_ && _); cbn; [|auto].
    rewrite whisper_transcribe_calls. auto.
Qed.

Lemma highperf_iter_buffer (cfg : HighPerf.Config) (st : HighPerf.state)
    (ev : HighPerf.event) :
  let o := fst (HighPerf.process_audio_iter cfg st ev) in
  let st' := snd (HighPerf.process_audio_iter cfg st ev) in
  let grown := Wave.frames (HighPerf.accumulated_audio st) ++ highperf_dequeued ev in
  if is_flush o
  then HighPerf.calls st' = HighPerf.calls st ++ [grown]
       /\ Wave.frames (HighPerf.accumulated_audio st') = []
  else HighPerf.calls st' = HighPerf.calls st
       /\ Wave.frames (HighPerf.accumulated_audio st') = grown.
Proof.
  destruct ev as [audio_data reply|];
    cbn [HighPerf.process_audio_iter highperf_dequeued].
  - destruct (Z.eq_dec (len audio_data mod 2) 0) as [Heven|Hodd].
    + rewrite (highperf_on_chunk_even cfg st audio_data reply Heven).
      cbv zeta. destruct (_ && _); cbn [fst snd is_flush HighPerf.calls
        HighPerf.accumulated_audio Wave.frames Wave.fresh Wave.writeframes].
      * rewrite raw_data_frames. cbn. auto.
      * auto.
    + rewrite (highperf_on_chunk_odd cfg st audio_data reply Hodd).
      cbn. auto.
  - cbn. rewrite app_nil_r. auto.
Qed.

Lemma whisper_iter_stream (cfg : Whisper.Config) (st : Whisper.state)
    (ev : Whisper.event) :
  let st' := snd (Whisper.process_audio_iter cfg st ev) in
  join (Whisper.calls st') ++ Wave.frames (Whisper.audio_buffer st')
  = join (Whisper.calls st) ++ Wave.frames (Whisper.audio_buffer st)
    ++ whisper_dequeued ev.
Proof.
  pose proof (whisper_iter_buffer cfg st ev) as H. cbv zeta in *.
  destruct (is_flush _); destruct H as [Hc Hf]; rewrite Hc, Hf.
  - rewrite join_app, join_payloads, app_nil_r. reflexivity.
  - reflexivity.
Qed.


Lemma whisper_run_loop_iter_stream (cfg : Whisper.Config) (acc chunk : bytes) :
  join (snd (Whisper.run_loop_iter cfg acc chunk))
  ++ fst (Whisper.run_loop_iter cfg acc chunk)
  = acc ++ chunk.
Proof.
  unfold Whisper.run_loop_iter.
  destruct (Whisper.chunk_size cfg <=? len (acc ++ chunk)); cbn [fst snd].
  - rewrite join_single. apply py_prefix_suffix.
  - reflexivity.
Qed.


Lemma whisper_act_stream (cfg : Whisper.Config) (s : Whisper.system)
    (a : Whisper.action) :
  whisper_stream (Whisper.act cfg s a) = whisper_stream s ++ Whisper.submitted a.
Proof.
  destruct s as [acc queue c]. destruct a as [chunk|now later reply];
    unfold whisper_stream; cbn [Whisper.act Whisper.submitted
      Whisper.accumulated_audio Whisper.audio_queue Whisper.consumer].
  - pose proof (whisper_run_loop_iter_stream cfg acc chunk) as H.
    destruct (Whisper.run_loop_iter cfg acc chunk) as [acc1 put].
    cbn [fst snd Whisper.accumulated_audio Whisper.audio_queue Whisper.consumer] in *.
    rewrite join_app, <- !app_assoc, H. reflexivity.
  - destruct queue as [|audio_data rest];
      cbn [Whisper.accumulated_audio Whisper.audio_queue Whisper.consumer].
    + pose proof (whisper_iter_stream cfg c (Whisper.Empty now later reply)) as H.
      cbn [Whisper.process_audio_iter whisper_dequeued] in H. cbv zeta in H.
      rewrite app_assoc, H, !app_nil_r. cbn [join List.concat app].
      rewrite <- ?app_assoc. reflexivity.
    + pose proof (whisper_iter_stream cfg c
                    (Whisper.Chunk audio_data now later reply)) as H.
      cbn [Whisper.process_audio_iter whisper_dequeued] in H. cbv zeta in H.
      rewrite app_assoc, H, join_cons, app_nil_r, <- !app_assoc. reflexivity.
Qed.


Lemma whisper_run_stream (cfg : Whisper.Config) (actions : list Whisper.action)
    (s : Whisper.system) :
  whisper_stream (fold_left (Whisper.act cfg) actions s)
  = whisper_stream s ++ join (map Whisper.submitted actions).
Proof.
  revert s. induction actions as [|a actions IH]; intro s; cbn [fold_left map].
  - symmetry. apply app_nil_r.
  - rewrite IH, whisper_act_stream, join_cons, app_assoc. reflexivity.
Qed.


Lemma whisper_loop_cut (cfg : Whisper.Config) (evs : list Whisper.event)
    (st : Whisper.state) :
  let r := Whisper.process_audio_loop cfg st evs in
  let c := cut (Wave.frames (Whisper.audio_buffer st))
             (combine (fst r) (map whisper_dequeued evs)) in
  Whisper.calls (snd r) = Whisper.calls st ++ filter nonempty (fst c)
  /\ Wave.frames (Whisper.audio_buffer (snd r)) = snd c.
Proof.
  revert st. induction evs as [|ev evs IH]; intro st.
  - cbn. rewrite app_nil_r. auto.
  - cbn [Whisper.process_audio_loop map].
    pose proof (whisper_iter_buffer cfg st ev) as Hstep. cbv zeta in Hstep.
    destruct (Whisper.process_audio_iter cfg st ev) as [o st1].
    cbn [fst snd] in Hstep. specialize (IH st1). cbv zeta in IH.
    destruct (Whisper.process_audio_loop cfg st1 evs) as [os st2].
    cbn [fst snd combine cut] in *.
    destruct (is_flush o); destruct Hstep as [Hc Hf]; rewrite Hf in IH.
    + destruct (cut [] (combine os (map whisper_dequeued evs))) as [closed last].
      cbn [fst snd] in *. destruct IH as [IHc IHf]. split; [|exact IHf].
      rewrite IHc, Hc, payloads_filter, <- app_assoc, <- filter_app.
      reflexivity.
    + destruct IH as [IHc IHf]. rewrite IHc, Hc. auto.
Qed.

Lemma highperf_loop_cut (cfg : HighPerf.Config) (evs : list HighPerf.event)
    (st : HighPerf.state) :
  let r := HighPerf.process_audio_loop cfg st evs in
  let c := cut (Wave.frames (HighPerf.accumulated_audio st))
             (combine (fst r) (map highperf_dequeued evs)) in
  HighPerf.calls (snd r) = HighPerf.calls st ++ fst c
  /\ Wave.frames (HighPerf.accumulated_audio (snd r)) = snd c.
Proof.
  revert st. induction evs as [|ev evs IH]; intro st.
  - cbn. rewrite app_nil_r. auto.
  - cbn [HighPerf.process_audio_loop map].
    pose proof (highperf_iter_buffer cfg st ev) as Hstep. cbv zeta in Hstep.
    destruct (HighPerf.process_audio_iter cfg st ev) as [o st1].
    cbn [fst snd] in Hstep. specialize (IH st1). cbv zeta in IH.
    destruct (HighPerf.process_audio_loop cfg st1 evs) as [os st2].
    cbn [fst snd combine cut] in *.
    destruct (is_flush o); destruct Hstep as [Hc Hf]; rewrite Hf in IH.
    + destruct (cut [] (combine os (map highperf_dequeued evs))) as [closed last].
      cbn [fst snd] in *. destruct IH as [IHc IHf]. split; [|exact IHf].
      rewrite IHc, Hc, <- app_assoc. reflexivity.
    + destruct IH as [IHc IHf]. rewrite IHc, Hc. auto.
Qed.


(** ** Re-chunking by the whisper.cpp producer *)

Lemma whisper_run_loop_iter_put (cfg : Whisper.Config) (acc chunk : bytes) :
  0 <= Whisper.chunk_size cfg ->
  Forall (fun item => len item = Whisper.chunk_size cfg)
    (snd (Whisper.run_loop_iter cfg acc chunk)).
Proof.
  intro H0. unfold Whisper.run_loop_iter.
  destruct (Z.leb_spec (Whisper.chunk_size cfg) (len (acc ++ chunk))) as [Hle|Hlt];
    cbn [snd]; [|constructor].
  constructor; [|constructor]. apply py_prefix_len; assumption.
Qed.

Lemma whisper_queue_items (cfg : Whisper.Config) (actions : list Whisper.action)
    (s : Whisper.system) :
  0 <= Whisper.chunk_size cfg ->
  Forall (fun item => len item = Whisper.chunk_size cfg) (Whisper.audio_queue s) ->
  Forall (fun item => len item = Whisper.chunk_size cfg)
    (Whisper.audio_queue (fold_left (Whisper.act cfg) actions s)).
Proof.
  intro H0. revert s. induction actions as [|a actions IH]; intros s Hq;
    cbn [fold_left]; [exact Hq|].
  apply IH. destruct a as [chunk|now later reply]; cbn [Whisper.act].
  - pose proof (whisper_run_loop_iter_put cfg (Whisper.accumulated_audio s) chunk H0) as Hput.
    destruct (Whisper.run_loop_iter cfg (Whisper.accumulated_audio s) chunk) as [acc1 put].
    cbn [snd Whisper.audio_queue] in *. apply Forall_app. auto.
  - destruct (Whisper.audio_queue s) as [|audio_data rest] eqn:E;
      cbn [Whisper.audio_queue]; [constructor|].
    inversion Hq; assumption.
Qed.

(** C9.  In the whisper.cpp adapter every buffer the ingestion loop puts on
    the processing queue has byte length exactly [chunk_size]; an iteration
    puts at most the first [chunk_size] bytes of the accumulator and keeps
    the rest, and puts nothing while the accumulator is short of
    [chunk_size].  So, in every reachable state of producer and consumer,
    every queued buffer has length [chunk_size], and the bytes not yet put
    on the queue sit in the accumulator, after everything the consumer has
    buffered or handed over. *)
Theorem whisper_rechunks_to_chunk_size (cfg : Whisper.Config) (t0 : Z)
    (actions : list Whisper.action) (acc chunk : bytes) :
  0 <= Whisper.chunk_size cfg ->
  let s := fold_left (Whisper.act cfg) actions (Whisper.start t0) in
  Forall (fun item => len item = Whisper.chunk_size cfg)
    (snd (Whisper.run_loop_iter cfg acc chunk)) /\
  join (snd (Whisper.run_loop_iter cfg acc chunk))
  ++ fst (Whisper.run_loop_iter cfg acc chunk) = acc ++ chunk /\
  (len (acc ++ chunk) < Whisper.chunk_size cfg ->
   Whisper.run_loop_iter cfg acc chunk = (acc ++ chunk, [])) /\
  Forall (fun item => len item = Whisper.chunk_size cfg) (Whisper.audio_queue s) /\
  join (Whisper.calls (Whisper.consumer s))
  ++ Wave.frames (Whisper.audio_buffer (Whisper.consumer s))
  ++ join (Whisper.audio_queue s) ++ Whisper.accumulated_audio s
  = join (map Whisper.submitted actions).
Proof.
  intros H0 s. split; [apply whisper_run_loop_iter_put; exact H0|].
  split; [apply whisper_run_loop_iter_stream|].
  split; [|split].
  - intro Hlt. unfold Whisper.run_loop_iter.
    destruct (Z.leb_spec (Whisper.chunk_size cfg) (len (acc ++ chunk)));
      [lia|reflexivity].
  - apply whisper_queue_items; [exact H0|constructor].
  - pose proof (whisper_run_stream cfg actions (Whisper.start t0)) as H.
    unfold whisper_stream in H at 1. fold s in H. rewrite H. reflexivity.
Qed.

Lemma whisper_rechunks_to_chunk_size_witness :
  let cfg := Whisper.mkConfig 16000 200 6400 500 500 2 in
  let actions :=
    [Whisper.Submit (tone 2000 x00 x00); Whisper.Submit (tone 2000 xe8 x03)] in
  let s := fold_left (Whisper.act cfg) actions (Whisper.start 0) in
  0 <= Whisper.chunk_size cfg /\
  Forall (fun item => len item = Whisper.chunk_size cfg) (Whisper.audio_queue s) /\
  len (Whisper.accumulated_audio s) = 1600.
Proof.
  intros cfg actions s.
  assert (H0 : 0 <= Whisper.chunk_size cfg) by (vm_compute; discriminate).
  split; [exact H0|]. split.
  - exact (proj1 (proj2 (proj2 (proj2
      (whisper_rechunks_to_chunk_size cfg 0 actions [] [] H0))))).
  - vm_compute. reflexivity.
Defined.

(** ** The duration cap *)

Lemma cut_unflushed (pending : bytes) (os : list outcome) (chunks : list bytes) :
  Forall (fun o => is_flush o = false) os ->
  List.length os = List.length chunks ->
  cut pending (combine os chunks) = ([], pending ++ join chunks).
Proof.
  intro Hno. revert pending chunks.
  induction Hno as [|o os Ho _ IH]; intros pending chunks Hlen.
  - destruct chunks; [|discriminate Hlen]. cbn. rewrite app_nil_r. reflexivity.
  - destruct chunks as [|chunk chunks]; [discriminate Hlen|].
    cbn [combine cut]. rewrite Ho.
    rewrite IH by (cbn in Hlen; lia).
    rewrite join_cons, <- app_assoc. reflexivity.
Qed.

Lemma highperf_loop_length (cfg : HighPerf.Config) (evs : list HighPerf.event)
    (st : HighPerf.state) :
  List.length (fst (HighPerf.process_audio_loop cfg st evs)) = List.length evs.
Proof.
  revert st. induction evs as [|ev evs IH]; intro st; [reflexivity|].
  cbn [HighPerf.process_audio_loop].
  destruct (HighPerf.process_audio_iter cfg st ev) as [o st1].
  specialize (IH st1).
  destruct (HighPerf.process_audio_loop cfg st1 evs) as [os st2].
  cbn [fst List.length] in *. rewrite IH. reflexivity.
Qed.

Lemma highperf_quiet_state (cfg : HighPerf.Config) (evs : list HighPerf.event)
    (st : HighPerf.state) :
  HighPerf.speech_detected st = false -> Forall (highperf_quiet cfg) evs ->
  let r := HighPerf.process_audio_loop cfg st evs in
  HighPerf.speech_detected (snd r) = false
  /\ HighPerf.produced (snd r) = HighPerf.produced st.
Proof.
  revert st. induction evs as [|ev evs IH]; intros st Hs Hq;
    [split; [exact Hs|reflexivity]|].
  inversion Hq as [|? ? Hev Hrest]; subst.
  cbn [HighPerf.process_audio_loop].
  destruct (highperf_quiet_step cfg st ev Hs Hev) as [Hf Hs1].
  assert (Hp : HighPerf.produced (snd (HighPerf.process_audio_iter cfg st ev))
               = HighPerf.produced st).
  { destruct ev as [audio_data reply|]; [|reflexivity].
    cbn [HighPerf.process_audio_iter] in *. unfold HighPerf.on_chunk in *.
    destruct (Audio.AudioSegment audio_data) as [seg|]; [|reflexivity].
    destruct (HighPerf.classify _ _ _ _) as [speech counter].
    destruct (_ && _); [discriminate Hf|reflexivity]. }
  destruct (HighPerf.process_audio_iter cfg st ev) as [o st1].
  cbn [fst snd] in *. specialize (IH st1 Hs1 Hrest). cbv zeta in IH.
  destruct (HighPerf.process_audio_loop cfg st1 evs) as [os st2].
  cbn [fst snd] in *. destruct IH as [IHs IHp]. split; [exact IHs|].
  rewrite IHp. exact Hp.
Qed.

Lemma whisper_unflushed_produced (cfg : Whisper.Config) (st : Whisper.state)
    (ev : Whisper.event) :
  is_flush (fst (Whisper.process_audio_iter cfg st ev)) = false ->
  Whisper.produced (snd (Whisper.process_audio_iter cfg st ev))
  = Whisper.produced st
  /\ Whisper.buffer_start_time (snd (Whisper.process_audio_iter cfg st ev))
     = Whisper.buffer_start_time st.
Proof.
  destruct ev as [audio_data now later reply|now later reply];
    cbn [Whisper.process_audio_iter].
  - unfold Whisper.on_chunk.
    destruct (Audio.AudioSegment audio_data) as [seg|]; [|auto].
    destruct (Whisper.classify _ _ _ _) as [speech counter].
    destruct (_ && _); cbn; [discriminate|auto].
  - unfold Whisper.on_empty. destruct (_ && _); cbn; [discriminate|auto].
Qed.

(** C3, as stated, fails.  In the whisper.cpp adapter the cap
    [chunk_duration * 2] is compared with the wall-clock time since the
    buffer was opened, not with the duration of the accumulated audio, and
    only when a chunk is dequeued.  With the defaults (cap 4 s, chunks of
    2 s of silence): one chunk dequeued 4 s after the buffer was opened is
    flushed with 2 s of audio accumulated; three chunks dequeued within
    30 ms are not flushed although 6 s are accumulated; and a timeout 10 s
    after the buffer was opened does not flush what is accumulated.  The
    high-performance adapter has no cap: 10 s of silence are accumulated
    and never flushed. *)
Lemma duration_cap_is_wall_clock_and_whisper_only :
  let cfg := Whisper.default_config in
  let quiet := tone 32000 x00 x00 in
  let early := Whisper.on_chunk cfg (Whisper.init 0) quiet 4000 4000 None in
  let backlog :=
    Whisper.process_audio_loop cfg (Whisper.init 0)
      [Whisper.Chunk quiet 10 10 None; Whisper.Chunk quiet 20 20 None;
       Whisper.Chunk quiet 30 30 None] in
  let idle :=
    Whisper.process_audio_loop cfg (Whisper.init 0)
      [Whisper.Chunk quiet 10 10 None; Whisper.Empty 10000 10000 None] in
  let hcfg := HighPerf.default_config in
  let silence :=
    repeat (HighPerf.Chunk (tone 8000 x00 x00) UnknownValueError) 20 in
  let hp := HighPerf.process_audio_loop hcfg HighPerf.init silence in
  (Whisper.chunk_duration cfg * 2 = 4000 /\
   Audio.rms quiet < Whisper.silence_threshold cfg /\
   audio_duration (Whisper.sampling_rate cfg) quiet = 2000) /\
  (fst early = Flushed /\
   map (audio_duration (Whisper.sampling_rate cfg)) (Whisper.calls (snd early))
   = [2000]) /\
  (fst backlog = [Accumulated; Accumulated; Accumulated] /\
   audio_duration (Whisper.sampling_rate cfg)
     (Wave.frames (Whisper.audio_buffer (snd backlog))) = 6000 /\
   Whisper.calls (snd backlog) = []) /\
  (fst idle = [Accumulated; Waited] /\
   audio_duration (Whisper.sampling_rate cfg)
     (Wave.frames (Whisper.audio_buffer (snd idle))) = 2000 /\
   Whisper.calls (snd idle) = []) /\
  (Forall (highperf_quiet hcfg) silence /\
   fst hp = repeat Accumulated 20 /\
   audio_duration (HighPerf.sampling_rate hcfg)
     (Wave.frames (HighPerf.accumulated_audio (snd hp))) = 10000 /\
   HighPerf.calls (snd hp) = []).
Proof.
  cbv zeta. split; [|split; [|split; [|split]]].
  - vm_compute. repeat split; reflexivity.
  - vm_compute. split; reflexivity.
  - vm_compute. repeat split; reflexivity.
  - vm_compute. repeat split; reflexivity.
  - split.
    + apply Forall_forall. intros ev Hin. apply repeat_spec in Hin. subst ev.
      vm_compute. split; reflexivity.
    + vm_compute. repeat split; reflexivity.
Qed.

(** C3, amended.  In the whisper.cpp adapter, in a sequence of chunks that
    all have RMS below the threshold (timeouts may come in between),
    started with no speech seen, an iteration flushes exactly when it
    dequeues a chunk and the wall-clock time since the buffer was opened
    has reached [chunk_duration * 2].  Then the buffer with this chunk is
    handed to the backend as one unit, the buffer is replaced by a fresh
    one opened at the time read after the call, and the counter is reset.
    Otherwise nothing is handed over or produced, the chunk stays in the
    buffer and the opening time is kept; in particular a timeout never
    flushes here.  Whatever the state, a well-formed chunk dequeued with
    the cap reached is flushed in this way.  The high-performance adapter
    has no cap: such a sequence is never flushed, all its chunks stay in
    the buffer and nothing is handed over or produced. *)
Theorem quiet_sequence_flushes_only_at_cap (cfg : Whisper.Config)
    (st : Whisper.state) (pre : list Whisper.event) (ev : Whisper.event)
    (hcfg : HighPerf.Config) (hst : HighPerf.state)
    (hevs : list HighPerf.event) :
  Whisper.has_speech st = false ->
  Forall (whisper_quiet cfg) (pre ++ [ev]) ->
  HighPerf.speech_detected hst = false ->
  Forall (highperf_quiet hcfg) hevs ->
  let st_i := snd (Whisper.process_audio_loop cfg st pre) in
  let r := Whisper.process_audio_iter cfg st_i ev in
  let grown := Wave.frames (Whisper.audio_buffer st_i) ++ whisper_dequeued ev in
  let h := HighPerf.process_audio_loop hcfg hst hevs in
  (if whisper_at_cap cfg st_i ev
   then fst r = Flushed
        /\ Whisper.calls (snd r) = Whisper.calls st_i ++ payloads grown
        /\ Whisper.audio_buffer (snd r) = Wave.fresh
        /\ Whisper.buffer_start_time (snd r) = whisper_later ev
        /\ Whisper.silence_counter (snd r) = 0
   else is_flush (fst r) = false
        /\ Whisper.calls (snd r) = Whisper.calls st_i
        /\ Whisper.produced (snd r) = Whisper.produced st_i
        /\ Wave.frames (Whisper.audio_buffer (snd r)) = grown
        /\ Whisper.buffer_start_time (snd r) = Whisper.buffer_start_time st_i)
  /\ Whisper.has_speech (snd r) = false
  /\ (forall (any : Whisper.state) audio_data now later reply,
        len audio_data mod 2 = 0 ->
        Whisper.chunk_duration cfg * 2 <= now - Whisper.buffer_start_time any ->
        let f := Whisper.on_chunk cfg any audio_data now later reply in
        fst f = Flushed
        /\ Whisper.calls (snd f)
           = Whisper.calls any
             ++ payloads (Wave.frames (Whisper.audio_buffer any) ++ audio_data)
        /\ Whisper.audio_buffer (snd f) = Wave.fresh
        /\ Whisper.buffer_start_time (snd f) = later
        /\ Whisper.has_speech (snd f) = false
        /\ Whisper.silence_counter (snd f) = 0)
  /\ (forall (any : Whisper.state) now later reply,
        Whisper.has_speech any = false ->
        Whisper.on_empty cfg any now later reply = (Waited, any))
  /\ Forall (fun o => is_flush o = false) (fst h)
  /\ HighPerf.calls (snd h) = HighPerf.calls hst
  /\ HighPerf.produced (snd h) = HighPerf.produced hst
  /\ Wave.frames (HighPerf.accumulated_audio (snd h))
     = Wave.frames (HighPerf.accumulated_audio hst)
       ++ join (map highperf_dequeued hevs)
  /\ HighPerf.speech_detected (snd h) = false.
Proof.
  intros Hs Hq Hhs Hhq st_i r grown h.
  apply Forall_app in Hq. destruct Hq as [Hpre Hev].
  inversion Hev as [|? ? Hev1 _]; subst.
  assert (Hsi : Whisper.has_speech st_i = false)
    by (apply whisper_quiet_run; assumption).
  destruct (whisper_quiet_step cfg st_i ev Hsi Hev1) as [Hflush Hs1].
  fold r in Hflush, Hs1.
  assert (Hcapflush : forall (any : Whisper.state) audio_data now later reply,
    len audio_data mod 2 = 0 ->
    Whisper.chunk_duration cfg * 2 <= now - Whisper.buffer_start_time any ->
    let f := Whisper.on_chunk cfg any audio_data now later reply in
    fst f = Flushed
    /\ Whisper.calls (snd f)
       = Whisper.calls any
         ++ payloads (Wave.frames (Whisper.audio_buffer any) ++ audio_data)
    /\ Whisper.audio_buffer (snd f) = Wave.fresh
    /\ Whisper.buffer_start_time (snd f) = later
    /\ Whisper.has_speech (snd f) = false
    /\ Whisper.silence_counter (snd f) = 0).
  { intros any audio_data now later reply Heven Hcap f.
    assert (Hf : fst f = Flushed)
      by (apply whisper_cap_always_flushes; assumption).
    destruct (whisper_chunk_flush_resets cfg any audio_data now later reply Hf)
      as (Hb & Ht & Hsp & Hc).
    pose proof (whisper_iter_buffer cfg any
                  (Whisper.Chunk audio_data now later reply)) as Hbuf.
    cbv zeta in Hbuf. cbn [Whisper.process_audio_iter whisper_dequeued] in Hbuf.
    fold f in Hbuf. rewrite Hf in Hbuf. cbn [is_flush] in Hbuf.
    destruct Hbuf as [Hcalls _]. auto 10. }
  split; [|split; [exact Hs1|split; [exact Hcapflush|split]]].
  - destruct (whisper_at_cap cfg st_i ev) eqn:Hcap.
    + destruct ev as [audio_data now later reply|now later reply];
        [|discriminate Hcap].
      cbn [whisper_at_cap] in Hcap. apply Z.leb_le in Hcap.
      destruct Hev1 as [Heven _].
      destruct (Hcapflush st_i audio_data now later reply Heven Hcap)
        as (Hf & Hc & Hb & Ht & _ & Hn).
      subst r grown. cbn [Whisper.process_audio_iter whisper_dequeued whisper_later].
      auto.
    + pose proof (whisper_iter_buffer cfg st_i ev) as Hbuf. cbv zeta in Hbuf.
      fold r in Hbuf. rewrite Hflush in Hbuf. destruct Hbuf as [Hc Hf].
      destruct (whisper_unflushed_produced cfg st_i ev) as [Hp Ht];
        [fold r; exact Hflush|].
      fold r in Hp, Ht. fold grown in Hf. auto.
  - intros any now later reply Hany. unfold Whisper.on_empty.
    rewrite Hany. reflexivity.
  - pose proof (highperf_quiet_run hcfg hevs hst Hhs Hhq) as Hno. fold h in Hno.
    destruct (highperf_quiet_state hcfg hevs hst Hhs Hhq) as [Hsp Hp].
    fold h in Hsp, Hp.
    pose proof (highperf_loop_cut hcfg hevs hst) as Hcut. cbv zeta in Hcut.
    fold h in Hcut.
    rewrite cut_unflushed in Hcut;
      [|exact Hno|subst h; rewrite highperf_loop_length, length_map; reflexivity].
    cbn [fst snd] in Hcut. rewrite app_nil_r in Hcut. destruct Hcut as [Hc Hf].
    auto.
Qed.

Lemma quiet_sequence_flushes_only_at_cap_witness :
  let cfg := Whisper.default_config in
  let quiet_chunk := tone 32000 x00 x00 in
  let pre := [Whisper.Chunk quiet_chunk 2000 2000 None] in
  let ev := Whisper.Chunk quiet_chunk 4000 4100 None in
  let hevs := [HighPerf.Chunk (tone 8000 x00 x00) UnknownValueError] in
  let st_i := snd (Whisper.process_audio_loop cfg (Whisper.init 0) pre) in
  let r := Whisper.process_audio_iter cfg st_i ev in
  Forall (whisper_quiet cfg) (pre ++ [ev]) /\
  Forall (highperf_quiet HighPerf.default_config) hevs /\
  fst r = Flushed /\
  map (audio_duration (Whisper.sampling_rate cfg)) (Whisper.calls (snd r))
  = [4000] /\
  Whisper.buffer_start_time (snd r) = 4100.
Proof.
  intros cfg quiet_chunk pre ev hevs st_i r.
  assert (Hq : Forall (whisper_quiet cfg) (pre ++ [ev])).
  { repeat constructor; vm_compute; reflexivity. }
  assert (Hh : Forall (highperf_quiet HighPerf.default_config) hevs).
  { repeat constructor; vm_compute; reflexivity. }
  pose proof (quiet_sequence_flushes_only_at_cap cfg (Whisper.init 0) pre ev
                HighPerf.default_config HighPerf.init hevs eq_refl Hq eq_refl Hh)
    as H.
  cbv zeta in H. destruct H as [H _].
  assert (Hcap : whisper_at_cap cfg st_i ev = true) by (vm_compute; reflexivity).
  fold st_i in H. rewrite Hcap in H. fold r in H.
  destruct H as (Hf & Hc & _ & Ht & _).
  split; [exact Hq|]. split; [exact Hh|]. split; [exact Hf|].
  split; [|exact Ht].
  rewrite Hc. vm_compute. reflexivity.
Defined.

(** ** Shutdown *)

Lemma bounded_wait_shutdown {S I E : Type} (L : Shutdown.loop S I E) :
  Shutdown.bounded_wait L -> Shutdown.bounded_shutdown L.
Proof.
  intros [t Ht] th x Hended Hx. unfold Shutdown.step.
  destruct (Shutdown.position_of th) eqn:Hpos; [|exact Hpos].
  destruct x as [i|e|]; [| |contradiction Hx; reflexivity].
  - cbn. rewrite Hended. reflexivity.
  - rewrite Ht. cbn. rewrite Hended. reflexivity.
Qed.

Lemma unbounded_wait_blocks {S I E : Type} (L : Shutdown.loop S I E)
    (th : Shutdown.thread S) (es : list E) :
  Shutdown.timeout L = None ->
  Shutdown.run L th (map Shutdown.Elapsed es) = th.
Proof.
  intro Hnone. revert th. induction es as [|e es IH]; intro th; [reflexivity|].
  cbn [map]. unfold Shutdown.run in *. cbn [fold_left].
  assert (Hstep : Shutdown.step L th (Shutdown.Elapsed e) = th).
  { unfold Shutdown.step. rewrite Hnone.
    destruct (Shutdown.position_of th); reflexivity. }
  rewrite Hstep. apply IH.
Qed.

Lemma item_after_terminate_exits {S I E : Type} (L : Shutdown.loop S I E)
    (th : Shutdown.thread S) (i : I) :
  Shutdown.ended th = true ->
  Shutdown.position_of (Shutdown.step L th (Shutdown.Item i)) = Shutdown.Exited.
Proof.
  intro Hended. unfold Shutdown.step.
  destruct (Shutdown.position_of th) eqn:Hpos; [|exact Hpos].
  cbn. rewrite Hended. reflexivity.
Qed.

Lemma whisper_transcribe_no_reply (cfg : Whisper.Config) (st : Whisper.state) :
  Whisper.produced (Whisper.transcribe_buffer cfg st None) = Whisper.produced st.
Proof.
  unfold Whisper.transcribe_buffer.
  destruct (44 <? len _); reflexivity.
Qed.

Lemma whisper_on_chunk_no_reply (cfg : Whisper.Config) (st : Whisper.state)
    (audio_data : bytes) (now later : Z) :
  Whisper.produced (snd (Whisper.on_chunk cfg st audio_data now later None))
  = Whisper.produced st.
Proof.
  unfold Whisper.on_chunk.
  destruct (Audio.AudioSegment audio_data) as [seg|]; [|reflexivity].
  destruct (Whisper.classify _ _ _ _) as [speech counter].
  destruct (_ && _); cbn [snd Whisper.produced]; [|reflexivity].
  rewrite whisper_transcribe_no_reply. reflexivity.
Qed.

Lemma whisper_on_empty_no_reply (cfg : Whisper.Config) (st : Whisper.state)
    (now later : Z) :
  Whisper.produced (snd (Whisper.on_empty cfg st now later None))
  = Whisper.produced st.
Proof.
  unfold Whisper.on_empty.
  destruct (_ && _); cbn [snd Whisper.produced]; [|reflexivity].
  apply whisper_transcribe_no_reply.
Qed.

(** [terminate()] called during a wait sets the flag and leaves the thread
    in [get]. *)
Lemma timed_terminate_in_wait {S I E : Type} (L : Shutdown.loop S I E)
    (tth : Shutdown.timed_thread S) (T : Z) :
  Shutdown.in_wait L tth T ->
  Shutdown.timed_step L tth (Shutdown.terminate_at T)
  = Shutdown.mkTimedThread (Shutdown.since tth)
      (Shutdown.mkThread true Shutdown.InGet
         (Shutdown.locals (Shutdown.thread_of tth))).
Proof.
  intros (Hpos & Hsince & _). unfold Shutdown.timed_step, Shutdown.step.
  rewrite Hpos. cbn [Shutdown.terminate_at Shutdown.what Shutdown.at_time].
  destruct (Z.ltb_spec T (Shutdown.since tth)); [lia|reflexivity].
Qed.

(** A loop whose [get] has a timeout: the wait that is in progress when
    [terminate()] is called ends within the timeout, and the loop is left
    when the iteration this wait starts is over. *)
Lemma timed_exit_after_wait {S I E : Type} (L : Shutdown.loop S I E) (t : Z)
    (tth : Shutdown.timed_thread S) (T : Z) (x : Shutdown.timed_input I E) :
  Shutdown.timeout L = Some t ->
  Shutdown.in_wait L tth T -> Shutdown.ends_wait L tth x ->
  let stopped := Shutdown.timed_step L tth (Shutdown.terminate_at T) in
  let left := Shutdown.timed_step L stopped x in
  Shutdown.position_of (Shutdown.thread_of left) = Shutdown.Exited
  /\ Shutdown.since left
     = Shutdown.wait_end L tth x
       + (if Shutdown.waits_backend L true
               (Shutdown.locals (Shutdown.thread_of tth))
               (Shutdown.locals (Shutdown.thread_of left))
          then Shutdown.backend_time x else 0)
  /\ Shutdown.wait_end L tth x <= T + t
  /\ Shutdown.locals (Shutdown.thread_of left)
     = match Shutdown.what x with
       | Shutdown.Item i =>
           Shutdown.on_item L true (Shutdown.locals (Shutdown.thread_of tth)) i
       | Shutdown.Elapsed e =>
           Shutdown.on_timeout L true (Shutdown.locals (Shutdown.thread_of tth)) e
       | Shutdown.Terminate => Shutdown.locals (Shutdown.thread_of tth)
       end.
Proof.
  intros Ht Hw (Hx & Hb & Hitem). cbv zeta.
  rewrite (timed_terminate_in_wait L tth T Hw).
  destruct Hw as (Hpos & Hsince & Hlim). specialize (Hlim t Ht).
  unfold Shutdown.timed_step, Shutdown.wait_end, Shutdown.step, Shutdown.busy.
  cbn [Shutdown.thread_of Shutdown.position_of Shutdown.since Shutdown.ended
       Shutdown.locals].
  destruct (Shutdown.what x) as [i|e|] eqn:Hwhat; [| |contradiction Hx; reflexivity].
  - specialize (Hitem t i Ht eq_refl).
    cbn [Shutdown.thread_of Shutdown.position_of Shutdown.since Shutdown.guard
         Shutdown.locals].
    repeat split; lia.
  - rewrite Ht.
    cbn [Shutdown.thread_of Shutdown.position_of Shutdown.since Shutdown.guard
         Shutdown.locals].
    repeat split; lia.
Qed.

(** [terminate()] called while the body runs: the loop is left when the
    body is over. *)
Lemma timed_exit_after_body {S I E : Type} (L : Shutdown.loop S I E)
    (tth : Shutdown.timed_thread S) (x : Shutdown.timed_input I E) (T : Z) :
  let running := Shutdown.timed_step L tth x in
  T < Shutdown.since running ->
  let left := Shutdown.timed_step L running (Shutdown.terminate_at T) in
  Shutdown.position_of (Shutdown.thread_of left) = Shutdown.Exited
  /\ Shutdown.since left = Shutdown.since running
  /\ Shutdown.locals (Shutdown.thread_of left)
     = Shutdown.locals (Shutdown.thread_of running).
Proof.
  cbv zeta. intro HT.
  set (running := Shutdown.timed_step L tth x) in *.
  unfold Shutdown.timed_step at 1 2 3.
  destruct (Shutdown.position_of (Shutdown.thread_of running)) eqn:Hpos.
  - cbn [Shutdown.terminate_at Shutdown.what Shutdown.at_time].
    destruct (Z.ltb_spec T (Shutdown.since running)); [|lia].
    cbn. auto.
  - auto.
Qed.

Lemma timed_body_time {S I E : Type} (L : Shutdown.loop S I E)
    (tth : Shutdown.timed_thread S) (x : Shutdown.timed_input I E) :
  Shutdown.position_of (Shutdown.thread_of tth) = Shutdown.InGet ->
  0 <= Shutdown.backend_time x ->
  Shutdown.since (Shutdown.timed_step L tth x)
  <= Shutdown.wait_end L tth x + Shutdown.backend_time x.
Proof.
  intros Hpos Hb. unfold Shutdown.timed_step, Shutdown.wait_end, Shutdown.busy.
  rewrite Hpos.
  destruct (Shutdown.what x) as [i|e|].
  - cbn [Shutdown.since]. destruct (Shutdown.waits_backend L _ _ _); lia.
  - destruct (Shutdown.timeout L); cbn [Shutdown.since];
      [destruct (Shutdown.waits_backend L _ _ _)|]; lia.
  - destruct (_ <? _); cbn [Shutdown.since]; lia.
Qed.

(** A loop whose [get] has no timeout: after [terminate()] the thread
    stays in [get] whatever time passes, and leaves the loop when an item
    comes. *)
Lemma timed_blocked_without_timeout {S I E : Type} (L : Shutdown.loop S I E)
    (tth : Shutdown.timed_thread S) (polls : list (Shutdown.timed_input I E)) :
  Shutdown.timeout L = None ->
  Forall (fun p => exists e, Shutdown.what p = Shutdown.Elapsed e) polls ->
  Shutdown.timed_run L tth polls = tth.
Proof.
  intros Hnone Hp. revert tth. induction Hp as [|p polls [e He] _ IH]; intro tth;
    [reflexivity|].
  unfold Shutdown.timed_run in *. cbn [fold_left].
  assert (Hstep : Shutdown.timed_step L tth p = tth).
  { unfold Shutdown.timed_step. rewrite He, Hnone.
    destruct (Shutdown.position_of (Shutdown.thread_of tth)); reflexivity. }
  rewrite Hstep. apply IH.
Qed.

Lemma timed_exit_on_item {S I E : Type} (L : Shutdown.loop S I E)
    (tth : Shutdown.timed_thread S) (T : Z) (x : Shutdown.timed_input I E) (i : I) :
  Shutdown.in_wait L tth T -> Shutdown.what x = Shutdown.Item i ->
  let stopped := Shutdown.timed_step L tth (Shutdown.terminate_at T) in
  let left := Shutdown.timed_step L stopped x in
  Shutdown.position_of (Shutdown.thread_of stopped) = Shutdown.InGet
  /\ Shutdown.ended (Shutdown.thread_of stopped) = true
  /\ Shutdown.position_of (Shutdown.thread_of left) = Shutdown.Exited
  /\ Shutdown.since left
     = Z.max (Shutdown.since tth) (Shutdown.at_time x)
       + (if Shutdown.waits_backend L true
               (Shutdown.locals (Shutdown.thread_of tth))
               (Shutdown.locals (Shutdown.thread_of left))
          then Shutdown.backend_time x else 0)
  /\ Shutdown.locals (Shutdown.thread_of left)
     = Shutdown.on_item L true (Shutdown.locals (Shutdown.thread_of tth)) i.
Proof.
  intros Hw Hx. cbv zeta. rewrite (timed_terminate_in_wait L tth T Hw).
  unfold Shutdown.timed_step, Shutdown.wait_end, Shutdown.step, Shutdown.busy.
  cbn [Shutdown.thread_of Shutdown.position_of Shutdown.since Shutdown.ended
       Shutdown.locals].
  rewrite Hx.
  cbn [Shutdown.thread_of Shutdown.position_of Shutdown.since Shutdown.guard
       Shutdown.locals Shutdown.ended].
  auto.
Qed.

(** C8, as stated, fails.  The ingestion loops wait in [sync_q.get()]
    without a timeout: a thread that is waiting there when [terminate()]
    sets the flag stays in the wait for as long as no chunk arrives, here
    for 100 s.  The processing loops wait at most 0.1 s, but then run the
    body: in the high-performance adapter the chunk that ends the wait
    50 ms after [terminate()] completes an utterance and
    [recognize_google] takes 30 s, so the loop is left 30.05 s after
    [terminate()]; in the whisper.cpp adapter [terminate()] comes 10 ms
    after a flush has begun that takes 30 s, so the loop is left 29.99 s
    after it. *)
Lemma shutdown_not_bounded_by_poll_interval :
  let L := Shutdown.google_run_loop (GoogleSR.mkConfig 16000) in
  let waiting := Shutdown.mkTimedThread 0 (Shutdown.spawn false GoogleSR.init) in
  let stopped := Shutdown.timed_step L waiting (Shutdown.terminate_at 0) in
  let polls :=
    map (fun n => Shutdown.mkTimedInput (Shutdown.Elapsed tt) (Z.of_nat n * 100) 0)
      (seq 1 1000) in
  let H := Shutdown.highperf_except_process_audio_loop HighPerf.default_config in
  let pending :=
    HighPerfExcept.mkState
      (HighPerf.mkState (Wave.writeframes Wave.fresh (tone 8000 xe8 x03))
         true 1 [] [])
      false in
  let hwaiting := Shutdown.mkTimedThread 0 (Shutdown.spawn false pending) in
  let last :=
    Shutdown.mkTimedInput
      (Shutdown.Item (tone 8000 x00 x00,
                      HighPerfExcept.Answers (Recognized "hello"%string)))
      50 30000 in
  let hleft :=
    Shutdown.timed_step H (Shutdown.timed_step H hwaiting (Shutdown.terminate_at 0))
      last in
  let W := Shutdown.whisper_process_audio_loop Whisper.default_config in
  let wwaiting := Shutdown.mkTimedThread 4000 (Shutdown.spawn false (Whisper.init 0)) in
  let chunk :=
    Shutdown.mkTimedInput
      (Shutdown.Item (tone 32000 x00 x00, (4000, 34000, Some "hello"%string)))
      4000 30000 in
  let wrunning := Shutdown.timed_step W wwaiting chunk in
  let wleft := Shutdown.timed_step W wrunning (Shutdown.terminate_at 4010) in
  (Shutdown.timeout L = None /\
   Shutdown.ended (Shutdown.thread_of stopped) = true /\
   Shutdown.position_of (Shutdown.thread_of stopped) = Shutdown.InGet /\
   Shutdown.position_of (Shutdown.thread_of (Shutdown.timed_run L stopped polls))
   = Shutdown.InGet /\
   ~ Shutdown.bounded_shutdown L) /\
  (Shutdown.in_wait H hwaiting 0 /\ Shutdown.ends_wait H hwaiting last /\
   Shutdown.position_of (Shutdown.thread_of hleft) = Shutdown.Exited /\
   Shutdown.since hleft = 30050 /\
   HighPerf.produced (HighPerfExcept.inner (Shutdown.locals (Shutdown.thread_of hleft)))
   = [mkTranscription "hello"%string 95 true]) /\
  (Shutdown.in_wait W wwaiting 4000 /\ Shutdown.ends_wait W wwaiting chunk /\
   Shutdown.wait_end W wwaiting chunk = 4000 /\
   Shutdown.position_of (Shutdown.thread_of wleft) = Shutdown.Exited /\
   Shutdown.since wleft = 34000 /\
   Whisper.produced (Shutdown.locals (Shutdown.thread_of wleft))
   = [mkTranscription "hello"%string 98 true]).
Proof.
  cbv zeta. split; [|split].
  - split; [reflexivity|]. split; [reflexivity|]. split; [reflexivity|].
    split.
    + rewrite timed_blocked_without_timeout; [reflexivity|reflexivity|].
      apply Forall_forall. intros p Hin. apply in_map_iff in Hin.
      destruct Hin as [n [<- _]]. exists tt. reflexivity.
    + intro Hb.
      specialize (Hb (Shutdown.mkThread true Shutdown.InGet GoogleSR.init)
                    (Shutdown.Elapsed tt) eq_refl).
      cbn in Hb.
      assert (Hex : Shutdown.InGet = Shutdown.Exited) by (apply Hb; discriminate).
      discriminate Hex.
  - split.
    { split; [reflexivity|]. split; [cbn; lia|].
      intros t Ht. cbn in Ht. injection Ht as <-. cbn. lia. }
    split.
    { split; [discriminate|]. split; [cbn; lia|].
      intros t i Ht _. cbn in Ht. injection Ht as <-. cbn. lia. }
    vm_compute. repeat split; reflexivity.
  - split.
    { split; [reflexivity|]. split; [cbn; lia|].
      intros t Ht. cbn in Ht. injection Ht as <-. cbn. lia. }
    split.
    { split; [discriminate|]. split; [cbn; lia|].
      intros t i Ht _. cbn in Ht. injection Ht as <-. cbn. lia. }
    vm_compute. repeat split; reflexivity.
Qed.

(** C8, amended.  Every loop tests the stop flag when it is entered and
    after each iteration, never inside one.  The two [_process_audio_loop]s
    wait with [get(timeout=0.1)]: the wait in progress when [terminate()]
    is called is over at most 0.1 s later, and the loop is left when the
    iteration that this wait starts is over.  In the whisper.cpp adapter
    this is at the end of the wait, because [terminate()] has shut the
    executor down and the body no longer waits for whisper-cpp, nor
    produces anything; in the high-performance adapter it is later by the
    time [recognize_google] takes, if the iteration flushes.  When
    [terminate()] is called while the body is waiting for the backend, the
    loop is left when that call returns.  So the shutdown latency is
    bounded by the poll interval plus the duration of one backend call,
    not by the poll interval.  The three [_run_loop]s wait without a
    timeout: after [terminate()] the thread stays in [get] whatever time
    passes and leaves the loop when the next chunk arrives; in
    [GoogleSRTranscriber], whose writer [terminate()] has closed, that
    chunk is dropped. *)
Theorem shutdown_after_wait_and_backend_call (cfg : Whisper.Config)
    (hcfg : HighPerf.Config) (gcfg : GoogleSR.Config) :
  let W := Shutdown.whisper_process_audio_loop cfg in
  let H := Shutdown.highperf_except_process_audio_loop hcfg in
  (forall tth T x,
     Shutdown.in_wait W tth T -> Shutdown.ends_wait W tth x ->
     let left :=
       Shutdown.timed_step W (Shutdown.timed_step W tth (Shutdown.terminate_at T)) x in
     Shutdown.position_of (Shutdown.thread_of left) = Shutdown.Exited
     /\ Shutdown.since left = Shutdown.wait_end W tth x
     /\ Shutdown.since left <= T + 100
     /\ Whisper.produced (Shutdown.locals (Shutdown.thread_of left))
        = Whisper.produced (Shutdown.locals (Shutdown.thread_of tth))) /\
  (forall tth T x,
     Shutdown.in_wait H tth T -> Shutdown.ends_wait H tth x ->
     let before := HighPerfExcept.inner (Shutdown.locals (Shutdown.thread_of tth)) in
     let left :=
       Shutdown.timed_step H (Shutdown.timed_step H tth (Shutdown.terminate_at T)) x in
     let after := HighPerfExcept.inner (Shutdown.locals (Shutdown.thread_of left)) in
     Shutdown.position_of (Shutdown.thread_of left) = Shutdown.Exited
     /\ Shutdown.wait_end H tth x <= T + 100
     /\ Shutdown.since left
        = Shutdown.wait_end H tth x
          + (if (List.length (HighPerf.calls before)
                 <? List.length (HighPerf.calls after))%nat
             then Shutdown.backend_time x else 0)
     /\ Shutdown.since left <= T + 100 + Shutdown.backend_time x) /\
  (forall tth x T,
     Shutdown.position_of (Shutdown.thread_of tth) = Shutdown.InGet ->
     Shutdown.ends_wait W tth x ->
     let running := Shutdown.timed_step W tth x in
     Shutdown.wait_end W tth x <= T -> T < Shutdown.since running ->
     let left := Shutdown.timed_step W running (Shutdown.terminate_at T) in
     Shutdown.position_of (Shutdown.thread_of left) = Shutdown.Exited
     /\ Shutdown.since left = Shutdown.since running
     /\ Shutdown.since left <= T + Shutdown.backend_time x) /\
  (forall tth x T,
     Shutdown.position_of (Shutdown.thread_of tth) = Shutdown.InGet ->
     Shutdown.ends_wait H tth x ->
     let running := Shutdown.timed_step H tth x in
     Shutdown.wait_end H tth x <= T -> T < Shutdown.since running ->
     let left := Shutdown.timed_step H running (Shutdown.terminate_at T) in
     Shutdown.position_of (Shutdown.thread_of left) = Shutdown.Exited
     /\ Shutdown.since left = Shutdown.since running
     /\ Shutdown.since left <= T + Shutdown.backend_time x) /\
  (forall tth T times x chunk,
     let R := Shutdown.whisper_run_loop cfg in
     Shutdown.in_wait R tth T -> Shutdown.what x = Shutdown.Item chunk ->
     let stopped := Shutdown.timed_step R tth (Shutdown.terminate_at T) in
     let left := Shutdown.timed_step R stopped x in
     Shutdown.position_of (Shutdown.thread_of stopped) = Shutdown.InGet
     /\ Shutdown.timed_run R stopped
          (map (fun a => Shutdown.mkTimedInput (Shutdown.Elapsed tt) a 0) times)
        = stopped
     /\ Shutdown.position_of (Shutdown.thread_of left) = Shutdown.Exited
     /\ Shutdown.since left = Z.max (Shutdown.since tth) (Shutdown.at_time x)) /\
  (forall tth T times x chunk,
     let R := Shutdown.highperf_run_loop hcfg in
     Shutdown.in_wait R tth T -> Shutdown.what x = Shutdown.Item chunk ->
     let stopped := Shutdown.timed_step R tth (Shutdown.terminate_at T) in
     let left := Shutdown.timed_step R stopped x in
     Shutdown.position_of (Shutdown.thread_of stopped) = Shutdown.InGet
     /\ Shutdown.timed_run R stopped
          (map (fun a => Shutdown.mkTimedInput (Shutdown.Elapsed tt) a 0) times)
        = stopped
     /\ Shutdown.position_of (Shutdown.thread_of left) = Shutdown.Exited
     /\ Shutdown.since left = Z.max (Shutdown.since tth) (Shutdown.at_time x)) /\
  (forall tth T times x item,
     let R := Shutdown.google_run_loop gcfg in
     Shutdown.in_wait R tth T -> Shutdown.what x = Shutdown.Item item ->
     let stopped := Shutdown.timed_step R tth (Shutdown.terminate_at T) in
     let left := Shutdown.timed_step R stopped x in
     Shutdown.position_of (Shutdown.thread_of stopped) = Shutdown.InGet
     /\ Shutdown.timed_run R stopped
          (map (fun a => Shutdown.mkTimedInput (Shutdown.Elapsed tt) a 0) times)
        = stopped
     /\ Shutdown.position_of (Shutdown.thread_of left) = Shutdown.Exited
     /\ Shutdown.since left = Z.max (Shutdown.since tth) (Shutdown.at_time x)
     /\ Shutdown.locals (Shutdown.thread_of left)
        = Shutdown.locals (Shutdown.thread_of tth)) /\
  (forall (S : Type) (s : S),
     Shutdown.position_of (Shutdown.spawn true s) = Shutdown.Exited).
Proof.
  cbv zeta.
  assert (Hpolls : forall (I : Type) (times : list Z),
    Forall (fun p : Shutdown.timed_input I unit =>
              exists e, Shutdown.what p = Shutdown.Elapsed e)
      (map (fun a => Shutdown.mkTimedInput (Shutdown.Elapsed tt) a 0) times)).
  { intros I times. apply Forall_forall. intros p Hin. apply in_map_iff in Hin.
    destruct Hin as [a [<- _]]. exists tt. reflexivity. }
  split; [|split; [|split; [|split; [|split; [|split; [|split]]]]]].
  - intros tth T x Hw Hx.
    destruct (timed_exit_after_wait (Shutdown.whisper_process_audio_loop cfg) 100
                tth T x eq_refl Hw Hx) as (Hpos & Hsince & Hend & Hloc).
    cbv zeta in Hpos, Hsince, Hend, Hloc.
    cbn [Shutdown.whisper_process_audio_loop Shutdown.waits_backend negb andb]
      in Hsince.
    rewrite Z.add_0_r in Hsince.
    split; [exact Hpos|]. split; [exact Hsince|]. split; [lia|].
    rewrite Hloc. destruct Hx as (Hx & _).
    destruct (Shutdown.what x) as [[audio_data [[now later] reply]]|[[now later] reply]|];
      [| |contradiction Hx; reflexivity];
      cbn [Shutdown.whisper_process_audio_loop Shutdown.on_item Shutdown.on_timeout].
    + apply whisper_on_chunk_no_reply.
    + apply whisper_on_empty_no_reply.
  - intros tth T x Hw Hx.
    destruct (timed_exit_after_wait (Shutdown.highperf_except_process_audio_loop hcfg)
                100 tth T x eq_refl Hw Hx) as (Hpos & Hsince & Hend & Hloc).
    cbv zeta in Hpos, Hsince, Hend, Hloc.
    split; [exact Hpos|]. split; [exact Hend|].
    assert (Heq : Shutdown.since
              (Shutdown.timed_step (Shutdown.highperf_except_process_audio_loop hcfg)
                 (Shutdown.timed_step (Shutdown.highperf_except_process_audio_loop hcfg)
                    tth (Shutdown.terminate_at T)) x)
            = Shutdown.wait_end (Shutdown.highperf_except_process_audio_loop hcfg) tth x
              + (if (List.length (HighPerf.calls
                       (HighPerfExcept.inner (Shutdown.locals (Shutdown.thread_of tth))))
                     <? List.length (HighPerf.calls
                          (HighPerfExcept.inner
                             (Shutdown.locals
                                (Shutdown.thread_of
                                   (Shutdown.timed_step
                                      (Shutdown.highperf_except_process_audio_loop hcfg)
                                      (Shutdown.timed_step
                                         (Shutdown.highperf_except_process_audio_loop hcfg)
                                         tth (Shutdown.terminate_at T)) x))))))%nat
                 then Shutdown.backend_time x else 0)).
    { rewrite Hsince. reflexivity. }
    split; [exact Heq|].
    rewrite Heq. destruct Hx as (_ & Hb & _).
    destruct (_ <? _)%nat; lia.
  - intros tth x T Hpos Hx Hlo Hhi.
    destruct (timed_exit_after_body (Shutdown.whisper_process_audio_loop cfg) tth x T Hhi)
      as (Hp & Hs & _).
    split; [exact Hp|]. split; [exact Hs|]. rewrite Hs.
    pose proof (timed_body_time (Shutdown.whisper_process_audio_loop cfg) tth x Hpos
                  (proj1 (proj2 Hx))). lia.
  - intros tth x T Hpos Hx Hlo Hhi.
    destruct (timed_exit_after_body (Shutdown.highperf_except_process_audio_loop hcfg)
                tth x T Hhi) as (Hp & Hs & _).
    split; [exact Hp|]. split; [exact Hs|]. rewrite Hs.
    pose proof (timed_body_time (Shutdown.highperf_except_process_audio_loop hcfg)
                  tth x Hpos (proj1 (proj2 Hx))). lia.
  - intros tth T times x chunk Hw Hx.
    destruct (timed_exit_on_item (Shutdown.whisper_run_loop cfg) tth T x chunk Hw Hx)
      as (Hp0 & _ & Hp & Hs & _).
    cbv zeta in Hp0, Hp, Hs.
    split; [exact Hp0|].
    split; [apply timed_blocked_without_timeout; [reflexivity|apply Hpolls]|].
    split; [exact Hp|]. rewrite Hs.
    cbn [Shutdown.whisper_run_loop Shutdown.waits_backend]. lia.
  - intros tth T times x chunk Hw Hx.
    destruct (timed_exit_on_item (Shutdown.highperf_run_loop hcfg) tth T x chunk Hw Hx)
      as (Hp0 & _ & Hp & Hs & _).
    cbv zeta in Hp0, Hp, Hs.
    split; [exact Hp0|].
    split; [apply timed_blocked_without_timeout; [reflexivity|apply Hpolls]|].
    split; [exact Hp|]. rewrite Hs.
    cbn [Shutdown.highperf_run_loop Shutdown.waits_backend]. lia.
  - intros tth T times x item Hw Hx.
    destruct (timed_exit_on_item (Shutdown.google_run_loop gcfg) tth T x item Hw Hx)
      as (Hp0 & He0 & Hp & Hs & Hloc).
    cbv zeta in Hp0, He0, Hp, Hs, Hloc.
    assert (Hsame : Shutdown.locals
              (Shutdown.thread_of
                 (Shutdown.timed_step (Shutdown.google_run_loop gcfg)
                    (Shutdown.timed_step (Shutdown.google_run_loop gcfg) tth
                       (Shutdown.terminate_at T)) x))
            = Shutdown.locals (Shutdown.thread_of tth)).
    { rewrite Hloc. destruct item as [chunk reply]. reflexivity. }
    split; [exact Hp0|].
    split; [apply timed_blocked_without_timeout; [reflexivity|apply Hpolls]|].
    split; [exact Hp|]. split; [|exact Hsame].
    rewrite Hs, Hsame.
    cbn [Shutdown.google_run_loop Shutdown.waits_backend].
    rewrite Nat.ltb_irrefl. lia.
  - reflexivity.
Qed.

(** ** Hand-over to the backend and the transcriptions produced *)

Lemma truthy_nonempty (s : string) : truthy s = true -> s <> EmptyString.
Proof. destruct s; [discriminate|]. intros _ H. discriminate H. Qed.

Lemma payloads_nonempty (frames : bytes) :
  Forall (fun p : bytes => p <> []) (payloads frames).
Proof.
  destruct frames as [|b frames]; [constructor|].
  constructor; [discriminate|constructor].
Qed.

Lemma produce_if_text_final (c : Z) (r : google_reply)
    (produced : list Transcription) :
  Forall final_nonempty produced ->
  Forall final_nonempty (produce_if_text c r produced).
Proof.
  intro H. destruct r as [text| |]; cbn [produce_if_text]; try exact H.
  destruct (truthy text) eqn:Ht; [|exact H].
  apply Forall_app. split; [exact H|].
  constructor; [|constructor]. split; [reflexivity|].
  cbn [message]. apply truthy_nonempty. exact Ht.
Qed.

Lemma whisper_transcribe_final (cfg : Whisper.Config) (st : Whisper.state)
    (reply : option string) :
  Forall final_nonempty (Whisper.produced st) ->
  Forall final_nonempty (Whisper.produced (Whisper.transcribe_buffer cfg st reply)).
Proof.
  intro H.
  destruct (whisper_transcribe_produced cfg st reply) as [E|[text [Ht [_ E]]]];
    rewrite E; [exact H|].
  apply Forall_app. split; [exact H|].
  constructor; [|constructor]. split; [reflexivity|].
  cbn [message]. apply truthy_nonempty. exact Ht.
Qed.

Lemma whisper_transcribe_empty (cfg : Whisper.Config) (st : Whisper.state)
    (reply : option string) :
  Wave.frames (Whisper.audio_buffer st) = [] ->
  Whisper.transcribe_buffer cfg st reply = st.
Proof.
  intro Hnil. unfold Whisper.transcribe_buffer.
  rewrite len_read_close, Hnil. reflexivity.
Qed.

Lemma whisper_iter_outputs (cfg : Whisper.Config) (st : Whisper.state)
    (ev : Whisper.event) :
  Forall (fun p : bytes => p <> []) (Whisper.calls st) ->
  Forall final_nonempty (Whisper.produced st) ->
  Forall (fun p : bytes => p <> [])
    (Whisper.calls (snd (Whisper.process_audio_iter cfg st ev))) /\
  Forall final_nonempty
    (Whisper.produced (snd (Whisper.process_audio_iter cfg st ev))).
Proof.
  intros Hc Hp. split.
  - pose proof (whisper_iter_buffer cfg st ev) as H. cbv zeta in H.
    destruct (is_flush _); destruct H as [E _]; rewrite E; [|exact Hc].
    apply Forall_app. split; [exact Hc|apply payloads_nonempty].
  - destruct ev as [audio_data now later reply|now later reply];
      cbn [Whisper.process_audio_iter].
    + destruct (Z.eq_dec (len audio_data mod 2) 0) as [Heven|Hodd].
      * rewrite (whisper_on_chunk_even cfg st audio_data now later reply Heven).
        cbv zeta. destruct (Whisper.should_process _ _ _ _);
          cbn [snd Whisper.produced]; [|exact Hp].
        apply whisper_transcribe_final. exact Hp.
      * rewrite (whisper_on_chunk_odd cfg st audio_data now later reply Hodd).
        exact Hp.
    + unfold Whisper.on_empty.
      destruct (_ && _); cbn [snd Whisper.produced]; [|exact Hp].
      apply whisper_transcribe_final. exact Hp.
Qed.

Lemma whisper_loop_outputs (cfg : Whisper.Config) (evs : list Whisper.event)
    (st : Whisper.state) :
  Forall (fun p : bytes => p <> []) (Whisper.calls st) ->
  Forall final_nonempty (Whisper.produced st) ->
  Forall (fun p : bytes => p <> [])
    (Whisper.calls (snd (Whisper.process_audio_loop cfg st evs))) /\
  Forall final_nonempty
    (Whisper.produced (snd (Whisper.process_audio_loop cfg st evs))).
Proof.
  revert st. induction evs as [|ev evs IH]; intros st Hc Hp; [split; assumption|].
  cbn [Whisper.process_audio_loop].
  destruct (whisper_iter_outputs cfg st ev Hc Hp) as [Hc1 Hp1].
  destruct (Whisper.process_audio_iter cfg st ev) as [o st1]. cbn [snd] in *.
  specialize (IH st1 Hc1 Hp1).
  destruct (Whisper.process_audio_loop cfg st1 evs) as [os st2]. exact IH.
Qed.

Lemma highperf_iter_produced (cfg : HighPerf.Config) (st : HighPerf.state)
    (ev : HighPerf.event) :
  Forall final_nonempty (HighPerf.produced st) ->
  Forall final_nonempty
    (HighPerf.produced (snd (HighPerf.process_audio_iter cfg st ev))).
Proof.
  intro Hp. destruct ev as [audio_data reply|]; cbn [HighPerf.process_audio_iter];
    [|exact Hp].
  unfold HighPerf.on_chunk.
  destruct (Audio.AudioSegment audio_data) as [seg|]; [|exact Hp].
  destruct (HighPerf.classify _ _ _ _) as [speech counter].
  destruct (_ && _); cbn [snd HighPerf.produced]; [|exact Hp].
  apply produce_if_text_final. exact Hp.
Qed.

Lemma highperf_loop_produced (cfg : HighPerf.Config) (evs : list HighPerf.event)
    (st : HighPerf.state) :
  Forall final_nonempty (HighPerf.produced st) ->
  Forall final_nonempty
    (HighPerf.produced (snd (HighPerf.process_audio_loop cfg st evs))).
Proof.
  revert st. induction evs as [|ev evs IH]; intros st Hp; [exact Hp|].
  cbn [HighPerf.process_audio_loop].
  pose proof (highperf_iter_produced cfg st ev Hp) as Hp1.
  destruct (HighPerf.process_audio_iter cfg st ev) as [o st1]. cbn [snd] in *.
  specialize (IH st1 Hp1).
  destruct (HighPerf.process_audio_loop cfg st1 evs) as [os st2]. exact IH.
Qed.

Lemma google_loop_produced (cfg : GoogleSR.Config)
    (inputs : list (bytes * google_reply)) (st : GoogleSR.state) :
  Forall final_nonempty (GoogleSR.produced st) ->
  Forall final_nonempty
    (GoogleSR.produced
       (fold_left (fun s i => snd (GoogleSR.run_loop_iter cfg s (fst i) (snd i)))
          inputs st)).
Proof.
  revert st. induction inputs as [|[chunk reply] inputs IH]; intros st Hp;
    [exact Hp|].
  cbn [fold_left fst snd]. apply IH. unfold GoogleSR.run_loop_iter.
  destruct (_ <=? _); cbn [snd GoogleSR.produced GoogleSR.process_audio]; [|exact Hp].
  apply produce_if_text_final. exact Hp.
Qed.

(** C10.  In the whisper.cpp adapter a flush calls the recognition backend
    exactly when the buffer read back is longer than the 44-byte WAV
    header, that is when it holds frames, and it then passes those frames;
    on an empty buffer [_transcribe_buffer] does nothing at all.  Hence no
    call ever carries an empty payload.  In the three adapters every
    [Transcription] produced has [is_final = True] and a nonempty
    message. *)
Theorem backend_calls_and_transcriptions (cfg : Whisper.Config)
    (st : Whisper.state) (reply : option string) (t0 : Z)
    (evs : list Whisper.event)
    (hcfg : HighPerf.Config) (hevs : list HighPerf.event)
    (gcfg : GoogleSR.Config) (ginputs : list (bytes * google_reply)) :
  let w := snd (Whisper.process_audio_loop cfg (Whisper.init t0) evs) in
  let h := snd (HighPerf.process_audio_loop hcfg HighPerf.init hevs) in
  let g := fold_left
             (fun s i => snd (GoogleSR.run_loop_iter gcfg s (fst i) (snd i)))
             ginputs GoogleSR.init in
  let audio_data :=
    Wave.read (Whisper.sampling_rate cfg) (Wave.close (Whisper.audio_buffer st)) in
  (44 < len audio_data <-> Wave.frames (Whisper.audio_buffer st) <> []) /\
  Whisper.calls (Whisper.transcribe_buffer cfg st reply)
  = Whisper.calls st ++ payloads (Wave.frames (Whisper.audio_buffer st)) /\
  (Wave.frames (Whisper.audio_buffer st) = [] ->
   Whisper.transcribe_buffer cfg st reply = st) /\
  Forall (fun p : bytes => p <> []) (Whisper.calls w) /\
  Forall final_nonempty (Whisper.produced w) /\
  Forall final_nonempty (HighPerf.produced h) /\
  Forall final_nonempty (GoogleSR.produced g).
Proof.
  intros w h g audio_data.
  split; [|split; [|split; [|split; [|split; [|split]]]]].
  - unfold audio_data. rewrite len_read_close.
    pose proof (len_nonneg (Wave.frames (Whisper.audio_buffer st))) as H0.
    pose proof (len_nil_iff (Wave.frames (Whisper.audio_buffer st))) as Hnil.
    split.
    + intros Hlt E. apply Hnil in E. lia.
    + intro Hne. assert (len (Wave.frames (Whisper.audio_buffer st)) <> 0)
        by (intro E; apply Hne, Hnil, E). lia.
  - apply whisper_transcribe_calls.
  - apply whisper_transcribe_empty.
  - apply whisper_loop_outputs; constructor.
  - apply whisper_loop_outputs; constructor.
  - apply highperf_loop_produced. constructor.
  - apply google_loop_produced. constructor.
Qed.

(** * Further properties of the adapters *)

(** ** The fixed-size buffer of [GoogleSRTranscriber] *)

Lemma google_iter_buffer (cfg : GoogleSR.Config) (st : GoogleSR.state)
    (chunk : bytes) (reply : google_reply) :
  let r := GoogleSR.run_loop_iter cfg st chunk reply in
  let grown := Wave.frames (GoogleSR.audio_buffer st) ++ chunk in
  (fst r = Flushed /\ GoogleSR.buffer_size cfg <= 44 + len grown /\
   GoogleSR.calls (snd r) = GoogleSR.calls st ++ [grown] /\
   GoogleSR.audio_buffer (snd r) = Wave.fresh /\
   GoogleSR.produced (snd r) = produce_if_text 90 reply (GoogleSR.produced st))
  \/
  (fst r = Accumulated /\ 44 + len grown < GoogleSR.buffer_size cfg /\
   GoogleSR.calls (snd r) = GoogleSR.calls st /\
   Wave.frames (GoogleSR.audio_buffer (snd r)) = grown /\
   GoogleSR.produced (snd r) = GoogleSR.produced st).
Proof.
  cbv zeta. unfold GoogleSR.run_loop_iter. rewrite tell_writeframes.
  rewrite <- Z.add_assoc, <- len_app.
  destruct (Z.leb_spec (GoogleSR.buffer_size cfg)
              (44 + len (Wave.frames (GoogleSR.audio_buffer st) ++ chunk)))
    as [Hge|Hlt].
  - left. unfold GoogleSR.process_audio.
    cbn [fst snd GoogleSR.calls GoogleSR.audio_buffer GoogleSR.produced].
    rewrite raw_data_frames. cbn [Wave.frames Wave.writeframes]. auto.
  - right. cbn. auto.
Qed.

Lemma google_trace_cut (cfg : GoogleSR.Config)
    (inputs : list (bytes * google_reply)) (st : GoogleSR.state) :
  let r := google_run_loop_trace cfg st inputs in
  let c := cut (Wave.frames (GoogleSR.audio_buffer st))
             (combine (fst r) (map fst inputs)) in
  GoogleSR.calls (snd r) = GoogleSR.calls st ++ fst c
  /\ Wave.frames (GoogleSR.audio_buffer (snd r)) = snd c.
Proof.
  revert st. induction inputs as [|[chunk reply] inputs IH]; intro st.
  - cbn. rewrite app_nil_r. auto.
  - cbn [google_run_loop_trace map fst].
    pose proof (google_iter_buffer cfg st chunk reply) as Hstep. cbv zeta in Hstep.
    destruct (GoogleSR.run_loop_iter cfg st chunk reply) as [o st1].
    cbn [fst snd] in Hstep. specialize (IH st1). cbv zeta in IH.
    destruct (google_run_loop_trace cfg st1 inputs) as [os st2].
    cbn [fst snd combine cut] in *.
    destruct Hstep as [(Ho & _ & Hc & Hb & _)|(Ho & _ & Hc & Hf & _)]; subst o;
      cbn [is_flush].
    + rewrite Hb in IH. cbn [Wave.frames Wave.fresh] in IH.
      destruct (cut [] (combine os (map fst inputs))) as [closed last].
      cbn [fst snd] in *. destruct IH as [IHc IHf]. split; [|exact IHf].
      rewrite IHc, Hc, <- app_assoc. reflexivity.
    + rewrite Hf in IH. destruct IH as [IHc IHf]. rewrite IHc, Hc. auto.
Qed.

(** In [GoogleSRTranscriber] every byte received is handed to
    [recognize_google] exactly once and in arrival order, or is still in
    the buffer; the utterances are the chunks between two flushes. *)
Theorem google_chunk_order_preserved (cfg : GoogleSR.Config)
    (inputs : list (bytes * google_reply)) (st : GoogleSR.state) :
  let r := google_run_loop_trace cfg st inputs in
  let c := cut (Wave.frames (GoogleSR.audio_buffer st))
             (combine (fst r) (map fst inputs)) in
  join (GoogleSR.calls (snd r)) ++ Wave.frames (GoogleSR.audio_buffer (snd r))
  = join (GoogleSR.calls st) ++ Wave.frames (GoogleSR.audio_buffer st)
    ++ join (map fst inputs)
  /\ GoogleSR.calls (snd r) = GoogleSR.calls st ++ fst c
  /\ Wave.frames (GoogleSR.audio_buffer (snd r)) = snd c.
Proof.
  intros r c. split; [|apply google_trace_cut].
  subst r. clear c. revert st.
  induction inputs as [|[chunk reply] inputs IH]; intro st.
  - cbn. rewrite app_nil_r. reflexivity.
  - cbn [google_run_loop_trace map fst].
    pose proof (google_iter_buffer cfg st chunk reply) as Hstep. cbv zeta in Hstep.
    destruct (GoogleSR.run_loop_iter cfg st chunk reply) as [o st1].
    cbn [fst snd] in Hstep. specialize (IH st1).
    destruct (google_run_loop_trace cfg st1 inputs) as [os st2].
    cbn [fst snd] in *. rewrite IH, join_cons.
    destruct Hstep as [(_ & _ & Hc & Hb & _)|(_ & _ & Hc & Hf & _)]; rewrite Hc.
    + rewrite Hb. cbn [Wave.frames Wave.fresh app].
      rewrite join_app, join_single, <- !app_assoc. reflexivity.
    + rewrite Hf, <- !app_assoc. reflexivity.
Qed.

Lemma google_trace_bounds (cfg : GoogleSR.Config) (c : Z)
    (inputs : list (bytes * google_reply)) (st : GoogleSR.state) :
  Forall (fun i => len (fst i) <= c) inputs ->
  len (Wave.frames (GoogleSR.audio_buffer st))
  <= Z.max 0 (GoogleSR.buffer_size cfg - 45) ->
  Forall (fun p => GoogleSR.buffer_size cfg - 44 <= len p
                   /\ len p <= Z.max 0 (GoogleSR.buffer_size cfg - 45) + c)
    (GoogleSR.calls st) ->
  let st' := snd (google_run_loop_trace cfg st inputs) in
  len (Wave.frames (GoogleSR.audio_buffer st'))
  <= Z.max 0 (GoogleSR.buffer_size cfg - 45)
  /\ Forall (fun p => GoogleSR.buffer_size cfg - 44 <= len p
                      /\ len p <= Z.max 0 (GoogleSR.buffer_size cfg - 45) + c)
       (GoogleSR.calls st').
Proof.
  revert st. induction inputs as [|[chunk reply] inputs IH];
    intros st Hin Hbuf Hcalls; [split; assumption|].
  inversion Hin as [|? ? Hchunk Hrest]; subst. cbn [fst] in Hchunk.
  cbn [google_run_loop_trace].
  pose proof (google_iter_buffer cfg st chunk reply) as Hstep. cbv zeta in Hstep.
  destruct (GoogleSR.run_loop_iter cfg st chunk reply) as [o st1].
  cbn [fst snd] in Hstep.
  assert (H1 : len (Wave.frames (GoogleSR.audio_buffer st1))
               <= Z.max 0 (GoogleSR.buffer_size cfg - 45)
               /\ Forall (fun p => GoogleSR.buffer_size cfg - 44 <= len p
                                   /\ len p <= Z.max 0 (GoogleSR.buffer_size cfg - 45) + c)
                    (GoogleSR.calls st1)).
  { rewrite len_app in Hstep.
    destruct Hstep as [(_ & Hge & Hc & Hb & _)|(_ & Hlt & Hc & Hf & _)].
    - rewrite Hb, Hc. split; [cbn; lia|].
      apply Forall_app. split; [exact Hcalls|].
      constructor; [|constructor]. rewrite len_app. lia.
    - rewrite Hf, Hc, len_app. split; [lia|exact Hcalls]. }
  destruct H1 as [Hbuf1 Hcalls1]. specialize (IH st1 Hrest Hbuf1 Hcalls1).
  destruct (google_run_loop_trace cfg st1 inputs) as [os st2]. exact IH.
Qed.

(** [GoogleSRTranscriber] keeps its buffer below [buffer_size]: after every
    iteration the buffered frames are fewer than [buffer_size - 44] bytes
    (the 44-byte WAV header counts towards [tell()]), and every utterance
    handed to [recognize_google] has at least [buffer_size - 44] bytes. *)
Theorem google_buffer_below_buffer_size (cfg : GoogleSR.Config)
    (inputs : list (bytes * google_reply)) :
  let st' := snd (google_run_loop_trace cfg GoogleSR.init inputs) in
  len (Wave.frames (GoogleSR.audio_buffer st'))
  <= Z.max 0 (GoogleSR.buffer_size cfg - 45)
  /\ Forall (fun p => GoogleSR.buffer_size cfg - 44 <= len p) (GoogleSR.calls st').
Proof.
  set (c := fold_right Z.max 0 (map (fun i : bytes * google_reply => len (fst i)) inputs)).
  assert (Hin : Forall (fun i : bytes * google_reply => len (fst i) <= c) inputs).
  { subst c. induction inputs as [|i inputs IH]; constructor.
    - cbn. lia.
    - eapply Forall_impl; [|exact IH]. cbn. intros a Ha. lia. }
  destruct (google_trace_bounds cfg c inputs GoogleSR.init Hin) as [Hb Hc].
  - cbn. lia.
  - constructor.
  - split; [exact Hb|].
    eapply Forall_impl; [|exact Hc]. cbn. intros p [Hp _]. exact Hp.
Qed.

(** When no incoming chunk is longer than [c] bytes, no utterance handed to
    [recognize_google] is longer than [max(0, buffer_size - 45) + c] bytes:
    with [buffer_size = 2 * sampling_rate] bytes of 16-bit mono audio, an
    utterance is about one second long. *)
Theorem google_utterance_length (cfg : GoogleSR.Config) (c : Z)
    (inputs : list (bytes * google_reply)) :
  Forall (fun i => len (fst i) <= c) inputs ->
  Forall (fun p => GoogleSR.sampling_rate cfg * 2 - 44 <= len p
                   /\ len p <= Z.max 0 (GoogleSR.sampling_rate cfg * 2 - 45) + c)
    (GoogleSR.calls (snd (google_run_loop_trace cfg GoogleSR.init inputs))).
Proof.
  intro Hin.
  destruct (google_trace_bounds cfg c inputs GoogleSR.init Hin) as [_ Hc].
  - cbn. lia.
  - constructor.
  - exact Hc.
Qed.

Lemma google_utterance_length_witness :
  let cfg := GoogleSR.mkConfig 16000 in
  let inputs := repeat (tone 4000 xe8 x03, Recognized "hello"%string) 5 in
  Forall (fun i : bytes * google_reply => len (fst i) <= 8000) inputs /\
  Forall (fun p => 31956 <= len p /\ len p <= 39955)
    (GoogleSR.calls (snd (google_run_loop_trace cfg GoogleSR.init inputs))).
Proof.
  intros cfg inputs.
  assert (Hin : Forall (fun i : bytes * google_reply => len (fst i) <= 8000) inputs).
  { repeat constructor; vm_compute; discriminate. }
  split; [exact Hin|].
  exact (google_utterance_length cfg 8000 inputs Hin).
Defined.

(** ** Which transcriptions reach the output *)

Lemma produce_if_text_texts (confidence : Z) (o : outcome) (reply : google_reply)
    (produced : list Transcription) (rest : list (outcome * google_reply)) :
  o = Flushed ->
  produce_if_text confidence reply produced
  ++ map (fun t => mkTranscription t confidence true) (recognized_texts rest)
  = produced
    ++ map (fun t => mkTranscription t confidence true)
         (recognized_texts ((o, reply) :: rest)).
Proof.
  intros ->. destruct reply as [text| |]; cbn [produce_if_text recognized_texts];
    try reflexivity.
  destruct (truthy text); [|reflexivity].
  cbn [map]. rewrite <- app_assoc. reflexivity.
Qed.

Lemma recognized_texts_skip (o : outcome) (reply : google_reply)
    (rest : list (outcome * google_reply)) :
  o <> Flushed -> recognized_texts ((o, reply) :: rest) = recognized_texts rest.
Proof.
  intro H. destruct o; try reflexivity. contradiction H. reflexivity.
Qed.

(** [GoogleSRTranscriber] produces exactly one [Transcription] for every
    flush that [recognize_google] answers with a nonempty text, in order,
    with that text as message, confidence 0.9 and [is_final = True];
    flushes answered by [UnknownValueError], [RequestError] or an empty
    text produce nothing. *)
Theorem google_transcriptions (cfg : GoogleSR.Config)
    (inputs : list (bytes * google_reply)) (st : GoogleSR.state) :
  let r := google_run_loop_trace cfg st inputs in
  GoogleSR.produced (snd r)
  = GoogleSR.produced st
    ++ map (fun t => mkTranscription t 90 true)
         (recognized_texts (combine (fst r) (map snd inputs))).
Proof.
  revert st. induction inputs as [|[chunk reply] inputs IH]; intro st.
  - cbn. rewrite app_nil_r. reflexivity.
  - cbn [google_run_loop_trace map snd].
    pose proof (google_iter_buffer cfg st chunk reply) as Hstep. cbv zeta in Hstep.
    destruct (GoogleSR.run_loop_iter cfg st chunk reply) as [o st1].
    cbn [fst snd] in Hstep. specialize (IH st1). cbv zeta in IH.
    destruct (google_run_loop_trace cfg st1 inputs) as [os st2].
    cbn [fst snd combine] in *. rewrite IH.
    destruct Hstep as [(Ho & _ & _ & _ & Hp)|(Ho & _ & _ & _ & Hp)]; rewrite Hp.
    + apply produce_if_text_texts. exact Ho.
    + rewrite recognized_texts_skip; [reflexivity|]. rewrite Ho. discriminate.
Qed.

Lemma highperf_iter_produced_eq (cfg : HighPerf.Config) (st : HighPerf.state)
    (ev : HighPerf.event) :
  let r := HighPerf.process_audio_iter cfg st ev in
  (fst r = Flushed /\
   HighPerf.produced (snd r)
   = produce_if_text 95 (highperf_reply ev) (HighPerf.produced st))
  \/ (fst r <> Flushed /\ HighPerf.produced (snd r) = HighPerf.produced st).
Proof.
  destruct ev as [audio_data reply|]; cbn [HighPerf.process_audio_iter highperf_reply].
  - unfold HighPerf.on_chunk.
    destruct (Audio.AudioSegment audio_data) as [seg|];
      [|right; split; [discriminate|reflexivity]].
    destruct (HighPerf.classify _ _ _ _) as [speech counter].
    destruct (_ && _); cbn; [left|right]; split; auto; discriminate.
  - right. split; [discriminate|reflexivity].
Qed.

(** [OptimizedGoogleSRTranscriber] produces exactly one [Transcription]
    for every flush that [recognize_google] answers with a nonempty text,
    in order, with that text as message, confidence 0.95 and
    [is_final = True]; nothing else reaches the output. *)
Theorem highperf_transcriptions (cfg : HighPerf.Config)
    (evs : list HighPerf.event) (st : HighPerf.state) :
  let r := HighPerf.process_audio_loop cfg st evs in
  HighPerf.produced (snd r)
  = HighPerf.produced st
    ++ map (fun t => mkTranscription t 95 true)
         (recognized_texts (combine (fst r) (map highperf_reply evs))).
Proof.
  revert st. induction evs as [|ev evs IH]; intro st.
  - cbn. rewrite app_nil_r. reflexivity.
  - cbn [HighPerf.process_audio_loop map].
    pose proof (highperf_iter_produced_eq cfg st ev) as Hstep. cbv zeta in Hstep.
    destruct (HighPerf.process_audio_iter cfg st ev) as [o st1].
    cbn [fst snd] in Hstep. specialize (IH st1). cbv zeta in IH.
    destruct (HighPerf.process_audio_loop cfg st1 evs) as [os st2].
    cbn [fst snd combine] in *. rewrite IH.
    destruct Hstep as [(Ho & Hp)|(Ho & Hp)]; rewrite Hp.
    + apply produce_if_text_texts. exact Ho.
    + rewrite recognized_texts_skip; [reflexivity|exact Ho].
Qed.

(** ** The ingestion loops *)

Lemma py_suffix_len {A : Type} (k : Z) (l : list A) :
  0 <= k -> k <= len l -> len (py_suffix k l) = len l - k.
Proof.
  intros H0 Hk. unfold py_suffix, slice_index, len in *.
  destruct (Z.ltb_spec k 0) as [Hneg|_]; [lia|].
  rewrite length_skipn. lia.
Qed.

Lemma len_nil {A : Type} : len (@nil A) = 0.
Proof. reflexivity. Qed.

Lemma len_cons {A : Type} (x : A) (l : list A) : len (x :: l) = 1 + len l.
Proof. unfold len. cbn [List.length]. lia. Qed.

Lemma whisper_run_loop_iter_short (cfg : Whisper.Config) (acc chunk : bytes) :
  0 < Whisper.chunk_size cfg ->
  len acc < Whisper.chunk_size cfg ->
  len chunk <= Whisper.chunk_size cfg ->
  len (fst (Whisper.run_loop_iter cfg acc chunk)) < Whisper.chunk_size cfg.
Proof.
  intros Hcs Hacc Hchunk. unfold Whisper.run_loop_iter.
  destruct (Z.leb_spec (Whisper.chunk_size cfg) (len (acc ++ chunk))) as [Hle|Hlt];
    cbn [fst]; [|exact Hlt].
  rewrite py_suffix_len by lia. rewrite len_app. lia.
Qed.

(** When no submitted chunk is longer than [chunk_size], the whisper.cpp
    ingestion loop never holds a full chunk back: after every iteration the
    accumulator has fewer than [chunk_size] bytes, whatever the consumer
    does in between. *)
Theorem whisper_accumulator_below_chunk_size (cfg : Whisper.Config) (t0 : Z)
    (actions : list Whisper.action) :
  0 < Whisper.chunk_size cfg ->
  Forall (fun a => len (Whisper.submitted a) <= Whisper.chunk_size cfg) actions ->
  len (Whisper.accumulated_audio (fold_left (Whisper.act cfg) actions (Whisper.start t0)))
  < Whisper.chunk_size cfg.
Proof.
  intros Hcs Hall.
  assert (Hgen : forall s,
    len (Whisper.accumulated_audio s) < Whisper.chunk_size cfg ->
    len (Whisper.accumulated_audio (fold_left (Whisper.act cfg) actions s))
    < Whisper.chunk_size cfg).
  { induction actions as [|a actions IH]; intros s Hs; [exact Hs|].
    inversion Hall as [|? ? Ha Hrest]; subst. cbn [fold_left].
    apply (IH Hrest). destruct a as [chunk|now later reply]; cbn [Whisper.act].
    - cbn [Whisper.submitted] in Ha.
      pose proof (whisper_run_loop_iter_short cfg (Whisper.accumulated_audio s)
                    chunk Hcs Hs Ha) as H.
      destruct (Whisper.run_loop_iter cfg (Whisper.accumulated_audio s) chunk).
      exact H.
    - destruct (Whisper.audio_queue s); exact Hs. }
  apply Hgen. cbn. lia.
Qed.

Lemma whisper_accumulator_below_chunk_size_witness :
  let cfg := Whisper.mkConfig 16000 200 6400 500 500 2 in
  let actions :=
    [Whisper.Submit (tone 2000 x00 x00); Whisper.Poll 100 100 None;
     Whisper.Submit (tone 2000 xe8 x03)] in
  0 < Whisper.chunk_size cfg /\
  len (Whisper.accumulated_audio (fold_left (Whisper.act cfg) actions (Whisper.start 0)))
  < Whisper.chunk_size cfg.
Proof.
  intros cfg actions.
  assert (Hcs : 0 < Whisper.chunk_size cfg) by (vm_compute; reflexivity).
  split; [exact Hcs|].
  apply (whisper_accumulator_below_chunk_size cfg 0 actions Hcs).
  repeat constructor; vm_compute; discriminate.
Defined.

(** The whisper.cpp ingestion loop queues at most one chunk per iteration.
    When every submitted chunk is [d] bytes longer than [chunk_size], each
    iteration queues one chunk and leaves [d] more bytes behind: after [n]
    chunks the accumulator holds [n * d] bytes that the consumer has not
    seen. *)
Theorem whisper_backlog_grows (cfg : Whisper.Config) (t0 d : Z)
    (chunks : list bytes) :
  0 <= Whisper.chunk_size cfg -> 0 <= d ->
  Forall (fun chunk => len chunk = Whisper.chunk_size cfg + d) chunks ->
  let s := fold_left (Whisper.act cfg) (map Whisper.Submit chunks) (Whisper.start t0) in
  len (Whisper.accumulated_audio s) = len chunks * d
  /\ len (Whisper.audio_queue s) = len chunks.
Proof.
  intros Hcs Hd Hall.
  assert (Hgen : forall s,
    let s' := fold_left (Whisper.act cfg) (map Whisper.Submit chunks) s in
    len (Whisper.accumulated_audio s')
    = len (Whisper.accumulated_audio s) + len chunks * d
    /\ len (Whisper.audio_queue s') = len (Whisper.audio_queue s) + len chunks).
  { induction chunks as [|chunk chunks IH]; intro s.
    - cbn [map fold_left]. cbv zeta. unfold len. cbn [List.length]. lia.
    - inversion Hall as [|? ? Hc Hrest]; subst. cbn [map fold_left].
      specialize (IH Hrest (Whisper.act cfg s (Whisper.Submit chunk))).
      cbv zeta in IH. destruct IH as [IHa IHq]. cbv zeta. rewrite IHa, IHq.
      cbn [Whisper.act]. unfold Whisper.run_loop_iter.
      pose proof (len_nonneg (Whisper.accumulated_audio s)) as Hacc.
      assert (Hlen : len (Whisper.accumulated_audio s ++ chunk)
                     = len (Whisper.accumulated_audio s) + Whisper.chunk_size cfg + d)
        by (rewrite len_app; lia).
      destruct (Z.leb_spec (Whisper.chunk_size cfg)
                  (len (Whisper.accumulated_audio s ++ chunk))) as [Hle|Hlt];
        [|lia].
      cbn [Whisper.accumulated_audio Whisper.audio_queue].
      rewrite py_suffix_len by lia.
      unfold len in *. rewrite !length_app in *. cbn [List.length] in *.
      lia. }
  specialize (Hgen (Whisper.start t0)). cbv zeta in Hgen.
  destruct Hgen as [Ha Hq].
  cbn [Whisper.start Whisper.accumulated_audio Whisper.audio_queue] in Ha, Hq.
  unfold len in *. cbn [List.length] in *. lia.
Qed.

Lemma whisper_backlog_grows_witness :
  let cfg := Whisper.mkConfig 16000 200 6400 500 500 2 in
  let chunks := repeat (tone 4000 x00 x00) 3 in
  Forall (fun chunk => len chunk = Whisper.chunk_size cfg + 1600) chunks /\
  len (Whisper.accumulated_audio
         (fold_left (Whisper.act cfg) (map Whisper.Submit chunks) (Whisper.start 0)))
  = 4800.
Proof.
  intros cfg chunks.
  assert (Hall : Forall (fun chunk => len chunk = Whisper.chunk_size cfg + 1600) chunks).
  { repeat constructor; vm_compute; reflexivity. }
  split; [exact Hall|].
  assert (Hcs : 0 <= Whisper.chunk_size cfg) by (vm_compute; discriminate).
  assert (Hd : 0 <= 1600) by lia.
  exact (proj1 (whisper_backlog_grows cfg 0 1600 chunks Hcs Hd Hall)).
Defined.

Lemma join_uniform_len (L : Z) (l : list bytes) :
  Forall (fun chunk => len chunk = L) l -> len (join l) = len l * L.
Proof.
  induction l as [|chunk l IH]; intro H.
  - unfold len. cbn. lia.
  - inversion H as [|? ? Hc Hrest]; subst.
    rewrite join_cons, len_app, (IH Hrest), len_cons. lia.
Qed.

(** With input chunks of one fixed length [L], the batching loop of
    [OptimizedGoogleSRTranscriber] queues buffers of at least
    [2 * chunk_size] and fewer than [2 * chunk_size + L] bytes, whatever
    the consumer takes from the queue in between. *)
Theorem highperf_uniform_batches (cfg : HighPerf.Config) (L : Z)
    (actions : list HighPerf.action) :
  0 < HighPerf.chunk_size cfg -> 0 < L ->
  (forall chunk, In (HighPerf.Submit chunk) actions -> len chunk = L) ->
  Forall (fun item => HighPerf.chunk_size cfg * 2 <= len item
                      /\ len item < HighPerf.chunk_size cfg * 2 + L)
    (HighPerf.audio_queue (fold_left (HighPerf.act cfg) actions HighPerf.start)).
Proof.
  intros Hcs HL Hall.
  set (good := fun item : bytes => HighPerf.chunk_size cfg * 2 <= len item
                                   /\ len item < HighPerf.chunk_size cfg * 2 + L).
  assert (Hgen : forall s,
    Forall (fun chunk => len chunk = L) (HighPerf.current_buffer s) ->
    len (HighPerf.current_buffer s) * L < HighPerf.chunk_size cfg * 2 ->
    Forall good (HighPerf.audio_queue s) ->
    Forall good (HighPerf.audio_queue (fold_left (HighPerf.act cfg) actions s))).
  { induction actions as [|a actions IH]; intros s Hu Hn Hq; [exact Hq|].
    cbn [fold_left].
    assert (Hrest : forall chunk, In (HighPerf.Submit chunk) actions -> len chunk = L)
      by (intros chunk Hin; apply Hall; right; exact Hin).
    destruct a as [chunk|reply]; cbn [HighPerf.act].
    - assert (Hc : len chunk = L) by (apply Hall; left; reflexivity).
      unfold HighPerf.run_loop_iter.
      assert (Hu1 : Forall (fun c => len c = L) (HighPerf.current_buffer s ++ [chunk])).
      { apply Forall_app. split; [exact Hu|]. constructor; [exact Hc|constructor]. }
      assert (Hn1 : len (HighPerf.current_buffer s ++ [chunk])
                    = len (HighPerf.current_buffer s) + 1).
      { rewrite len_app, len_cons. unfold len. cbn [List.length]. lia. }
      rewrite Hc.
      destruct (Z.leb_spec (HighPerf.chunk_size cfg * 2)
                  (len (HighPerf.current_buffer s ++ [chunk]) * L)) as [Hle|Hlt].
      + apply (IH Hrest); cbn [HighPerf.current_buffer HighPerf.audio_queue].
        * constructor.
        * unfold len. cbn [List.length]. lia.
        * apply Forall_app. split; [exact Hq|].
          constructor; [|constructor]. unfold good.
          rewrite (join_uniform_len L _ Hu1). rewrite Hn1 in *. lia.
      + apply (IH Hrest); cbn [HighPerf.current_buffer HighPerf.audio_queue];
          rewrite ?app_nil_r; assumption.
    - destruct (HighPerf.audio_queue s) as [|audio_data rest] eqn:E;
        apply (IH Hrest); cbn [HighPerf.current_buffer HighPerf.audio_queue];
        try assumption; try constructor.
      inversion Hq; assumption. }
  apply Hgen; cbn [HighPerf.start HighPerf.current_buffer HighPerf.audio_queue].
  - constructor.
  - unfold len. cbn [List.length]. lia.
  - constructor.
Qed.

Lemma highperf_uniform_batches_witness :
  let cfg := HighPerf.default_config in
  let actions := repeat (HighPerf.Submit (tone 3000 x00 x00)) 4 in
  0 < HighPerf.chunk_size cfg /\
  Forall (fun item => 16000 <= len item /\ len item < 16000 + 6000)
    (HighPerf.audio_queue (fold_left (HighPerf.act cfg) actions HighPerf.start)).
Proof.
  intros cfg actions.
  assert (Hcs : 0 < HighPerf.chunk_size cfg) by (vm_compute; reflexivity).
  assert (HL : 0 < 6000) by lia.
  split; [exact Hcs|].
  apply (highperf_uniform_batches cfg 6000 actions Hcs HL).
  intros chunk Hin. apply repeat_spec in Hin. injection Hin as ->.
  vm_compute. reflexivity.
Defined.

(** ** Speech followed by silence in [OptimizedGoogleSRTranscriber] *)

Lemma highperf_loop_app (cfg : HighPerf.Config) (evs1 evs2 : list HighPerf.event)
    (st : HighPerf.state) :
  HighPerf.process_audio_loop cfg st (evs1 ++ evs2)
  = (fst (HighPerf.process_audio_loop cfg st evs1)
     ++ fst (HighPerf.process_audio_loop cfg
               (snd (HighPerf.process_audio_loop cfg st evs1)) evs2),
     snd (HighPerf.process_audio_loop cfg
            (snd (HighPerf.process_audio_loop cfg st evs1)) evs2)).
Proof.
  revert st. induction evs1 as [|ev evs1 IH]; intro st.
  - cbn [app HighPerf.process_audio_loop fst snd].
    destruct (HighPerf.process_audio_loop cfg st evs2). reflexivity.
  - cbn [app HighPerf.process_audio_loop].
    destruct (HighPerf.process_audio_iter cfg st ev) as [o st1].
    rewrite (IH st1).
    destruct (HighPerf.process_audio_loop cfg st1 evs1) as [os st2]. reflexivity.
Qed.

Lemma highperf_loud_step (cfg : HighPerf.Config) (st : HighPerf.state)
    (ev : HighPerf.event) :
  1 <= HighPerf.max_silence_chunks cfg -> highperf_loud_chunk cfg ev ->
  let r := HighPerf.process_audio_iter cfg st ev in
  fst r = Accumulated /\ HighPerf.speech_detected (snd r) = true
  /\ HighPerf.silence_counter (snd r) = 0.
Proof.
  intros Hmax Hloud. destruct ev as [audio_data reply|]; [|contradiction].
  destruct Hloud as [Heven Hrms]. cbn [HighPerf.process_audio_iter].
  rewrite (highperf_on_chunk_even cfg st audio_data reply Heven). cbv zeta.
  unfold HighPerf.classify.
  apply Z.ltb_lt in Hrms. rewrite Hrms. cbn [fst snd andb].
  destruct (Z.leb_spec (HighPerf.max_silence_chunks cfg) 0); [lia|].
  cbn. auto.
Qed.

Lemma highperf_silent_step (cfg : HighPerf.Config) (st : HighPerf.state)
    (ev : HighPerf.event) :
  highperf_silent_chunk cfg ev -> HighPerf.speech_detected st = true ->
  let r := HighPerf.process_audio_iter cfg st ev in
  (HighPerf.silence_counter st + 1 < HighPerf.max_silence_chunks cfg ->
   fst r = Accumulated /\ HighPerf.speech_detected (snd r) = true
   /\ HighPerf.silence_counter (snd r) = HighPerf.silence_counter st + 1)
  /\ (HighPerf.max_silence_chunks cfg <= HighPerf.silence_counter st + 1 ->
      fst r = Flushed /\ HighPerf.speech_detected (snd r) = false
      /\ HighPerf.silence_counter (snd r) = 0).
Proof.
  intros Hsil Hsp. destruct ev as [audio_data reply|]; [|contradiction].
  destruct Hsil as [Heven Hrms]. cbn [HighPerf.process_audio_iter].
  rewrite (highperf_on_chunk_even cfg st audio_data reply Heven). cbv zeta.
  rewrite highperf_classify_le.
  apply Z.leb_le in Hrms. rewrite Hrms, Hsp. cbn [fst snd andb].
  destruct (Z.leb_spec (HighPerf.max_silence_chunks cfg)
              (HighPerf.silence_counter st + 1)); cbn; split; intro; auto; lia.
Qed.

Lemma highperf_louds_run (cfg : HighPerf.Config) (louds : list HighPerf.event)
    (st : HighPerf.state) :
  1 <= HighPerf.max_silence_chunks cfg ->
  Forall (highperf_loud_chunk cfg) louds ->
  let r := HighPerf.process_audio_loop cfg st louds in
  fst r = repeat Accumulated (List.length louds)
  /\ (louds <> [] ->
      HighPerf.speech_detected (snd r) = true
      /\ HighPerf.silence_counter (snd r) = 0).
Proof.
  intros Hmax. revert st. induction louds as [|ev louds IH]; intros st Hl.
  - cbn. split; [reflexivity|]. intro H. contradiction H. reflexivity.
  - inversion Hl as [|? ? Hev Hrest]; subst.
    cbn [HighPerf.process_audio_loop List.length repeat].
    destruct (highperf_loud_step cfg st ev Hmax Hev) as (Ho & Hs & Hc).
    destruct (HighPerf.process_audio_iter cfg st ev) as [o st1].
    cbn [fst snd] in *. subst o.
    specialize (IH st1 Hrest). cbv zeta in IH.
    destruct louds as [|ev2 louds].
    + cbn [HighPerf.process_audio_loop fst snd List.length repeat]. auto.
    + destruct (HighPerf.process_audio_loop cfg st1 (ev2 :: louds)) as [os st2].
      cbn [fst snd] in *. destruct IH as [IHo IHs]. rewrite IHo.
      split; [reflexivity|]. intros _. apply IHs. discriminate.
Qed.

Lemma highperf_silents_run (cfg : HighPerf.Config) (quiets : list HighPerf.event)
    (st : HighPerf.state) :
  Forall (highperf_silent_chunk cfg) quiets ->
  HighPerf.speech_detected st = true ->
  HighPerf.silence_counter st + len quiets < HighPerf.max_silence_chunks cfg ->
  let r := HighPerf.process_audio_loop cfg st quiets in
  fst r = repeat Accumulated (List.length quiets)
  /\ HighPerf.speech_detected (snd r) = true
  /\ HighPerf.silence_counter (snd r) = HighPerf.silence_counter st + len quiets.
Proof.
  revert st. induction quiets as [|ev quiets IH]; intros st Hq Hsp Hlt.
  - cbn [HighPerf.process_audio_loop fst snd List.length repeat].
    unfold len. cbn [List.length]. repeat split; auto; lia.
  - inversion Hq as [|? ? Hev Hrest]; subst. rewrite len_cons in Hlt.
    pose proof (len_nonneg quiets) as Hn.
    cbn [HighPerf.process_audio_loop List.length repeat].
    destruct (highperf_silent_step cfg st ev Hev Hsp) as [Hacc _].
    destruct Hacc as (Ho & Hs & Hc); [lia|].
    destruct (HighPerf.process_audio_iter cfg st ev) as [o st1].
    cbn [fst snd] in *. subst o.
    specialize (IH st1 Hrest Hs). cbv zeta in IH.
    destruct (HighPerf.process_audio_loop cfg st1 quiets) as [os st2].
    cbn [fst snd] in *. destruct IH as (IHo & IHs & IHc); [lia|].
    rewrite IHo, IHc, Hc, len_cons. repeat split; auto; lia.
Qed.

Lemma cut_single_utterance (pending : bytes) (chunks : list bytes) (last : bytes) :
  cut pending
    (combine (repeat Accumulated (List.length chunks) ++ [Flushed])
       (chunks ++ [last]))
  = ([pending ++ join chunks ++ last], []).
Proof.
  revert pending. induction chunks as [|chunk chunks IH]; intro pending.
  - cbn. reflexivity.
  - cbn [List.length repeat app combine cut is_flush].
    rewrite IH, join_cons, <- !app_assoc. reflexivity.
Qed.

Lemma cut_no_flush (pending : bytes) (chunks : list bytes) :
  cut pending (combine (repeat Accumulated (List.length chunks)) chunks)
  = ([], pending ++ join chunks).
Proof.
  revert pending. induction chunks as [|chunk chunks IH]; intro pending.
  - cbn. rewrite app_nil_r. reflexivity.
  - cbn [List.length repeat combine cut is_flush].
    rewrite IH, join_cons, <- app_assoc. reflexivity.
Qed.

Lemma highperf_loop_unflushed_produced (cfg : HighPerf.Config)
    (evs : list HighPerf.event) (st : HighPerf.state) :
  Forall (fun o => o <> Flushed) (fst (HighPerf.process_audio_loop cfg st evs)) ->
  HighPerf.produced (snd (HighPerf.process_audio_loop cfg st evs))
  = HighPerf.produced st.
Proof.
  revert st. induction evs as [|ev evs IH]; intros st Hno; [reflexivity|].
  cbn [HighPerf.process_audio_loop] in *.
  pose proof (highperf_iter_produced_eq cfg st ev) as Hstep. cbv zeta in Hstep.
  destruct (HighPerf.process_audio_iter cfg st ev) as [o st1].
  specialize (IH st1).
  destruct (HighPerf.process_audio_loop cfg st1 evs) as [os st2].
  cbn [fst snd] in *. inversion Hno as [|? ? Ho Hos]; subst.
  destruct Hstep as [[Hf _]|[_ Hp]]; [contradiction|].
  rewrite (IH Hos). exact Hp.
Qed.

(** While the writer is open, an iteration that does not flush, or whose
    flush raises nothing unexpected, is the iteration of [HighPerf]. *)
Lemma except_iter_expected (cfg : HighPerf.Config) (st : HighPerfExcept.state)
    (ev : HighPerfExcept.event) :
  HighPerfExcept.writer_closed st = false ->
  let r := HighPerf.process_audio_iter cfg (HighPerfExcept.inner st)
             (HighPerfExcept.expected ev) in
  fst r <> Flushed
  \/ (exists audio_data reply,
        ev = HighPerfExcept.Chunk audio_data (HighPerfExcept.Answers reply)) ->
  HighPerfExcept.process_audio_iter cfg st ev
  = (fst r, HighPerfExcept.mkState (snd r) false).
Proof.
  intros Hopen r Hcase. subst r. destruct st as [s closed].
  cbn [HighPerfExcept.writer_closed HighPerfExcept.inner] in *. subst closed.
  destruct ev as [audio_data fe|]; [|reflexivity].
  destruct fe as [reply|called];
    cbn [HighPerfExcept.process_audio_iter HighPerfExcept.expected
         HighPerf.process_audio_iter] in *;
    unfold HighPerfExcept.on_chunk, HighPerf.on_chunk in *;
    cbn [HighPerfExcept.writer_closed HighPerfExcept.inner] in *;
    destruct (Audio.AudioSegment audio_data) as [seg|]; try reflexivity;
    destruct (HighPerf.classify _ _ _ _) as [speech counter];
    destruct (_ && _); try reflexivity.
  cbn [fst] in Hcase. destruct Hcase as [Hno|(d & reply & Hev)];
    [contradiction Hno; reflexivity|discriminate Hev].
Qed.

Lemma except_loop_unflushed (cfg : HighPerf.Config)
    (evs : list HighPerfExcept.event) (st : HighPerfExcept.state) :
  HighPerfExcept.writer_closed st = false ->
  let r := HighPerf.process_audio_loop cfg (HighPerfExcept.inner st)
             (map HighPerfExcept.expected evs) in
  Forall (fun o => o <> Flushed) (fst r) ->
  HighPerfExcept.process_audio_loop cfg st evs
  = (fst r, HighPerfExcept.mkState (snd r) false).
Proof.
  revert st. induction evs as [|ev evs IH]; intros st Hopen r Hno; subst r.
  - destruct st as [s closed]. cbn in *. subst closed. reflexivity.
  - cbn [map HighPerf.process_audio_loop HighPerfExcept.process_audio_loop] in *.
    pose proof (except_iter_expected cfg st ev Hopen) as Hstep. cbv zeta in Hstep.
    destruct (HighPerf.process_audio_iter cfg (HighPerfExcept.inner st)
                (HighPerfExcept.expected ev)) as [o s1].
    specialize (IH (HighPerfExcept.mkState s1 false) eq_refl). cbv zeta in IH.
    cbn [HighPerfExcept.inner] in IH.
    destruct (HighPerf.process_audio_loop cfg s1 (map HighPerfExcept.expected evs))
      as [os s2].
    cbn [fst snd] in *. inversion Hno as [|? ? Ho Hos]; subst.
    rewrite (Hstep (or_introl Ho)), (IH Hos). reflexivity.
Qed.

Lemma except_loop_app (cfg : HighPerf.Config)
    (evs1 evs2 : list HighPerfExcept.event) (st : HighPerfExcept.state) :
  HighPerfExcept.process_audio_loop cfg st (evs1 ++ evs2)
  = (fst (HighPerfExcept.process_audio_loop cfg st evs1)
     ++ fst (HighPerfExcept.process_audio_loop cfg
               (snd (HighPerfExcept.process_audio_loop cfg st evs1)) evs2),
     snd (HighPerfExcept.process_audio_loop cfg
            (snd (HighPerfExcept.process_audio_loop cfg st evs1)) evs2)).
Proof.
  revert st. induction evs1 as [|ev evs1 IH]; intro st.
  - cbn [app HighPerfExcept.process_audio_loop fst snd].
    destruct (HighPerfExcept.process_audio_loop cfg st evs2). reflexivity.
  - cbn [app HighPerfExcept.process_audio_loop].
    destruct (HighPerfExcept.process_audio_iter cfg st ev) as [o st1].
    rewrite (IH st1).
    destruct (HighPerfExcept.process_audio_loop cfg st1 evs1) as [os st2].
    reflexivity.
Qed.

(** Once the writer is closed, every chunk ends in the exception handler
    and the state no longer changes. *)
Lemma except_closed_stuck (cfg : HighPerf.Config)
    (evs : list HighPerfExcept.event) (st : HighPerfExcept.state) :
  HighPerfExcept.writer_closed st = true ->
  snd (HighPerfExcept.process_audio_loop cfg st evs) = st
  /\ Forall (fun o => o = Rejected \/ o = Waited)
       (fst (HighPerfExcept.process_audio_loop cfg st evs)).
Proof.
  intro Hclosed. induction evs as [|ev evs IH]; [split; [reflexivity|constructor]|].
  cbn [HighPerfExcept.process_audio_loop].
  assert (Hstep : HighPerfExcept.process_audio_iter cfg st ev
                  = (match ev with
                     | HighPerfExcept.Chunk _ _ => Rejected
                     | HighPerfExcept.Empty => Waited
                     end, st)).
  { destruct ev as [audio_data fe|]; cbn [HighPerfExcept.process_audio_iter];
      [|reflexivity].
    unfold HighPerfExcept.on_chunk. rewrite Hclosed. reflexivity. }
  rewrite Hstep.
  destruct (HighPerfExcept.process_audio_loop cfg st evs) as [os st2].
  cbn [fst snd] in *. destruct IH as [IHs IHo]. split; [exact IHs|].
  constructor; [destruct ev; auto|exact IHo].
Qed.

(** In [OptimizedGoogleSRTranscriber], with the writer open, one or more
    loud chunks followed by [max_silence_chunks] silent chunks reach the
    flush block on the last silent chunk and not before.  When nothing
    unexpected is raised there, this is the one flush: the utterance handed
    to [recognize_google] is what was buffered before followed by all
    these chunks in order, its answer decides what is produced, and
    afterwards the buffer is empty, [speech_detected] is false and the
    silence counter is 0.  When something else is raised, the iteration
    ends in the exception handler: nothing is produced, nothing is reset,
    the writer stays closed, and from then on every chunk is dropped, so
    the transcriber never flushes again. *)
Theorem highperf_speech_then_silence (cfg : HighPerf.Config)
    (st : HighPerfExcept.state) (louds quiets : list HighPerfExcept.event)
    (audio_data : bytes) (fe : HighPerfExcept.flush_end) :
  HighPerfExcept.writer_closed st = false ->
  louds <> [] ->
  Forall (fun ev => highperf_loud_chunk cfg (HighPerfExcept.expected ev)) louds ->
  Forall (fun ev => highperf_silent_chunk cfg (HighPerfExcept.expected ev))
    (quiets ++ [HighPerfExcept.Chunk audio_data fe]) ->
  len (quiets ++ [HighPerfExcept.Chunk audio_data fe])
  = HighPerf.max_silence_chunks cfg ->
  let evs := louds ++ quiets ++ [HighPerfExcept.Chunk audio_data fe] in
  let r := HighPerfExcept.process_audio_loop cfg st evs in
  let before := HighPerfExcept.inner st in
  let after := HighPerfExcept.inner (snd r) in
  let utterance :=
    Wave.frames (HighPerf.accumulated_audio before)
    ++ join (map (fun ev => highperf_dequeued (HighPerfExcept.expected ev)) evs) in
  match fe with
  | HighPerfExcept.Answers reply =>
      fst r = repeat Accumulated (List.length louds + List.length quiets) ++ [Flushed]
      /\ HighPerf.calls after = HighPerf.calls before ++ [utterance]
      /\ HighPerf.produced after = produce_if_text 95 reply (HighPerf.produced before)
      /\ Wave.frames (HighPerf.accumulated_audio after) = []
      /\ HighPerf.speech_detected after = false
      /\ HighPerf.silence_counter after = 0
      /\ HighPerfExcept.writer_closed (snd r) = false
  | HighPerfExcept.Raises called =>
      fst r = repeat Accumulated (List.length louds + List.length quiets) ++ [Rejected]
      /\ HighPerf.calls after
         = HighPerf.calls before ++ (if called then [utterance] else [])
      /\ HighPerf.produced after = HighPerf.produced before
      /\ Wave.frames (HighPerf.accumulated_audio after) = utterance
      /\ HighPerf.speech_detected after = true
      /\ HighPerf.silence_counter after = HighPerf.max_silence_chunks cfg
      /\ HighPerfExcept.writer_closed (snd r) = true
      /\ (forall more,
            snd (HighPerfExcept.process_audio_loop cfg (snd r) more) = snd r
            /\ Forall (fun o => o = Rejected \/ o = Waited)
                 (fst (HighPerfExcept.process_audio_loop cfg (snd r) more)))
  end.
Proof.
  intros Hopen Hne Hl Hq Hlen evs r before after utterance.
  apply Forall_app in Hq. destruct Hq as [Hq Hlast].
  inversion Hlast as [|? ? Hlast1 _]; subst.
  rewrite len_app, len_cons in Hlen. unfold len at 2 in Hlen.
  cbn [List.length] in Hlen.
  pose proof (len_nonneg quiets) as Hn.
  assert (Hmax : 1 <= HighPerf.max_silence_chunks cfg) by lia.
  (* the iterations before the last one *)
  set (louds' := map HighPerfExcept.expected louds).
  set (quiets' := map HighPerfExcept.expected quiets).
  assert (Hl' : Forall (highperf_loud_chunk cfg) louds')
    by (apply Forall_map; exact Hl).
  assert (Hq' : Forall (highperf_silent_chunk cfg) quiets')
    by (apply Forall_map; exact Hq).
  assert (Hne' : louds' <> [])
    by (subst louds'; destruct louds; [contradiction Hne; reflexivity|discriminate]).
  destruct (highperf_louds_run cfg louds' before Hmax Hl') as [Ho1 Hs1].
  destruct (Hs1 Hne') as [Hsp1 Hc1]. clear Hs1.
  set (s1 := snd (HighPerf.process_audio_loop cfg before louds')) in *.
  assert (Hlenq : len quiets' = len quiets)
    by (unfold len, quiets'; rewrite length_map; reflexivity).
  destruct (highperf_silents_run cfg quiets' s1 Hq' Hsp1) as (Ho2 & Hsp2 & Hc2);
    [lia|].
  set (s2 := snd (HighPerf.process_audio_loop cfg s1 quiets')) in *.
  assert (Hrun : HighPerf.process_audio_loop cfg before
                   (map HighPerfExcept.expected (louds ++ quiets))
                 = (repeat Accumulated (List.length louds + List.length quiets), s2)).
  { rewrite map_app. fold louds' quiets'. rewrite highperf_loop_app.
    fold s1. fold s2. rewrite Ho1, Ho2, repeat_app.
    unfold louds', quiets'. rewrite !length_map. reflexivity. }
  assert (Hno : Forall (fun o => o <> Flushed)
                  (repeat Accumulated (List.length louds + List.length quiets))).
  { apply Forall_forall. intros o Hin. apply repeat_spec in Hin. subst o.
    discriminate. }
  pose proof (except_loop_unflushed cfg (louds ++ quiets) st Hopen) as Hfull.
  cbv zeta in Hfull. fold before in Hfull. rewrite Hrun in Hfull.
  cbn [fst snd] in Hfull. specialize (Hfull Hno).
  pose proof (highperf_loop_cut cfg (map HighPerfExcept.expected (louds ++ quiets))
                before) as Hcut.
  cbv zeta in Hcut. rewrite Hrun in Hcut. cbn [fst snd] in Hcut.
  assert (Hlen2 : (List.length louds + List.length quiets)%nat
                  = List.length (map highperf_dequeued
                                   (map HighPerfExcept.expected (louds ++ quiets)))).
  { rewrite !length_map, length_app. reflexivity. }
  rewrite Hlen2, cut_no_flush in Hcut. cbn [fst snd] in Hcut.
  rewrite app_nil_r in Hcut. destruct Hcut as [Hcalls2 Hframes2].
  pose proof (highperf_loop_unflushed_produced cfg
                (map HighPerfExcept.expected (louds ++ quiets)) before) as Hprod2.
  rewrite Hrun in Hprod2. cbn [fst snd] in Hprod2. specialize (Hprod2 Hno).
  (* the utterance *)
  assert (Hutt : utterance
                 = Wave.frames (HighPerf.accumulated_audio s2) ++ audio_data).
  { subst utterance evs. rewrite Hframes2, !map_app, !join_app.
    cbn [map]. rewrite join_single, !map_map, <- !app_assoc.
    destruct fe; reflexivity. }
  (* the last iteration *)
  assert (Hr : r = (repeat Accumulated (List.length louds + List.length quiets)
                    ++ [fst (HighPerfExcept.on_chunk cfg
                               (HighPerfExcept.mkState s2 false) audio_data fe)],
                    snd (HighPerfExcept.on_chunk cfg
                           (HighPerfExcept.mkState s2 false) audio_data fe))).
  { subst r evs. rewrite app_assoc, except_loop_app, Hfull. cbn [fst snd].
    cbn [HighPerfExcept.process_audio_loop HighPerfExcept.process_audio_iter].
    destruct (HighPerfExcept.on_chunk cfg (HighPerfExcept.mkState s2 false)
                audio_data fe) as [o st3].
    reflexivity. }
  assert (Heven : len audio_data mod 2 = 0 /\
                  Audio.rms audio_data <= HighPerf.energy_threshold cfg).
  { destruct fe; exact Hlast1. }
  destruct Heven as [Heven Hrms].
  assert (Hstep : HighPerfExcept.on_chunk cfg (HighPerfExcept.mkState s2 false)
                    audio_data fe
                  = match fe with
                    | HighPerfExcept.Answers reply =>
                        (Flushed,
                         HighPerfExcept.mkState
                           (HighPerf.mkState Wave.fresh false 0
                              (HighPerf.calls s2 ++ [utterance])
                              (produce_if_text 95 reply (HighPerf.produced s2)))
                           false)
                    | HighPerfExcept.Raises called =>
                        (Rejected,
                         HighPerfExcept.mkState
                           (HighPerf.mkState
                              (Wave.close
                                 (Wave.writeframes (HighPerf.accumulated_audio s2)
                                    audio_data))
                              true (HighPerf.max_silence_chunks cfg)
                              (if called then HighPerf.calls s2 ++ [utterance]
                               else HighPerf.calls s2)
                              (HighPerf.produced s2))
                           true)
                    end).
  { unfold HighPerfExcept.on_chunk.
    cbn [HighPerfExcept.writer_closed HighPerfExcept.inner].
    rewrite (AudioSegment_even _ Heven), highperf_classify_le.
    apply Z.leb_le in Hrms. rewrite Hrms, Hsp2, Hc2, Hc1, Hlenq.
    cbn [andb].
    destruct (Z.leb_spec (HighPerf.max_silence_chunks cfg) (0 + len quiets + 1));
      [|lia].
    rewrite raw_data_frames. cbn [Wave.writeframes Wave.frames].
    rewrite <- Hutt.
    replace (0 + len quiets + 1) with (HighPerf.max_silence_chunks cfg) by lia.
    reflexivity. }
  rewrite Hstep in Hr. subst after. rewrite Hr. cbn [fst snd].
  destruct fe as [reply|called];
    cbn [map fst snd HighPerfExcept.inner HighPerfExcept.writer_closed
         HighPerf.calls HighPerf.produced HighPerf.accumulated_audio
         HighPerf.speech_detected HighPerf.silence_counter Wave.frames Wave.fresh
         Wave.close Wave.writeframes].
  - rewrite Hcalls2, Hprod2. repeat split; reflexivity.
  - rewrite Hcalls2, Hprod2, <- Hutt.
    split; [reflexivity|].
    split; [destruct called; rewrite ?app_nil_r; reflexivity|].
    split; [reflexivity|]. split; [reflexivity|]. split; [reflexivity|].
    split; [reflexivity|]. split; [reflexivity|].
    intro more. apply except_closed_stuck. reflexivity.
Qed.

Lemma highperf_speech_then_silence_witness :
  let cfg := HighPerf.default_config in
  let louds :=
    [HighPerfExcept.Chunk (tone 8000 xe8 x03)
       (HighPerfExcept.Answers UnknownValueError)] in
  let quiets :=
    [HighPerfExcept.Chunk (tone 8000 x00 x00)
       (HighPerfExcept.Answers UnknownValueError)] in
  let audio_data := tone 8000 x00 x00 in
  let fe := HighPerfExcept.Raises true in
  let r := HighPerfExcept.process_audio_loop cfg HighPerfExcept.init
             (louds ++ quiets ++ [HighPerfExcept.Chunk audio_data fe]) in
  Forall (fun ev => highperf_loud_chunk cfg (HighPerfExcept.expected ev)) louds /\
  Forall (fun ev => highperf_silent_chunk cfg (HighPerfExcept.expected ev))
    (quiets ++ [HighPerfExcept.Chunk audio_data fe]) /\
  fst r = [Accumulated; Accumulated; Rejected] /\
  HighPerfExcept.writer_closed (snd r) = true /\
  HighPerf.silence_counter (HighPerfExcept.inner (snd r)) = 2.
Proof.
  intros cfg louds quiets audio_data fe r.
  assert (Hl : Forall (fun ev => highperf_loud_chunk cfg (HighPerfExcept.expected ev))
                 louds).
  { repeat constructor; vm_compute; reflexivity. }
  assert (Hq : Forall (fun ev => highperf_silent_chunk cfg
                                   (HighPerfExcept.expected ev))
                 (quiets ++ [HighPerfExcept.Chunk audio_data fe])).
  { repeat constructor; vm_compute; try reflexivity; discriminate. }
  assert (Hne : louds <> []) by discriminate.
  assert (Hlen : len (quiets ++ [HighPerfExcept.Chunk audio_data fe])
                 = HighPerf.max_silence_chunks cfg)
    by (vm_compute; reflexivity).
  pose proof (highperf_speech_then_silence cfg HighPerfExcept.init louds quiets
                audio_data fe eq_refl Hne Hl Hq Hlen) as H.
  cbv zeta in H. cbv iota in H.
  split; [exact Hl|]. split; [exact Hq|].
  split; [exact (proj1 H)|].
  split; [exact (proj1 (proj2 (proj2 (proj2 (proj2 (proj2 (proj2 H)))))))|].
  exact (proj1 (proj2 (proj2 (proj2 (proj2 (proj2 H)))))).
Defined.

(** ** The two descriptions of [OptimizedGoogleSRTranscriber] *)

(** As long as the flush block raises nothing but the two exceptions it
    catches, the loop with every exception is the loop of [HighPerf]: same
    outcomes, same state, and the writer stays open. *)
Theorem highperf_answered_run (cfg : HighPerf.Config)
    (evs : list HighPerfExcept.event) (st : HighPerfExcept.state) :
  HighPerfExcept.writer_closed st = false ->
  Forall HighPerfExcept.answered evs ->
  let r := HighPerf.process_audio_loop cfg (HighPerfExcept.inner st)
             (map HighPerfExcept.expected evs) in
  HighPerfExcept.process_audio_loop cfg st evs
  = (fst r, HighPerfExcept.mkState (snd r) false).
Proof.
  revert st. induction evs as [|ev evs IH]; intros st Hopen Ha r; subst r.
  - destruct st as [s closed]. cbn in *. subst closed. reflexivity.
  - inversion Ha as [|? ? Hev Hrest]; subst.
    cbn [map HighPerf.process_audio_loop HighPerfExcept.process_audio_loop].
    pose proof (except_iter_expected cfg st ev Hopen) as Hstep. cbv zeta in Hstep.
    rewrite Hstep.
    + destruct (HighPerf.process_audio_iter cfg (HighPerfExcept.inner st)
                  (HighPerfExcept.expected ev)) as [o s1].
      cbn [fst snd].
      specialize (IH (HighPerfExcept.mkState s1 false) eq_refl Hrest).
      cbv zeta in IH. cbn [HighPerfExcept.inner] in IH. rewrite IH.
      destruct (HighPerf.process_audio_loop cfg s1
                  (map HighPerfExcept.expected evs)) as [os s2].
      reflexivity.
    + destruct ev as [audio_data [reply|called]|].
      * right. exists audio_data, reply. reflexivity.
      * contradiction Hev.
      * left. cbn. discriminate.
Qed.

Lemma highperf_answered_run_witness :
  let cfg := HighPerf.default_config in
  let evs :=
    [HighPerfExcept.Chunk (tone 8000 xe8 x03)
       (HighPerfExcept.Answers UnknownValueError);
     HighPerfExcept.Empty;
     HighPerfExcept.Chunk (tone 8000 x00 x00)
       (HighPerfExcept.Answers UnknownValueError);
     HighPerfExcept.Chunk (tone 8000 x00 x00)
       (HighPerfExcept.Answers (Recognized "hello"%string))] in
  let r := HighPerfExcept.process_audio_loop cfg HighPerfExcept.init evs in
  Forall HighPerfExcept.answered evs /\
  fst r = [Accumulated; Waited; Accumulated; Flushed] /\
  HighPerf.produced (HighPerfExcept.inner (snd r))
  = [mkTranscription "hello"%string 95 true] /\
  HighPerfExcept.writer_closed (snd r) = false.
Proof.
  intros cfg evs r.
  assert (Ha : Forall HighPerfExcept.answered evs) by (repeat constructor).
  split; [exact Ha|].
  subst r.
  rewrite (highperf_answered_run cfg evs HighPerfExcept.init eq_refl Ha).
  vm_compute. repeat split; reflexivity.
Defined.

(** ** Speech followed by silence in [WhisperCPPTranscriber] *)

Lemma whisper_loop_app (cfg : Whisper.Config) (evs1 evs2 : list Whisper.event)
    (st : Whisper.state) :
  Whisper.process_audio_loop cfg st (evs1 ++ evs2)
  = (fst (Whisper.process_audio_loop cfg st evs1)
     ++ fst (Whisper.process_audio_loop cfg
               (snd (Whisper.process_audio_loop cfg st evs1)) evs2),
     snd (Whisper.process_audio_loop cfg
            (snd (Whisper.process_audio_loop cfg st evs1)) evs2)).
Proof.
  revert st. induction evs1 as [|ev evs1 IH]; intro st.
  - cbn [app Whisper.process_audio_loop fst snd].
    destruct (Whisper.process_audio_loop cfg st evs2). reflexivity.
  - cbn [app Whisper.process_audio_loop].
    destruct (Whisper.process_audio_iter cfg st ev) as [o st1].
    rewrite (IH st1).
    destruct (Whisper.process_audio_loop cfg st1 evs1) as [os st2]. reflexivity.
Qed.

Lemma whisper_loud_step (cfg : Whisper.Config) (st : Whisper.state)
    (ev : Whisper.event) :
  1 <= Whisper.max_silence_chunks cfg -> whisper_loud_chunk cfg ev ->
  whisper_now ev - Whisper.buffer_start_time st < Whisper.chunk_duration cfg * 2 ->
  let r := Whisper.process_audio_iter cfg st ev in
  fst r = Accumulated /\ Whisper.has_speech (snd r) = true
  /\ Whisper.silence_counter (snd r) = 0
  /\ Whisper.buffer_start_time (snd r) = Whisper.buffer_start_time st.
Proof.
  intros Hmax Hloud Hcap.
  destruct ev as [audio_data now later reply|]; [|contradiction].
  destruct Hloud as [Heven Hrms]. cbn [Whisper.process_audio_iter whisper_now] in *.
  rewrite (whisper_on_chunk_even cfg st audio_data now later reply Heven). cbv zeta.
  unfold Whisper.classify, Whisper.should_process.
  apply Z.ltb_lt in Hrms. rewrite Hrms. cbn [fst snd andb].
  destruct (Z.leb_spec (Whisper.max_silence_chunks cfg) 0); [lia|].
  destruct (Z.leb_spec (Whisper.chunk_duration cfg * 2)
              (now - Whisper.buffer_start_time st)); [lia|].
  cbn. auto.
Qed.

Lemma whisper_silent_step (cfg : Whisper.Config) (st : Whisper.state)
    (ev : Whisper.event) :
  whisper_silent_chunk cfg ev -> Whisper.has_speech st = true ->
  whisper_now ev - Whisper.buffer_start_time st < Whisper.chunk_duration cfg * 2 ->
  let r := Whisper.process_audio_iter cfg st ev in
  (Whisper.silence_counter st + 1 < Whisper.max_silence_chunks cfg ->
   fst r = Accumulated /\ Whisper.has_speech (snd r) = true
   /\ Whisper.silence_counter (snd r) = Whisper.silence_counter st + 1
   /\ Whisper.buffer_start_time (snd r) = Whisper.buffer_start_time st)
  /\ (Whisper.max_silence_chunks cfg <= Whisper.silence_counter st + 1 ->
      Whisper.min_chunk_duration cfg
      <= whisper_now ev - Whisper.buffer_start_time st ->
      fst r = Flushed /\ Whisper.has_speech (snd r) = false
      /\ Whisper.silence_counter (snd r) = 0
      /\ Whisper.buffer_start_time (snd r) = whisper_later ev).
Proof.
  intros Hsil Hsp Hcap.
  destruct ev as [audio_data now later reply|]; [|contradiction].
  destruct Hsil as [Heven Hrms].
  cbn [Whisper.process_audio_iter whisper_now whisper_later] in *.
  rewrite (whisper_on_chunk_even cfg st audio_data now later reply Heven). cbv zeta.
  rewrite whisper_classify_le. unfold Whisper.should_process.
  apply Z.leb_le in Hrms. rewrite Hrms, Hsp. cbn [fst snd andb].
  destruct (Z.leb_spec (Whisper.chunk_duration cfg * 2)
              (now - Whisper.buffer_start_time st)); [lia|].
  rewrite orb_false_r.
  destruct (Z.leb_spec (Whisper.max_silence_chunks cfg)
              (Whisper.silence_counter st + 1));
    destruct (Z.leb_spec (Whisper.min_chunk_duration cfg)
                (now - Whisper.buffer_start_time st));
    cbn; split; intros; auto; lia.
Qed.

Lemma whisper_louds_run (cfg : Whisper.Config) (louds : list Whisper.event)
    (st : Whisper.state) :
  1 <= Whisper.max_silence_chunks cfg ->
  Forall (whisper_loud_chunk cfg) louds ->
  Forall (fun ev => whisper_now ev - Whisper.buffer_start_time st
                    < Whisper.chunk_duration cfg * 2) louds ->
  let r := Whisper.process_audio_loop cfg st louds in
  fst r = repeat Accumulated (List.length louds)
  /\ Whisper.buffer_start_time (snd r) = Whisper.buffer_start_time st
  /\ (louds <> [] ->
      Whisper.has_speech (snd r) = true /\ Whisper.silence_counter (snd r) = 0).
Proof.
  intros Hmax. revert st. induction louds as [|ev louds IH]; intros st Hl Ht.
  - cbn. split; [reflexivity|]. split; [reflexivity|].
    intro H. contradiction H. reflexivity.
  - inversion Hl as [|? ? Hev Hrest]; subst.
    inversion Ht as [|? ? Htev Htrest]; subst.
    cbn [Whisper.process_audio_loop List.length repeat].
    destruct (whisper_loud_step cfg st ev Hmax Hev Htev) as (Ho & Hs & Hc & Hst).
    destruct (Whisper.process_audio_iter cfg st ev) as [o st1].
    cbn [fst snd] in *. subst o. rewrite <- Hst in Htrest.
    specialize (IH st1 Hrest Htrest). cbv zeta in IH.
    destruct louds as [|ev2 louds].
    + cbn [Whisper.process_audio_loop fst snd List.length repeat]. auto.
    + destruct (Whisper.process_audio_loop cfg st1 (ev2 :: louds)) as [os st2].
      cbn [fst snd] in *. destruct IH as (IHo & IHst & IHs). rewrite IHo, IHst.
      split; [reflexivity|]. split; [exact Hst|].
      intros _. apply IHs. discriminate.
Qed.

Lemma whisper_silents_run (cfg : Whisper.Config) (quiets : list Whisper.event)
    (st : Whisper.state) :
  Forall (whisper_silent_chunk cfg) quiets ->
  Forall (fun ev => whisper_now ev - Whisper.buffer_start_time st
                    < Whisper.chunk_duration cfg * 2) quiets ->
  Whisper.has_speech st = true ->
  Whisper.silence_counter st + len quiets < Whisper.max_silence_chunks cfg ->
  let r := Whisper.process_audio_loop cfg st quiets in
  fst r = repeat Accumulated (List.length quiets)
  /\ Whisper.has_speech (snd r) = true
  /\ Whisper.silence_counter (snd r) = Whisper.silence_counter st + len quiets
  /\ Whisper.buffer_start_time (snd r) = Whisper.buffer_start_time st.
Proof.
  revert st. induction quiets as [|ev quiets IH]; intros st Hq Ht Hsp Hlt.
  - cbn [Whisper.process_audio_loop fst snd List.length repeat].
    unfold len. cbn [List.length]. repeat split; auto; lia.
  - inversion Hq as [|? ? Hev Hrest]; subst.
    inversion Ht as [|? ? Htev Htrest]; subst. rewrite len_cons in Hlt.
    pose proof (len_nonneg quiets) as Hn.
    cbn [Whisper.process_audio_loop List.length repeat].
    destruct (whisper_silent_step cfg st ev Hev Hsp Htev) as [Hacc _].
    destruct Hacc as (Ho & Hs & Hc & Hst); [lia|].
    destruct (Whisper.process_audio_iter cfg st ev) as [o st1].
    cbn [fst snd] in *. subst o. rewrite <- Hst in Htrest.
    specialize (IH st1 Hrest Htrest Hs). cbv zeta in IH.
    destruct (Whisper.process_audio_loop cfg st1 quiets) as [os st2].
    cbn [fst snd] in *. destruct IH as (IHo & IHs & IHc & IHst); [lia|].
    rewrite IHo, IHc, IHst, Hc, len_cons. repeat split; auto; lia.
Qed.

(** In [WhisperCPPTranscriber], one or more loud chunks followed by
    [max_silence_chunks] silent chunks, all processed before the duration
    cap and the last one at least [min_chunk_duration] after the buffer was
    opened, give exactly one flush, on the last silent chunk: what was
    buffered before followed by all these chunks in order is handed to
    whisper.cpp as one utterance, and afterwards the buffer is empty,
    [has_speech] is false, the silence counter is 0 and the buffer's start
    time is the clock read after the flush. *)
Theorem whisper_speech_then_silence (cfg : Whisper.Config)
    (st : Whisper.state) (louds quiets : list Whisper.event)
    (last : Whisper.event) :
  louds <> [] ->
  Forall (whisper_loud_chunk cfg) louds ->
  Forall (whisper_silent_chunk cfg) (quiets ++ [last]) ->
  len (quiets ++ [last]) = Whisper.max_silence_chunks cfg ->
  Forall (fun ev => whisper_now ev - Whisper.buffer_start_time st
                    < Whisper.chunk_duration cfg * 2)
    (louds ++ quiets ++ [last]) ->
  Whisper.min_chunk_duration cfg <= whisper_now last - Whisper.buffer_start_time st ->
  let r := Whisper.process_audio_loop cfg st (louds ++ quiets ++ [last]) in
  fst r = repeat Accumulated (List.length louds + List.length quiets) ++ [Flushed]
  /\ Whisper.calls (snd r)
     = Whisper.calls st
       ++ payloads (Wave.frames (Whisper.audio_buffer st)
                    ++ join (map whisper_dequeued (louds ++ quiets ++ [last])))
  /\ Wave.frames (Whisper.audio_buffer (snd r)) = []
  /\ Whisper.has_speech (snd r) = false
  /\ Whisper.silence_counter (snd r) = 0
  /\ Whisper.buffer_start_time (snd r) = whisper_later last.
Proof.
  intros Hne Hl Hq Hlen Ht Hmin r.
  apply Forall_app in Hq. destruct Hq as [Hq Hlast].
  inversion Hlast as [|? ? Hlast1 _]; subst.
  apply Forall_app in Ht. destruct Ht as [Htl Ht].
  apply Forall_app in Ht. destruct Ht as [Htq Htlast].
  inversion Htlast as [|? ? Htlast1 _]; subst.
  rewrite len_app, len_cons in Hlen. unfold len at 2 in Hlen. cbn [List.length] in Hlen.
  pose proof (len_nonneg quiets) as Hn.
  assert (Hmax : 1 <= Whisper.max_silence_chunks cfg) by lia.
  assert (Hout : fst r = repeat Accumulated (List.length louds + List.length quiets)
                         ++ [Flushed]
                 /\ Whisper.has_speech (snd r) = false
                 /\ Whisper.silence_counter (snd r) = 0
                 /\ Whisper.buffer_start_time (snd r) = whisper_later last).
  { subst r. rewrite whisper_loop_app.
    destruct (whisper_louds_run cfg louds st Hmax Hl Htl) as (Ho1 & Hst1 & Hs1).
    destruct (Hs1 Hne) as [Hsp1 Hc1]. clear Hs1.
    set (st1 := snd (Whisper.process_audio_loop cfg st louds)) in *.
    rewrite whisper_loop_app. rewrite <- Hst1 in Htq, Htlast1, Hmin.
    destruct (whisper_silents_run cfg quiets st1 Hq Htq Hsp1)
      as (Ho2 & Hsp2 & Hc2 & Hst2); [lia|].
    set (st2 := snd (Whisper.process_audio_loop cfg st1 quiets)) in *.
    cbn [Whisper.process_audio_loop]. rewrite <- Hst2 in Htlast1, Hmin.
    destruct (whisper_silent_step cfg st2 last Hlast1 Hsp2 Htlast1) as [_ Hfl].
    destruct Hfl as (Ho3 & Hsp3 & Hc3 & Hst3); [lia|exact Hmin|].
    destruct (Whisper.process_audio_iter cfg st2 last) as [o st3].
    cbn [fst snd] in *. subst o.
    rewrite Ho1, Ho2, repeat_app, <- app_assoc. auto. }
  destruct Hout as (Ho & Hsp & Hc & Hst).
  pose proof (whisper_loop_cut cfg (louds ++ quiets ++ [last]) st) as Hcut.
  cbv zeta in Hcut. fold r in Hcut. rewrite Ho in Hcut.
  assert (Hmap : map whisper_dequeued (louds ++ quiets ++ [last])
                 = map whisper_dequeued (louds ++ quiets) ++ [whisper_dequeued last]).
  { rewrite app_assoc, map_app. reflexivity. }
  rewrite Hmap in Hcut.
  assert (Hlen2 : (List.length louds + List.length quiets)%nat
                  = List.length (map whisper_dequeued (louds ++ quiets))).
  { rewrite length_map, length_app. reflexivity. }
  rewrite Hlen2, cut_single_utterance in Hcut. cbn [fst snd] in Hcut.
  destruct Hcut as [Hcalls Hframes].
  split; [exact Ho|].
  split; [|split; [exact Hframes|split; [exact Hsp|split; assumption]]].
  rewrite Hcalls, <- payloads_filter, Hmap, join_app, join_single.
  reflexivity.
Qed.

Lemma whisper_speech_then_silence_witness :
  let cfg := Whisper.mkConfig 16000 200 6400 500 300 2 in
  let louds := [Whisper.Chunk (tone 3200 xe8 x03) 100 100 None] in
  let quiets := [Whisper.Chunk (tone 3200 x00 x00) 200 200 None] in
  let last := Whisper.Chunk (tone 3200 x00 x00) 350 360 (Some "hello"%string) in
  Forall (whisper_loud_chunk cfg) louds /\
  Forall (whisper_silent_chunk cfg) (quiets ++ [last]) /\
  fst (Whisper.process_audio_loop cfg (Whisper.init 0) (louds ++ quiets ++ [last]))
  = [Accumulated; Accumulated; Flushed].
Proof.
  intros cfg louds quiets last.
  assert (Hl : Forall (whisper_loud_chunk cfg) louds).
  { repeat constructor; vm_compute; reflexivity. }
  assert (Hq : Forall (whisper_silent_chunk cfg) (quiets ++ [last])).
  { repeat constructor; vm_compute; try reflexivity; discriminate. }
  assert (Hne : louds <> []) by discriminate.
  assert (Hlen : len (quiets ++ [last]) = Whisper.max_silence_chunks cfg)
    by (vm_compute; reflexivity).
  assert (Ht : Forall (fun ev => whisper_now ev - Whisper.buffer_start_time (Whisper.init 0)
                                 < Whisper.chunk_duration cfg * 2)
                 (louds ++ quiets ++ [last])).
  { repeat constructor; vm_compute; reflexivity. }
  assert (Hmin : Whisper.min_chunk_duration cfg
                 <= whisper_now last - Whisper.buffer_start_time (Whisper.init 0)).
  { vm_compute. discriminate. }
  split; [exact Hl|]. split; [exact Hq|].
  exact (proj1 (whisper_speech_then_silence cfg (Whisper.init 0) louds quiets last
                  Hne Hl Hq Hlen Ht Hmin)).
Defined.

(** ** Invariants of [OptimizedGoogleSRTranscriber] *)

Lemma app_nonempty_l {A : Type} (l1 l2 : list A) : l1 <> [] -> l1 ++ l2 <> [].
Proof. destruct l1; [intro H; contradiction H; reflexivity|discriminate]. Qed.

Lemma app_nonempty_r {A : Type} (l1 l2 : list A) : l2 <> [] -> l1 ++ l2 <> [].
Proof.
  intros H E. apply app_eq_nil in E. destruct E as [_ E]. contradiction.
Qed.

Lemma rms_positive_nonempty (data : bytes) : 0 < Audio.rms data -> data <> [].
Proof. intros H E. subst data. vm_compute in H. discriminate H. Qed.

Lemma highperf_iter_speech (cfg : HighPerf.Config) (st : HighPerf.state)
    (ev : HighPerf.event) :
  0 <= HighPerf.energy_threshold cfg ->
  (HighPerf.speech_detected st = true ->
   Wave.frames (HighPerf.accumulated_audio st) <> []) ->
  Forall (fun p : bytes => p <> []) (HighPerf.calls st) ->
  let st' := snd (HighPerf.process_audio_iter cfg st ev) in
  (HighPerf.speech_detected st' = true ->
   Wave.frames (HighPerf.accumulated_audio st') <> [])
  /\ Forall (fun p : bytes => p <> []) (HighPerf.calls st').
Proof.
  intros Hthr Hsp Hcalls.
  destruct ev as [audio_data reply|]; cbn [HighPerf.process_audio_iter];
    [|split; assumption].
  destruct (Z.eq_dec (len audio_data mod 2) 0) as [Heven|Hodd].
  - rewrite (highperf_on_chunk_even cfg st audio_data reply Heven). cbv zeta.
    assert (Hgrown :
      fst (HighPerf.classify cfg (Audio.rms audio_data)
             (HighPerf.speech_detected st) (HighPerf.silence_counter st)) = true ->
      Wave.frames (HighPerf.accumulated_audio st) ++ audio_data <> []).
    { unfold HighPerf.classify.
      destruct (Z.ltb_spec (HighPerf.energy_threshold cfg) (Audio.rms audio_data));
        cbn [fst]; intro H1.
      - apply app_nonempty_r, rms_positive_nonempty. lia.
      - apply app_nonempty_l, Hsp, H1. }
    destruct (fst (HighPerf.classify cfg (Audio.rms audio_data)
                     (HighPerf.speech_detected st) (HighPerf.silence_counter st)))
      eqn:Hfst; cbn [andb].
    + destruct (_ <=? _); cbn [snd HighPerf.speech_detected HighPerf.calls
        HighPerf.accumulated_audio Wave.frames Wave.writeframes Wave.fresh].
      * split; [discriminate|]. apply Forall_app. split; [exact Hcalls|].
        constructor; [|constructor]. rewrite raw_data_frames.
        cbn [Wave.frames Wave.writeframes]. apply Hgrown. reflexivity.
      * split; [intros _; apply Hgrown; reflexivity|exact Hcalls].
    + cbn [snd HighPerf.speech_detected HighPerf.calls].
      split; [discriminate|exact Hcalls].
  - rewrite (highperf_on_chunk_odd cfg st audio_data reply Hodd).
    cbn [snd HighPerf.speech_detected HighPerf.calls HighPerf.accumulated_audio
         Wave.frames Wave.writeframes].
    split; [|exact Hcalls]. intro H. apply app_nonempty_l, Hsp, H.
Qed.

(** With a nonnegative [energy_threshold], [OptimizedGoogleSRTranscriber]
    never calls [recognize_google] on an empty utterance: a flush needs
    speech, and a chunk counted as speech has a positive RMS, so it has
    samples. *)
Theorem highperf_calls_nonempty (cfg : HighPerf.Config)
    (evs : list HighPerf.event) :
  0 <= HighPerf.energy_threshold cfg ->
  Forall (fun p : bytes => p <> [])
    (HighPerf.calls (snd (HighPerf.process_audio_loop cfg HighPerf.init evs))).
Proof.
  intro Hthr.
  assert (Hgen : forall st,
    (HighPerf.speech_detected st = true ->
     Wave.frames (HighPerf.accumulated_audio st) <> []) ->
    Forall (fun p : bytes => p <> []) (HighPerf.calls st) ->
    Forall (fun p : bytes => p <> [])
      (HighPerf.calls (snd (HighPerf.process_audio_loop cfg st evs)))).
  { induction evs as [|ev evs IH]; intros st Hsp Hcalls; [exact Hcalls|].
    cbn [HighPerf.process_audio_loop].
    destruct (highperf_iter_speech cfg st ev Hthr Hsp Hcalls) as [Hsp1 Hcalls1].
    destruct (HighPerf.process_audio_iter cfg st ev) as [o st1]. cbn [snd] in *.
    specialize (IH st1 Hsp1 Hcalls1).
    destruct (HighPerf.process_audio_loop cfg st1 evs) as [os st2]. exact IH. }
  apply Hgen; [discriminate|constructor].
Qed.

Lemma highperf_calls_nonempty_witness :
  let cfg := HighPerf.default_config in
  let evs :=
    [HighPerf.Chunk (tone 8000 xe8 x03) UnknownValueError;
     HighPerf.Chunk (tone 8000 x00 x00) UnknownValueError;
     HighPerf.Chunk (tone 8000 x00 x00) UnknownValueError] in
  0 <= HighPerf.energy_threshold cfg /\
  Forall (fun p : bytes => p <> [])
    (HighPerf.calls (snd (HighPerf.process_audio_loop cfg HighPerf.init evs))).
Proof.
  intros cfg evs.
  assert (Hthr : 0 <= HighPerf.energy_threshold cfg) by (vm_compute; discriminate).
  split; [exact Hthr|]. exact (highperf_calls_nonempty cfg evs Hthr).
Defined.

Lemma except_iter_counter (cfg : HighPerf.Config) (st : HighPerfExcept.state)
    (ev : HighPerfExcept.event) :
  let ok := fun st : HighPerfExcept.state =>
    0 <= HighPerf.silence_counter (HighPerfExcept.inner st)
    /\ (HighPerfExcept.writer_closed st = false ->
        HighPerf.speech_detected (HighPerfExcept.inner st) = true ->
        HighPerf.silence_counter (HighPerfExcept.inner st)
        < HighPerf.max_silence_chunks cfg)
    /\ (HighPerfExcept.writer_closed st = true ->
        HighPerf.speech_detected (HighPerfExcept.inner st) = true
        /\ HighPerf.max_silence_chunks cfg
           <= HighPerf.silence_counter (HighPerfExcept.inner st)) in
  ok st -> ok (snd (HighPerfExcept.process_audio_iter cfg st ev)).
Proof.
  intros ok (H0 & Hopen & Hclosed). subst ok. cbv beta.
  destruct ev as [audio_data fe|]; cbn [HighPerfExcept.process_audio_iter];
    [|cbn [HighPerfExcept.on_empty snd]; auto].
  unfold HighPerfExcept.on_chunk.
  destruct (HighPerfExcept.writer_closed st) eqn:Hc; [cbn [snd]; rewrite Hc; auto|].
  specialize (Hopen eq_refl).
  destruct (Audio.AudioSegment audio_data) as [seg|];
    [|cbn [snd HighPerfExcept.inner HighPerfExcept.writer_closed
           HighPerf.silence_counter HighPerf.speech_detected];
      split; [exact H0|split; [auto|discriminate]]].
  unfold HighPerf.classify.
  destruct (HighPerf.energy_threshold cfg <? Audio.rms seg).
  - cbn [andb].
    destruct (Z.leb_spec (HighPerf.max_silence_chunks cfg) 0) as [Hle|Hgt].
    + destruct fe as [reply|called];
        cbn [snd HighPerfExcept.inner HighPerfExcept.writer_closed
             HighPerf.silence_counter HighPerf.speech_detected];
        (split; [lia|split; [intros; try discriminate; lia|]]);
        try discriminate.
      intros _. split; [reflexivity|exact Hle].
    + cbn [snd HighPerfExcept.inner HighPerfExcept.writer_closed
           HighPerf.silence_counter HighPerf.speech_detected].
      split; [lia|split; [intros; lia|discriminate]].
  - destruct (HighPerf.speech_detected (HighPerfExcept.inner st)) eqn:Hs;
      cbn [andb].
    + destruct (Z.leb_spec (HighPerf.max_silence_chunks cfg)
                  (HighPerf.silence_counter (HighPerfExcept.inner st) + 1))
        as [Hle|Hgt].
      * destruct fe as [reply|called];
          cbn [snd HighPerfExcept.inner HighPerfExcept.writer_closed
               HighPerf.silence_counter HighPerf.speech_detected];
          (split; [lia|split; [intros; try discriminate; lia|]]);
          try discriminate.
        intros _. split; [reflexivity|exact Hle].
      * cbn [snd HighPerfExcept.inner HighPerfExcept.writer_closed
             HighPerf.silence_counter HighPerf.speech_detected].
        split; [lia|split; [intros; lia|discriminate]].
    + cbn [snd HighPerfExcept.inner HighPerfExcept.writer_closed
           HighPerf.silence_counter HighPerf.speech_detected].
      split; [lia|split; [discriminate|discriminate]].
Qed.

(** In [OptimizedGoogleSRTranscriber] the silence counter is never
    negative.  While the writer is open and speech is pending it stays
    below [max_silence_chunks]: the iteration that would bring it there
    enters the flush block, which resets it.  The writer is closed only
    after the flush block raised something unexpected; then speech is
    still marked as pending and the counter has stayed at or above
    [max_silence_chunks]. *)
Theorem highperf_counter_below_max (cfg : HighPerf.Config)
    (evs : list HighPerfExcept.event) :
  let st' := snd (HighPerfExcept.process_audio_loop cfg HighPerfExcept.init evs) in
  0 <= HighPerf.silence_counter (HighPerfExcept.inner st')
  /\ (HighPerfExcept.writer_closed st' = false ->
      HighPerf.speech_detected (HighPerfExcept.inner st') = true ->
      HighPerf.silence_counter (HighPerfExcept.inner st')
      < HighPerf.max_silence_chunks cfg)
  /\ (HighPerfExcept.writer_closed st' = true ->
      HighPerf.speech_detected (HighPerfExcept.inner st') = true
      /\ HighPerf.max_silence_chunks cfg
         <= HighPerf.silence_counter (HighPerfExcept.inner st')).
Proof.
  set (ok := fun st : HighPerfExcept.state =>
    0 <= HighPerf.silence_counter (HighPerfExcept.inner st)
    /\ (HighPerfExcept.writer_closed st = false ->
        HighPerf.speech_detected (HighPerfExcept.inner st) = true ->
        HighPerf.silence_counter (HighPerfExcept.inner st)
        < HighPerf.max_silence_chunks cfg)
    /\ (HighPerfExcept.writer_closed st = true ->
        HighPerf.speech_detected (HighPerfExcept.inner st) = true
        /\ HighPerf.max_silence_chunks cfg
           <= HighPerf.silence_counter (HighPerfExcept.inner st))).
  assert (Hgen : forall st, ok st ->
            ok (snd (HighPerfExcept.process_audio_loop cfg st evs))).
  { induction evs as [|ev evs IH]; intros st Hok; [exact Hok|].
    cbn [HighPerfExcept.process_audio_loop].
    pose proof (except_iter_counter cfg st ev Hok) as H1.
    destruct (HighPerfExcept.process_audio_iter cfg st ev) as [o st1].
    cbn [snd] in H1. specialize (IH st1 H1).
    destruct (HighPerfExcept.process_audio_loop cfg st1 evs) as [os st2].
    exact IH. }
  apply (Hgen HighPerfExcept.init).
  split; [cbn; lia|]. split; [discriminate|discriminate].
Qed.

(** ** The messages of [WhisperCPPTranscriber] *)

Section StripFront.

Context {A : Type} (p1 : A -> bool) (p2 : A -> A -> bool)
  (p3 : A -> A -> A -> bool).

Lemma strip_front_suffix (l : list A) :
  exists dropped, l = dropped ++ strip_front p1 p2 p3 l.
Proof.
  assert (H : forall n l, (List.length l <= n)%nat ->
            exists dropped, l = dropped ++ strip_front p1 p2 p3 l).
  { clear l. induction n as [|n IH]; intros l Hn.
    - destruct l; [exists []; reflexivity|cbn in Hn; lia].
    - destruct l as [|a r]; [exists []; reflexivity|].
      cbn [strip_front]. cbn [List.length] in Hn. destruct (p1 a).
      + destruct (IH r) as [d Hd]; [lia|]. exists (a :: d). cbn [app].
        rewrite <- Hd. reflexivity.
      + destruct r as [|b r2]; [exists []; reflexivity|].
        cbn [List.length] in Hn. destruct (p2 a b).
        * destruct (IH r2) as [d Hd]; [lia|]. exists (a :: b :: d). cbn [app].
          rewrite <- Hd. reflexivity.
        * destruct r2 as [|c r3]; [exists []; reflexivity|].
          cbn [List.length] in Hn. destruct (p3 a b c); [|exists []; reflexivity].
          destruct (IH r3) as [d Hd]; [lia|]. exists (a :: b :: c :: d).
          cbn [app]. rewrite <- Hd. reflexivity. }
  apply (H (List.length l)). lia.
Qed.

Lemma strip_front_clean (l : list A) :
  clean_front p1 p2 p3 (strip_front p1 p2 p3 l) = true.
Proof.
  assert (H : forall n l, (List.length l <= n)%nat ->
            clean_front p1 p2 p3 (strip_front p1 p2 p3 l) = true).
  { clear l. induction n as [|n IH]; intros l Hn.
    - destruct l; [reflexivity|cbn in Hn; lia].
    - destruct l as [|a r]; [reflexivity|].
      cbn [strip_front]. cbn [List.length] in Hn.
      destruct (p1 a) eqn:E1; [apply IH; lia|].
      destruct r as [|b r2]; [cbn; rewrite E1; reflexivity|].
      cbn [List.length] in Hn.
      destruct (p2 a b) eqn:E2; [apply IH; lia|].
      destruct r2 as [|c r3]; [cbn; rewrite E1, E2; reflexivity|].
      cbn [List.length] in Hn.
      destruct (p3 a b c) eqn:E3; [apply IH; lia|].
      cbn. rewrite E1, E2, E3. reflexivity. }
  apply (H (List.length l)). lia.
Qed.

Lemma clean_front_fixed (l : list A) :
  clean_front p1 p2 p3 l = true -> strip_front p1 p2 p3 l = l.
Proof.
  destruct l as [|a r]; [reflexivity|]. cbn [clean_front strip_front].
  destruct (p1 a); [discriminate|]. cbn [negb andb].
  destruct r as [|b r2]; [reflexivity|].
  destruct (p2 a b); [discriminate|]. cbn [negb andb].
  destruct r2 as [|c r3]; [reflexivity|].
  destruct (p3 a b c); [discriminate|]. reflexivity.
Qed.

Lemma clean_front_prefix (t u : list A) :
  clean_front p1 p2 p3 (t ++ u) = true -> clean_front p1 p2 p3 t = true.
Proof.
  destruct t as [|a t]; [reflexivity|]. cbn [app clean_front].
  destruct (p1 a); [discriminate|]. cbn [negb andb].
  destruct t as [|b t]; [reflexivity|]. cbn [app].
  destruct (p2 a b); [discriminate|]. cbn [negb andb].
  destruct t as [|c t]; [reflexivity|]. cbn [app]. auto.
Qed.

End StripFront.

Lemma strip_list_clean (l : list ascii) :
  let t := rev (rstrip_reversed (rev (lstrip l))) in
  lstrip t = t /\ rstrip_reversed (rev t) = rev t.
Proof.
  cbv zeta. unfold lstrip, rstrip_reversed.
  set (m := strip_front is_space is_space2 is_space3 l).
  set (G := strip_front is_space (fun b a => is_space2 a b)
              (fun c b a => is_space3 a b c)).
  split.
  - apply clean_front_fixed.
    destruct (strip_front_suffix is_space (fun b a => is_space2 a b)
                (fun c b a => is_space3 a b c) (rev m)) as [dropped Hd].
    fold G in Hd.
    assert (Hm : m = rev (G (rev m)) ++ rev dropped).
    { rewrite <- rev_app_distr, <- Hd, rev_involutive. reflexivity. }
    apply (clean_front_prefix is_space is_space2 is_space3 _ (rev dropped)).
    rewrite <- Hm. apply strip_front_clean.
  - rewrite rev_involutive. apply clean_front_fixed, strip_front_clean.
Qed.

Lemma strip_idempotent (s : string) : strip (strip s) = strip s.
Proof.
  unfold strip. rewrite list_ascii_of_string_of_list_ascii.
  destruct (strip_list_clean (list_ascii_of_string s)) as [H1 H2].
  cbv zeta in H1, H2. rewrite H1, H2, rev_involutive. reflexivity.
Qed.

Lemma strip_clean (s : string) :
  clean_front is_space is_space2 is_space3 (list_ascii_of_string (strip s)) = true
  /\ clean_front is_space (fun b a => is_space2 a b) (fun c b a => is_space3 a b c)
       (rev (list_ascii_of_string (strip s))) = true.
Proof.
  unfold strip. rewrite list_ascii_of_string_of_list_ascii.
  destruct (strip_list_clean (list_ascii_of_string s)) as [H1 H2].
  cbv zeta in H1, H2. split.
  - rewrite <- H1. apply strip_front_clean.
  - rewrite <- H2. apply strip_front_clean.
Qed.

(** Every [Transcription] produced by [WhisperCPPTranscriber] carries a
    message that [strip()] leaves unchanged: it is nonempty and neither
    begins nor ends with a whitespace character (of any of the Unicode
    kinds [strip()] removes); its confidence is 0.98 and it is final. *)
Theorem whisper_messages_trimmed (cfg : Whisper.Config) (t0 : Z)
    (evs : list Whisper.event) :
  Forall (fun t =>
            strip (message t) = message t /\ message t <> EmptyString /\
            clean_front is_space is_space2 is_space3
              (list_ascii_of_string (message t)) = true /\
            clean_front is_space (fun b a => is_space2 a b)
              (fun c b a => is_space3 a b c)
              (rev (list_ascii_of_string (message t))) = true /\
            confidence t = 98 /\ is_final t = true)
    (Whisper.produced (snd (Whisper.process_audio_loop cfg (Whisper.init t0) evs))).
Proof.
  set (good := fun t : Transcription =>
            strip (message t) = message t /\ message t <> EmptyString /\
            clean_front is_space is_space2 is_space3
              (list_ascii_of_string (message t)) = true /\
            clean_front is_space (fun b a => is_space2 a b)
              (fun c b a => is_space3 a b c)
              (rev (list_ascii_of_string (message t))) = true /\
            confidence t = 98 /\ is_final t = true).
  assert (Htb : forall st reply,
    Forall good (Whisper.produced st) ->
    Forall good (Whisper.produced (Whisper.transcribe_buffer cfg st reply))).
  { intros st reply H.
    destruct (whisper_transcribe_produced cfg st reply) as [E|[text [Ht [_ E]]]];
      rewrite E; [exact H|].
    apply Forall_app. split; [exact H|]. constructor; [|constructor].
    unfold good. cbn [message confidence is_final].
    split; [apply strip_idempotent|]. split; [apply truthy_nonempty, Ht|].
    split; [apply (strip_clean text)|]. split; [apply (strip_clean text)|]. auto. }
  assert (Hgen : forall st,
    Forall good (Whisper.produced st) ->
    Forall good (Whisper.produced (snd (Whisper.process_audio_loop cfg st evs)))).
  { induction evs as [|ev evs IH]; intros st Hp; [exact Hp|].
    cbn [Whisper.process_audio_loop].
    assert (Hp1 : Forall good (Whisper.produced (snd (Whisper.process_audio_iter cfg st ev)))).
    { destruct ev as [audio_data now later reply|now later reply];
        cbn [Whisper.process_audio_iter].
      - destruct (Z.eq_dec (len audio_data mod 2) 0) as [Heven|Hodd].
        + rewrite (whisper_on_chunk_even cfg st audio_data now later reply Heven).
          cbv zeta. destruct (Whisper.should_process _ _ _ _);
            cbn [snd Whisper.produced]; [|exact Hp].
          apply Htb. exact Hp.
        + rewrite (whisper_on_chunk_odd cfg st audio_data now later reply Hodd).
          exact Hp.
      - unfold Whisper.on_empty.
        destruct (_ && _); cbn [snd Whisper.produced]; [|exact Hp].
        apply Htb. exact Hp. }
    destruct (Whisper.process_audio_iter cfg st ev) as [o st1]. cbn [snd] in *.
    specialize (IH st1 Hp1).
    destruct (Whisper.process_audio_loop cfg st1 evs) as [os st2]. exact IH. }
  apply Hgen. constructor.
Qed.

Lemma whisper_transcribe_counts (cfg : Whisper.Config) (st : Whisper.state)
    (reply : option string) :
  let st' := Whisper.transcribe_buffer cfg st reply in
  (List.length (Whisper.produced st') + List.length (Whisper.calls st)
   <= List.length (Whisper.produced st) + List.length (Whisper.calls st'))%nat
  /\ (List.length (Whisper.calls st) <= List.length (Whisper.calls st')
      <= List.length (Whisper.calls st) + 1)%nat
  /\ (List.length (Whisper.produced st) <= List.length (Whisper.produced st'))%nat.
Proof.
  cbv zeta. rewrite whisper_transcribe_calls, length_app.
  destruct (whisper_transcribe_produced cfg st reply) as [E|[text [_ [Hne E]]]];
    rewrite E.
  - destruct (Wave.frames (Whisper.audio_buffer st)); cbn [payloads List.length]; lia.
  - rewrite length_app. cbn [List.length].
    destruct (Wave.frames (Whisper.audio_buffer st)); [contradiction Hne; reflexivity|].
    cbn [payloads List.length]. lia.
Qed.

Lemma whisper_iter_counts (cfg : Whisper.Config) (st : Whisper.state)
    (ev : Whisper.event) :
  let r := Whisper.process_audio_iter cfg st ev in
  (List.length (Whisper.produced (snd r)) + List.length (Whisper.calls st)
   <= List.length (Whisper.produced st) + List.length (Whisper.calls (snd r)))%nat
  /\ (List.length (Whisper.calls (snd r))
      <= List.length (Whisper.calls st) + (if is_flush (fst r) then 1 else 0))%nat
  /\ (List.length (Whisper.produced st) <= List.length (Whisper.produced (snd r)))%nat.
Proof.
  destruct ev as [audio_data now later reply|now later reply];
    cbn [Whisper.process_audio_iter].
  - destruct (Z.eq_dec (len audio_data mod 2) 0) as [Heven|Hodd].
    + rewrite (whisper_on_chunk_even cfg st audio_data now later reply Heven).
      cbv zeta. destruct (Whisper.should_process _ _ _ _);
        cbn [fst snd is_flush Whisper.produced Whisper.calls]; [|lia].
      match goal with
      | |- context [Whisper.transcribe_buffer cfg ?w reply] =>
          pose proof (whisper_transcribe_counts cfg w reply) as H
      end.
      cbv zeta in H. cbn [Whisper.produced Whisper.calls] in H. lia.
    + rewrite (whisper_on_chunk_odd cfg st audio_data now later reply Hodd).
      cbn [fst snd is_flush Whisper.produced Whisper.calls]. lia.
  - unfold Whisper.on_empty.
    destruct (_ && _); cbn [fst snd is_flush Whisper.produced Whisper.calls]; [|lia].
    pose proof (whisper_transcribe_counts cfg st reply) as H. cbv zeta in H. lia.
Qed.

(** [WhisperCPPTranscriber] never produces a [Transcription] without a
    call to whisper.cpp and never calls whisper.cpp outside a flush: over
    any run, the transcriptions added are at most the calls added, and the
    calls added are at most the flushes. *)
Theorem whisper_outputs_counted (cfg : Whisper.Config) (st : Whisper.state)
    (evs : list Whisper.event) :
  let r := Whisper.process_audio_loop cfg st evs in
  (List.length (Whisper.produced (snd r)) + List.length (Whisper.calls st)
   <= List.length (Whisper.produced st) + List.length (Whisper.calls (snd r)))%nat
  /\ (List.length (Whisper.calls (snd r))
      <= List.length (Whisper.calls st) + List.length (filter is_flush (fst r)))%nat
  /\ (List.length (Whisper.produced st) <= List.length (Whisper.produced (snd r)))%nat.
Proof.
  revert st. induction evs as [|ev evs IH]; intro st.
  - cbn. lia.
  - cbn [Whisper.process_audio_loop].
    pose proof (whisper_iter_counts cfg st ev) as Hstep. cbv zeta in Hstep.
    destruct (Whisper.process_audio_iter cfg st ev) as [o st1].
    cbn [fst snd] in Hstep. specialize (IH st1). cbv zeta in IH.
    destruct (Whisper.process_audio_loop cfg st1 evs) as [os st2].
    cbn [fst snd filter] in *.
    destruct (is_flush o); cbn [List.length]; lia.
Qed.

(** ** What is processed after [terminate()] *)

Lemma exited_is_final {S I E : Type} (L : Shutdown.loop S I E)
    (th : Shutdown.thread S) (xs : list (Shutdown.input I E)) :
  Shutdown.position_of th = Shutdown.Exited -> Shutdown.run L th xs = th.
Proof.
  intro Hex. unfold Shutdown.run. induction xs as [|x xs IH]; [reflexivity|].
  cbn [fold_left].
  assert (Hstep : Shutdown.step L th x = th) by (unfold Shutdown.step; rewrite Hex; reflexivity).
  rewrite Hstep. exact IH.
Qed.

Lemma run_app {S I E : Type} (L : Shutdown.loop S I E)
    (th : Shutdown.thread S) (xs ys : list (Shutdown.input I E)) :
  Shutdown.run L th (xs ++ ys) = Shutdown.run L (Shutdown.run L th xs) ys.
Proof. unfold Shutdown.run. apply fold_left_app. Qed.

Lemma terminate_sets_flag {S I E : Type} (L : Shutdown.loop S I E)
    (th : Shutdown.thread S) :
  Shutdown.position_of (Shutdown.step L th Shutdown.Terminate) = Shutdown.Exited
  \/ Shutdown.ended (Shutdown.step L th Shutdown.Terminate) = true.
Proof.
  unfold Shutdown.step. destruct (Shutdown.position_of th) eqn:Hpos.
  - right. reflexivity.
  - left. exact Hpos.
Qed.

Lemma stops_after_flag {S I E : Type} (L : Shutdown.loop S I E)
    (th : Shutdown.thread S) (pre xs : list (Shutdown.input I E))
    (x : Shutdown.input I E) :
  Shutdown.bounded_wait L -> x <> Shutdown.Terminate ->
  Shutdown.run L th (pre ++ Shutdown.Terminate :: x :: xs)
  = Shutdown.run L th (pre ++ [Shutdown.Terminate; x]).
Proof.
  intros Hb Hx. rewrite !run_app.
  set (th1 := Shutdown.run L th pre).
  change (Shutdown.Terminate :: x :: xs) with ([Shutdown.Terminate; x] ++ xs).
  rewrite run_app. apply exited_is_final.
  unfold Shutdown.run. cbn [fold_left].
  destruct (terminate_sets_flag L th1) as [Hex|Hended].
  - unfold Shutdown.step at 1. rewrite Hex. exact Hex.
  - apply (bounded_wait_shutdown L Hb); assumption.
Qed.

(** After [terminate()] the two [_process_audio_loop]s complete at most the
    wait they are in: whatever follows the first item or timeout after the
    flag was set is never dequeued, so nothing more is written, flushed or
    produced, and what is still buffered then is never handed over. *)
Theorem processing_stops_after_terminate (cfg : Whisper.Config)
    (hcfg : HighPerf.Config)
    (th : Shutdown.thread Whisper.state)
    (pre xs : list (Shutdown.input (bytes * Shutdown.readings) Shutdown.readings))
    (x : Shutdown.input (bytes * Shutdown.readings) Shutdown.readings)
    (hth : Shutdown.thread HighPerf.state)
    (hpre hxs : list (Shutdown.input (bytes * google_reply) unit))
    (hx : Shutdown.input (bytes * google_reply) unit) :
  x <> Shutdown.Terminate -> hx <> Shutdown.Terminate ->
  Shutdown.run (Shutdown.whisper_process_audio_loop cfg) th
    (pre ++ Shutdown.Terminate :: x :: xs)
  = Shutdown.run (Shutdown.whisper_process_audio_loop cfg) th
      (pre ++ [Shutdown.Terminate; x])
  /\ Shutdown.position_of
       (Shutdown.run (Shutdown.whisper_process_audio_loop cfg) th
          (pre ++ Shutdown.Terminate :: x :: xs)) = Shutdown.Exited
  /\ Shutdown.run (Shutdown.highperf_process_audio_loop hcfg) hth
       (hpre ++ Shutdown.Terminate :: hx :: hxs)
     = Shutdown.run (Shutdown.highperf_process_audio_loop hcfg) hth
         (hpre ++ [Shutdown.Terminate; hx])
  /\ Shutdown.position_of
       (Shutdown.run (Shutdown.highperf_process_audio_loop hcfg) hth
          (hpre ++ Shutdown.Terminate :: hx :: hxs)) = Shutdown.Exited.
Proof.
  intros Hx Hhx.
  assert (Hw : Shutdown.bounded_wait (Shutdown.whisper_process_audio_loop cfg))
    by (exists 100; reflexivity).
  assert (Hh : Shutdown.bounded_wait (Shutdown.highperf_process_audio_loop hcfg))
    by (exists 100; reflexivity).
  assert (Hexit : forall (S I E : Type) (L : Shutdown.loop S I E) t p y,
    Shutdown.bounded_wait L -> y <> Shutdown.Terminate ->
    Shutdown.position_of (Shutdown.run L t (p ++ [Shutdown.Terminate; y]))
    = Shutdown.Exited).
  { intros S I E L t p y Hb Hy. rewrite run_app.
    unfold Shutdown.run at 1. cbn [fold_left].
    destruct (terminate_sets_flag L (Shutdown.run L t p)) as [Hex|Hended].
    - unfold Shutdown.step at 1. rewrite Hex. exact Hex.
    - apply (bounded_wait_shutdown L Hb); assumption. }
  split; [apply stops_after_flag; assumption|].
  split; [rewrite stops_after_flag by assumption; apply Hexit; assumption|].
  split; [apply stops_after_flag; assumption|].
  rewrite stops_after_flag by assumption. apply Hexit; assumption.
Qed.

Lemma processing_stops_after_terminate_witness :
  let cfg := Whisper.mkConfig 16000 200 6400 500 500 2 in
  let L := Shutdown.whisper_process_audio_loop cfg in
  let th := Shutdown.spawn false (Whisper.init 0) in
  let x := Shutdown.Item (tone 3200 xe8 x03, (100, 100, None)) in
  let xs := [Shutdown.Elapsed (700, 700, Some "hello"%string)] in
  x <> Shutdown.Terminate /\
  Shutdown.run L th ([] ++ Shutdown.Terminate :: x :: xs)
  = Shutdown.run L th ([] ++ [Shutdown.Terminate; x]) /\
  Whisper.calls (Shutdown.locals (Shutdown.run L th (Shutdown.Terminate :: x :: xs))) = [].
Proof.
  intros cfg L th x xs.
  assert (Hx : x <> Shutdown.Terminate) by discriminate.
  assert (Hhx : @Shutdown.Elapsed (bytes * google_reply) unit tt <> Shutdown.Terminate)
    by discriminate.
  split; [exact Hx|]. split.
  - exact (proj1 (processing_stops_after_terminate cfg HighPerf.default_config
                    th [] xs x (Shutdown.spawn false HighPerf.init) [] []
                    (Shutdown.Elapsed tt) Hx Hhx)).
  - vm_compute. reflexivity.
Defined.

(** ** Model selection: [check_whisper_model], [test_system] and the wrapper *)

(** When [test_system] passes, constructing the wrapper with the default
    whisper-cpp path and the model [check_whisper_model] found does not
    raise; that model exists, is the first existing candidate, and is the
    one the wrapper's own search would have chosen. *)
Theorem system_check_guarantees_wrapper (path_exists : string -> bool)
    (devices_ok : bool) :
  JapaneseVoiceDemo.test_system path_exists devices_ok = true ->
  exists model,
    JapaneseVoiceDemo.check_whisper_model path_exists = Some model /\
    path_exists model = true /\
    In model WhisperCPPWrapper.possible_paths /\
    WhisperCPPWrapper.init path_exists (Some model) JapaneseVoiceDemo.whisper_path
    = WhisperCPPWrapper.Initialized model JapaneseVoiceDemo.whisper_path /\
    WhisperCPPWrapper.init path_exists None JapaneseVoiceDemo.whisper_path
    = WhisperCPPWrapper.Initialized model JapaneseVoiceDemo.whisper_path /\
    devices_ok = true.
Proof.
  unfold JapaneseVoiceDemo.test_system, JapaneseVoiceDemo.check_whisper_model,
    JapaneseVoiceDemo.model_paths, WhisperCPPWrapper.init,
    WhisperCPPWrapper.possible_paths.
  cbn [find].
  destruct (path_exists JapaneseVoiceDemo.whisper_path) eqn:Hw; [|discriminate].
  destruct (path_exists "/Users/yuki/vocode-core/models/ggml-base.bin"%string) eqn:H1.
  - cbn [truthy]. intro Hd. eexists. split; [reflexivity|].
    cbn [In]. rewrite H1. auto 10.
  - destruct (path_exists "models/ggml-base.bin"%string) eqn:H2; [|discriminate].
    cbn [truthy]. intro Hd. eexists. split; [reflexivity|].
    cbn [In]. rewrite H2. auto 10.
Qed.

Lemma system_check_guarantees_wrapper_witness :
  let path_exists := fun p : string =>
    String.eqb p "models/ggml-base.bin"%string
    || String.eqb p "/opt/homebrew/bin/whisper-cpp"%string in
  JapaneseVoiceDemo.test_system path_exists true = true /\
  exists model,
    JapaneseVoiceDemo.check_whisper_model path_exists = Some model /\
    path_exists model = true /\
    In model WhisperCPPWrapper.possible_paths /\
    WhisperCPPWrapper.init path_exists (Some model) JapaneseVoiceDemo.whisper_path
    = WhisperCPPWrapper.Initialized model JapaneseVoiceDemo.whisper_path /\
    WhisperCPPWrapper.init path_exists None JapaneseVoiceDemo.whisper_path
    = WhisperCPPWrapper.Initialized model JapaneseVoiceDemo.whisper_path /\
    true = true.
Proof.
  intro path_exists.
  assert (H : JapaneseVoiceDemo.test_system path_exists true = true)
    by (vm_compute; reflexivity).
  split; [exact H|]. exact (system_check_guarantees_wrapper path_exists true H).
Defined.

(** ** From whisper-cpp's output to the transcription *)

Lemma first_json_none (J : Type) (json_loads : string -> option J)
    (output_lines : list string) :
  Forall (fun line => WhisperCPPWrapper.json_candidate line = false) output_lines ->
  WhisperCPPWrapper.first_json J json_loads output_lines = None.
Proof.
  induction output_lines as [|line rest IH]; intro H; [reflexivity|].
  inversion H as [|? ? Hline Hrest]; subst.
  cbn [WhisperCPPWrapper.first_json]. rewrite Hline. apply IH. exact Hrest.
Qed.

(** When whisper-cpp prints no line that begins with an opening brace,
    [transcribe_audio_data] returns its standard output stripped, and a
    flush of a nonempty buffer produces exactly that text as a final
    [Transcription] when it is not empty and nothing otherwise; when
    whisper-cpp fails, the returned text is empty and nothing is
    produced: [transcribe_file] then returns the error entry with the
    text of the exception, which [transcribe_audio_data] does not read. *)
Theorem whisper_plain_output_transcription (J : Type)
    (json_loads : string -> option J) (text_member : J -> option string)
    (cfg : Whisper.Config) (st : Whisper.state)
    (language stdout str_e stderr : string) :
  Forall (fun line => WhisperCPPWrapper.json_candidate line = false)
    (split_lines (strip stdout)) ->
  Wave.frames (Whisper.audio_buffer st) <> [] ->
  let reply := WhisperCPPWrapper.transcribe_audio_data J json_loads text_member
                 language (WhisperCPPWrapper.Completed stdout) in
  let failed := WhisperCPPWrapper.transcribe_audio_data J json_loads text_member
                  language (WhisperCPPWrapper.CalledProcessError str_e stderr) in
  WhisperCPPWrapper.transcribe_file J json_loads language
    (WhisperCPPWrapper.Completed stdout)
  = WhisperCPPWrapper.TextResult J (strip stdout) language /\
  WhisperCPPWrapper.transcribe_file J json_loads language
    (WhisperCPPWrapper.CalledProcessError str_e stderr)
  = WhisperCPPWrapper.ErrorResult J str_e /\
  reply = Some (strip stdout) /\
  Whisper.produced (Whisper.transcribe_buffer cfg st reply)
  = Whisper.produced st
    ++ (if truthy (strip stdout) then [mkTranscription (strip stdout) 98 true]
        else []) /\
  failed = Some EmptyString /\
  Whisper.produced (Whisper.transcribe_buffer cfg st failed) = Whisper.produced st.
Proof.
  intros Hlines Hne reply failed.
  assert (Hreply : reply = Some (strip stdout)).
  { unfold reply, WhisperCPPWrapper.transcribe_audio_data,
      WhisperCPPWrapper.transcribe_file.
    rewrite (first_json_none J json_loads _ Hlines). reflexivity. }
  assert (Hpos : (44 <? len (Wave.read (Whisper.sampling_rate cfg)
                               (Wave.close (Whisper.audio_buffer st)))) = true).
  { rewrite len_read_close. apply Z.ltb_lt.
    pose proof (len_nonneg (Wave.frames (Whisper.audio_buffer st))) as H0.
    pose proof (len_nil_iff (Wave.frames (Whisper.audio_buffer st))) as Hnil.
    assert (len (Wave.frames (Whisper.audio_buffer st)) <> 0)
      by (intro E; apply Hne, Hnil, E).
    lia. }
  split.
  { unfold WhisperCPPWrapper.transcribe_file.
    rewrite (first_json_none J json_loads _ Hlines). reflexivity. }
  split; [reflexivity|].
  split; [exact Hreply|]. split; [|split; [reflexivity|]].
  - rewrite Hreply. unfold Whisper.transcribe_buffer. rewrite Hpos.
    rewrite strip_idempotent.
    destruct (truthy (strip stdout)); cbn [andb Whisper.produced].
    + reflexivity.
    + rewrite app_nil_r. reflexivity.
  - unfold failed, WhisperCPPWrapper.transcribe_audio_data,
      WhisperCPPWrapper.transcribe_file, Whisper.transcribe_buffer.
    rewrite Hpos. reflexivity.
Qed.

Lemma whisper_plain_output_transcription_witness :
  let cfg := Whisper.default_config in
  let st := Whisper.mkState (Wave.writeframes Wave.fresh (tone 4 xe8 x03))
              0 true 0 [] [] in
  let stdout := String "227" (String "128" (String "128"
                  (String.append "hello world" (String "010" EmptyString)))) in
  let reply := WhisperCPPWrapper.transcribe_audio_data unit (fun _ => None)
                 (fun _ => None) "ja"%string (WhisperCPPWrapper.Completed stdout) in
  Forall (fun line => WhisperCPPWrapper.json_candidate line = false)
    (split_lines (strip stdout)) /\
  Wave.frames (Whisper.audio_buffer st) <> [] /\
  Whisper.produced (Whisper.transcribe_buffer cfg st reply)
  = [mkTranscription "hello world"%string 98 true].
Proof.
  intros cfg st stdout reply.
  assert (Hlines : Forall (fun line => WhisperCPPWrapper.json_candidate line = false)
                     (split_lines (strip stdout))).
  { repeat constructor. }
  assert (Hne : Wave.frames (Whisper.audio_buffer st) <> []) by discriminate.
  split; [exact Hlines|]. split; [exact Hne|].
  exact (proj1 (proj2 (proj2 (proj2
    (whisper_plain_output_transcription unit (fun _ => None) (fun _ => None)
       cfg st "ja"%string stdout EmptyString EmptyString Hlines Hne))))).
Defined.

(** ** The turn-based demo *)

Lemma append_assoc (a b c : string) :
  String.append (String.append a b) c = String.append a (String.append b c).
Proof. induction a as [|x a IH]; cbn; [reflexivity|]. rewrite IH. reflexivity. Qed.

Lemma prefix_append_iff (needle s : string) :
  String.prefix needle s = true <-> exists post, s = String.append needle post.
Proof.
  revert s. induction needle as [|a needle IH]; intro s.
  - destruct s; cbn; split; intro H; try reflexivity; eexists; reflexivity.
  - destruct s as [|b s]; cbn [String.prefix].
    + split; [discriminate|]. intros [post H]. discriminate H.
    + destruct (ascii_dec a b) as [->|Hab].
      * rewrite IH. split; intros [post H]; exists post.
        -- cbn. rewrite H. reflexivity.
        -- cbn in H. injection H as H. exact H.
      * split; [discriminate|]. intros [post H]. cbn in H.
        injection H as H1 _. contradiction Hab. symmetry. exact H1.
Qed.

Lemma contains_iff (needle s : string) :
  contains needle s = true
  <-> exists pre post, s = String.append pre (String.append needle post).
Proof.
  induction s as [|c s IH]; cbn [contains].
  - rewrite orb_false_r, prefix_append_iff. split.
    + intros [post H]. exists EmptyString, post. exact H.
    + intros [pre [post H]]. destruct pre; [exists post; exact H|discriminate H].
  - rewrite orb_true_iff, prefix_append_iff, IH. split.
    + intros [[post H]|[pre [post H]]].
      * exists EmptyString, post. exact H.
      * exists (String c pre), post. cbn. rewrite H. reflexivity.
    + intros [pre [post H]]. destruct pre as [|x pre].
      * left. exists post. exact H.
      * right. cbn in H. injection H as _ H. exists pre, post. exact H.
Qed.

Lemma contains_goodbye_bye (s : string) :
  contains "goodbye"%string s = true -> contains "bye"%string s = true.
Proof.
  rewrite !contains_iff. intros [pre [post H]].
  exists (String.append pre "good"%string), post.
  rewrite H, append_assoc. reflexivity.
Qed.

(** A turn of the turn-based demo ends the session exactly when a text was
    recognised whose lower-case form contains ["bye"]; the test for
    ["goodbye"] adds nothing.  A timeout, an unrecognised utterance, a
    request error or an empty text never ends it. *)
Theorem turn_says_goodbye_iff (agent : option (string -> string))
    (l : TurnBased.listen_result) :
  (exists spoken, TurnBased.turn agent l = TurnBased.Goodbye spoken)
  <-> (exists text, l = TurnBased.Heard (Recognized text)
                    /\ contains "bye"%string (lower text) = true).
Proof.
  unfold TurnBased.turn. split.
  - intros [spoken H].
    destruct l as [[text| |]|]; cbn [TurnBased.record_audio] in H;
      try discriminate H.
    exists text. split; [reflexivity|].
    destruct (truthy text); [|discriminate H].
    destruct (contains "goodbye"%string (lower text)) eqn:Hg.
    + apply contains_goodbye_bye. exact Hg.
    + destruct (contains "bye"%string (lower text)); [reflexivity|discriminate H].
  - intros [text [-> Hbye]]. cbn [TurnBased.record_audio].
    destruct text as [|c text]; [cbn in Hbye; discriminate Hbye|].
    cbn [truthy]. rewrite Hbye, orb_true_r. eexists. reflexivity.
Qed.

(** In echo mode a turn speaks ["You said: "] followed by the recognised
    text, unchanged, exactly when that text is nonempty and does not
    contain ["bye"] in any letter case; otherwise it says goodbye or asks
    to try again. *)
Theorem turn_echo_reply (l : TurnBased.listen_result) (spoken : string) :
  TurnBased.turn None l = TurnBased.Reply spoken
  <-> (exists text, l = TurnBased.Heard (Recognized text)
                    /\ text <> EmptyString
                    /\ contains "bye"%string (lower text) = false
                    /\ spoken = String.append "You said: "%string text).
Proof.
  unfold TurnBased.turn. split.
  - intro H.
    destruct l as [[text| |]|]; cbn [TurnBased.record_audio] in H;
      try discriminate H.
    exists text. split; [reflexivity|].
    destruct (truthy text) eqn:Ht; [|discriminate H].
    split; [apply truthy_nonempty; exact Ht|].
    destruct (contains "goodbye"%string (lower text)); [discriminate H|].
    destruct (contains "bye"%string (lower text)); [discriminate H|].
    cbn [orb] in H. injection H as <-. auto.
  - intros [text (-> & Hne & Hbye & ->)]. cbn [TurnBased.record_audio].
    destruct text as [|c text]; [contradiction Hne; reflexivity|].
    cbn [truthy]. rewrite Hbye, orb_false_r.
    destruct (contains "goodbye"%string (lower (String c text))) eqn:Hg;
      [|reflexivity].
    apply contains_goodbye_bye in Hg. rewrite Hg in Hbye. discriminate Hbye.
Qed.

(** ** The idle-timeout flush always has something to hand over *)

Lemma whisper_iter_speech (cfg : Whisper.Config) (st : Whisper.state)
    (ev : Whisper.event) :
  0 <= Whisper.silence_threshold cfg ->
  (Whisper.has_speech st = true -> Wave.frames (Whisper.audio_buffer st) <> []) ->
  let st' := snd (Whisper.process_audio_iter cfg st ev) in
  Whisper.has_speech st' = true -> Wave.frames (Whisper.audio_buffer st') <> [].
Proof.
  intros Hthr Hsp.
  destruct ev as [audio_data now later reply|now later reply];
    cbn [Whisper.process_audio_iter].
  - destruct (Z.eq_dec (len audio_data mod 2) 0) as [Heven|Hodd].
    + rewrite (whisper_on_chunk_even cfg st audio_data now later reply Heven).
      cbv zeta. destruct (Whisper.should_process _ _ _ _);
        cbn [snd Whisper.has_speech Whisper.audio_buffer Wave.frames Wave.writeframes];
        [discriminate|].
      unfold Whisper.classify.
      destruct (Z.ltb_spec (Whisper.silence_threshold cfg) (Audio.rms audio_data));
        cbn [fst]; intro H1.
      * apply app_nonempty_r, rms_positive_nonempty. lia.
      * apply app_nonempty_l, Hsp, H1.
    + rewrite (whisper_on_chunk_odd cfg st audio_data now later reply Hodd).
      cbn [snd Whisper.has_speech Whisper.audio_buffer Wave.frames Wave.writeframes].
      intro H. apply app_nonempty_l, Hsp, H.
  - unfold Whisper.on_empty.
    destruct (_ && _); cbn [snd Whisper.has_speech]; [discriminate|exact Hsp].
Qed.

(** With a nonnegative [silence_threshold], the idle-timeout flush of
    [WhisperCPPTranscriber] always hands over exactly one nonempty
    utterance, the whole buffer: speech can only have been seen in a
    buffer that holds frames. *)
Theorem whisper_idle_flush_hands_over (cfg : Whisper.Config) (t0 : Z)
    (evs : list Whisper.event) (now later : Z) (reply : option string) :
  0 <= Whisper.silence_threshold cfg ->
  let st := snd (Whisper.process_audio_loop cfg (Whisper.init t0) evs) in
  fst (Whisper.on_empty cfg st now later reply) = Flushed ->
  Wave.frames (Whisper.audio_buffer st) <> []
  /\ Whisper.calls (snd (Whisper.on_empty cfg st now later reply))
     = Whisper.calls st ++ [Wave.frames (Whisper.audio_buffer st)].
Proof.
  intros Hthr.
  assert (Hgen : forall s,
    (Whisper.has_speech s = true -> Wave.frames (Whisper.audio_buffer s) <> []) ->
    Whisper.has_speech (snd (Whisper.process_audio_loop cfg s evs)) = true ->
    Wave.frames (Whisper.audio_buffer (snd (Whisper.process_audio_loop cfg s evs)))
    <> []).
  { induction evs as [|ev evs IH]; intros s Hs; [exact Hs|].
    cbn [Whisper.process_audio_loop].
    pose proof (whisper_iter_speech cfg s ev Hthr Hs) as H1. cbv zeta in H1.
    destruct (Whisper.process_audio_iter cfg s ev) as [o s1]. cbn [snd] in *.
    specialize (IH s1 H1).
    destruct (Whisper.process_audio_loop cfg s1 evs) as [os s2]. exact IH. }
  intros st Hflush.
  pose proof Hflush as Hcond. apply whisper_idle_flush_iff in Hcond.
  destruct Hcond as [Hsp _].
  assert (Hne : Wave.frames (Whisper.audio_buffer st) <> []).
  { apply Hgen; [discriminate|exact Hsp]. }
  split; [exact Hne|].
  pose proof (whisper_iter_buffer cfg st (Whisper.Empty now later reply)) as H.
  cbv zeta in H. cbn [Whisper.process_audio_iter whisper_dequeued] in H.
  rewrite Hflush in H. cbn [is_flush] in H. destruct H as [Hc _].
  rewrite Hc, app_nil_r.
  destruct (Wave.frames (Whisper.audio_buffer st)); [contradiction Hne; reflexivity|].
  reflexivity.
Qed.

Lemma whisper_idle_flush_hands_over_witness :
  let cfg := Whisper.mkConfig 16000 200 6400 500 500 2 in
  let evs := [Whisper.Chunk (tone 3200 xe8 x03) 100 100 None] in
  let st := snd (Whisper.process_audio_loop cfg (Whisper.init 0) evs) in
  0 <= Whisper.silence_threshold cfg /\
  fst (Whisper.on_empty cfg st 600 600 None) = Flushed /\
  Whisper.calls (snd (Whisper.on_empty cfg st 600 600 None))
  = Whisper.calls st ++ [Wave.frames (Whisper.audio_buffer st)].
Proof.
  intros cfg evs st.
  assert (Hthr : 0 <= Whisper.silence_threshold cfg) by (vm_compute; discriminate).
  assert (Hf : fst (Whisper.on_empty cfg st 600 600 None) = Flushed)
    by (vm_compute; reflexivity).
  split; [exact Hthr|]. split; [exact Hf|].
  exact (proj2 (whisper_idle_flush_hands_over cfg 0 evs 600 600 None Hthr Hf)).
Defined.

(** ** The counter left by the idle-timeout flush *)

(** The silence counter that the idle-timeout flush leaves behind has no
    effect on what [WhisperCPPTranscriber] does next: from two states that
    differ only in a silence counter held while no speech has been seen,
    every run takes the same outcomes, makes the same calls and produces
    the same transcriptions. *)
Theorem whisper_stale_counter_harmless (cfg : Whisper.Config)
    (a b : Whisper.state) (evs : list Whisper.event) :
  agree_but_idle_counter a b ->
  fst (Whisper.process_audio_loop cfg a evs)
  = fst (Whisper.process_audio_loop cfg b evs)
  /\ Whisper.calls (snd (Whisper.process_audio_loop cfg a evs))
     = Whisper.calls (snd (Whisper.process_audio_loop cfg b evs))
  /\ Whisper.produced (snd (Whisper.process_audio_loop cfg a evs))
     = Whisper.produced (snd (Whisper.process_audio_loop cfg b evs))
  /\ Whisper.audio_buffer (snd (Whisper.process_audio_loop cfg a evs))
     = Whisper.audio_buffer (snd (Whisper.process_audio_loop cfg b evs)).
Proof.
  revert a b. induction evs as [|ev evs IH]; intros a b Hab.
  - destruct Hab as (Hbuf & _ & _ & Hcalls & Hprod & _). cbn. auto.
  - cbn [Whisper.process_audio_loop].
    destruct (whisper_idle_counter_unobservable cfg a b ev Hab) as [Ho Hab1].
    destruct (Whisper.process_audio_iter cfg a ev) as [oa a1].
    destruct (Whisper.process_audio_iter cfg b ev) as [ob b1].
    cbn [fst snd] in *. subst ob. specialize (IH a1 b1 Hab1).
    destruct (Whisper.process_audio_loop cfg a1 evs) as [osa a2].
    destruct (Whisper.process_audio_loop cfg b1 evs) as [osb b2].
    cbn [fst snd] in *. destruct IH as (IHo & IHrest). rewrite IHo. auto.
Qed.

Lemma whisper_stale_counter_harmless_witness :
  let cfg := Whisper.mkConfig 16000 200 6400 500 500 2 in
  let a := Whisper.mkState Wave.fresh 500 false 1 [] [] in
  let b := Whisper.mkState Wave.fresh 500 false 0 [] [] in
  let evs :=
    [Whisper.Chunk (tone 3200 x00 x00) 600 600 None;
     Whisper.Chunk (tone 3200 xe8 x03) 700 700 None;
     Whisper.Empty 1100 1100 (Some "hello"%string)] in
  agree_but_idle_counter a b /\
  fst (Whisper.process_audio_loop cfg a evs)
  = fst (Whisper.process_audio_loop cfg b evs).
Proof.
  intros cfg a b evs.
  assert (Hab : agree_but_idle_counter a b).
  { unfold agree_but_idle_counter. cbn. repeat split; discriminate. }
  split; [exact Hab|].
  exact (proj1 (whisper_stale_counter_harmless cfg a b evs Hab)).
Defined.
